(** * qtpropertysheet: the property tree of [qtproperty.cpp]

    A shallow embedding of [QtProperty] and its three container variants
    ([QtListProperty], [QtDictProperty], [QtGroupProperty]).  Objects live in
    a store indexed by their address; the Qt signal/slot machinery is made
    explicit as a table of connections plus a log of every emitted signal. *)

From stdpp Require Import gmap strings list fin_maps relations.
From Stdlib Require Import ZArith DecimalString.

Local Open Scope Z_scope.

(** ** Dynamically typed values *)

(** Modelled from the spec: [QVariant] is Qt's universal value container and is
    not part of the repository.  Following the design notes it is a tagged
    union over null, scalars, ordered sequences and string-keyed mappings, with
    structural value equality.  A mapping is kept as the key-ordered entry list
    that [fromMap] produces. *)
#[warnings="-register-all"]
Inductive QVariant : Type :=
  | Invalid
  | VInt (z : Z)
  | VString (s : string)
  | VList (l : list QVariant)
  | VMap (m : list (string * QVariant)).

Fixpoint QVariant_eq_dec (a b : QVariant) {struct a} : {a = b} + {a <> b}.
Proof.
  decide equality.
  - apply Z.eq_dec.
  - apply String.string_dec.
  - apply (List.list_eq_dec QVariant_eq_dec).
  - apply List.list_eq_dec. intros [k1 v1] [k2 v2].
    destruct (String.string_dec k1 k2) as [->|Hk]; [|right; congruence].
    destruct (QVariant_eq_dec v1 v2) as [->|Hv];
      [left; reflexivity|right; congruence].
Defined.

#[global] Instance QVariant_eq : EqDecision QVariant := QVariant_eq_dec.

Abbreviation QVariantList := (list QVariant).
Abbreviation QVariantMap := (gmap string QVariant).

(** [QVariant::toList]: the sequence held, or an empty one. *)
Definition toList (v : QVariant) : QVariantList :=
  match v with VList l => l | _ => [] end.

(** [QVariant::toMap]: the mapping held, or an empty one. *)
Definition toMap (v : QVariant) : QVariantMap :=
  match v with VMap m => list_to_map m | _ => ∅ end.

Definition fromMap (m : QVariantMap) : QVariant := VMap (map_to_list m).

(** [QMap::value(key)]: a default-constructed value when the key is absent. *)
Definition QMap_value (m : QVariantMap) (key : string) : QVariant :=
  default Invalid (m !! key).

(** [QVariant::toString]: the default string conversion. *)
Definition toString (v : QVariant) : string :=
  match v with
  | VInt z => NilZero.string_of_int (Z.to_int z)
  | VString s => s
  | _ => ""
  end.

(** ** Objects, signals and the store *)

Abbreviation ptr := nat (only parsing).

(** The dynamic class of an object, which selects its virtual methods. *)
Inductive Class : Type :=
  | CQtProperty
  | CQtListProperty
  | CQtDictProperty
  | CQtGroupProperty.

#[global] Instance Class_eq : EqDecision Class.
Proof. solve_decision. Defined.

Definition isContainer (k : Class) : bool :=
  match k with CQtProperty => false | _ => true end.

Record QtProperty : Type := mkQtProperty {
  cls : Class;
  type_ : Z;
  name_ : string;
  title_ : string;
  value_ : QVariant;
  attributes_ : gmap string QVariant;
  children_ : list ptr;
  parent_ : option ptr;
  visible_ : bool;
  selfVisible_ : bool
}.

Definition set_name (n : string) (o : QtProperty) : QtProperty :=
  mkQtProperty (cls o) (type_ o) n (title_ o) (value_ o) (attributes_ o)
    (children_ o) (parent_ o) (visible_ o) (selfVisible_ o).
Definition set_title (t : string) (o : QtProperty) : QtProperty :=
  mkQtProperty (cls o) (type_ o) (name_ o) t (value_ o) (attributes_ o)
    (children_ o) (parent_ o) (visible_ o) (selfVisible_ o).
Definition set_value (v : QVariant) (o : QtProperty) : QtProperty :=
  mkQtProperty (cls o) (type_ o) (name_ o) (title_ o) v (attributes_ o)
    (children_ o) (parent_ o) (visible_ o) (selfVisible_ o).
Definition set_attributes (a : gmap string QVariant) (o : QtProperty)
  : QtProperty :=
  mkQtProperty (cls o) (type_ o) (name_ o) (title_ o) (value_ o) a
    (children_ o) (parent_ o) (visible_ o) (selfVisible_ o).
Definition set_children (c : list ptr) (o : QtProperty) : QtProperty :=
  mkQtProperty (cls o) (type_ o) (name_ o) (title_ o) (value_ o)
    (attributes_ o) c (parent_ o) (visible_ o) (selfVisible_ o).
Definition set_parent (p : option ptr) (o : QtProperty) : QtProperty :=
  mkQtProperty (cls o) (type_ o) (name_ o) (title_ o) (value_ o)
    (attributes_ o) (children_ o) p (visible_ o) (selfVisible_ o).

(** The three signals of [QtProperty]. *)
Inductive Signal : Type :=
  | signalValueChange (property : ptr)
  | signalPropertyInserted (property parent : ptr)
  | signalPropertyRemoved (property : ptr) (parent : option ptr).

#[global] Instance Signal_eq : EqDecision Signal.
Proof. solve_decision. Defined.

(** One emission: the emitting object and the signal with its arguments. *)
Abbreviation Emission := (ptr * Signal)%type (only parsing).

(** The store.  [connections] lists the [(sender, receiver)] pairs that link a
    sender's [signalValueChange] to the receiver's [slotChildValueChange];
    [emitted] logs every emission in order, which is all an outside listener
    can observe. *)
Record State : Type := mkState {
  heap : gmap ptr QtProperty;
  connections : list (ptr * ptr);
  emitted : list Emission
}.

Definition modify (p : ptr) (f : QtProperty -> QtProperty) (st : State)
  : State :=
  mkState (alter f p (heap st)) (connections st) (emitted st).

Definition record (sender : ptr) (s : Signal) (st : State) : State :=
  mkState (heap st) (connections st) (emitted st ++ [(sender, s)]).

(** How a call ends: normally, on a failed [assert], on a dereference of a
    pointer to no live object, or with the recursion budget used up. *)
Inductive Result (A : Type) : Type :=
  | Done (a : A)
  | AssertFailed
  | Fault
  | OutOfFuel.
Arguments Done {A} a.
Arguments AssertFailed {A}.
Arguments Fault {A}.
Arguments OutOfFuel {A}.

Definition bind {A B : Type} (r : Result A) (k : A -> Result B) : Result B :=
  match r with
  | Done a => k a
  | AssertFailed => AssertFailed
  | Fault => Fault
  | OutOfFuel => OutOfFuel
  end.

Notation "'let*' x ':=' r 'in' k" := (bind r (fun x => k))
  (at level 10, x name, r at level 100, k at level 200).

Definition deref (p : ptr) (st : State) : Result QtProperty :=
  match heap st !! p with Some o => Done o | None => Fault end.

(** [foreach (x, l) body]: the body run on each element of a snapshot. *)
Fixpoint foreach {A : Type} (l : list A) (body : A -> State -> Result State)
  (st : State) : Result State :=
  match l with
  | [] => Done st
  | x :: rest => let* st' := body x st in foreach rest body st'
  end.

(** ** [QtProperty]: the base class *)

(** The constructor: a fresh object at address [this], no parent, visible. *)
Definition QtProperty_new (k : Class) (type : Z) (this : ptr) (st : State)
  : Result State :=
  match heap st !! this with
  | Some _ => Fault
  | None =>
      Done (mkState
              (<[this := mkQtProperty k type "" "" Invalid ∅ [] None true true]>
                 (heap st))
              (connections st) (emitted st))
  end.

Definition setName (this : ptr) (name : string) (st : State) : Result State :=
  let* _ := deref this st in Done (modify this (set_name name) st).

Definition getTitle (o : QtProperty) : string :=
  if decide (title_ o = "") then name_ o else title_ o.

Definition setTitle (this : ptr) (title : string) (st : State)
  : Result State :=
  let* _ := deref this st in Done (modify this (set_title title) st).

Definition setAttribute (this : ptr) (name : string) (value : QVariant)
  (st : State) : Result State :=
  let* o := deref this st in
  Done (modify this (set_attributes (<[name := value]> (attributes_ o))) st).

Definition getAttribute (o : QtProperty) (name : string) : QVariant :=
  match attributes_ o !! name with
  | Some v => v
  | None => Invalid
  end.

(** [QList::indexOf]: the first position holding [x], or -1. *)
Definition indexOf (l : list ptr) (x : ptr) : Z :=
  match list_find (fun y => y = x) l with
  | Some (i, _) => Z.of_nat i
  | None => -1
  end.

Definition indexChild (o : QtProperty) (child : ptr) : Z :=
  indexOf (children_ o) child.

(** The slots connected to [sender]'s [signalValueChange], in connection
    order. *)
Definition receivers (sender : ptr) (st : State) : list ptr :=
  (filter (fun c => c.1 = sender) (connections st)).*2.

(** [QtProperty::setValue].  [emit sender property] stands for
    [emit signalValueChange(property)] executed by [sender]. *)
Definition QtProperty_setValue (emit : ptr -> ptr -> State -> Result State)
  (this : ptr) (value : QVariant) (st : State) : Result State :=
  let* o := deref this st in
  if decide (value_ o <> value) then
    emit this this (modify this (set_value value) st)
  else Done st.

(** [QtProperty::findChild]: the first direct child with the name. *)
Fixpoint QtProperty_findChild_loop (st : State) (name : string)
  (children : list ptr) : Result (option ptr) :=
  match children with
  | [] => Done None
  | child :: rest =>
      let* c := deref child st in
      if decide (name_ c = name) then Done (Some child)
      else QtProperty_findChild_loop st name rest
  end.

Definition QtProperty_findChild (this : ptr) (name : string) (st : State)
  : Result (option ptr) :=
  let* o := deref this st in
  QtProperty_findChild_loop st name (children_ o).

(** [QtProperty::setChildValue]; [findChild] and [setValue] are the virtual
    methods. *)
Definition QtProperty_setChildValue
  (findChild : ptr -> string -> State -> Result (option ptr))
  (setValue : ptr -> QVariant -> State -> Result State)
  (this : ptr) (name : string) (value : QVariant) (st : State)
  : Result State :=
  let* child := findChild this name st in
  match child with
  | Some c => setValue c value st
  | None => Done st
  end.

(** ** [QtContainerProperty]: subscription to the children *)

(** [onChildAdd] as dispatched for dynamic class [k]: a no-op in the base
    class, [connect] in every container. *)
Definition onChildAdd (k : Class) (this child : ptr) (st : State) : State :=
  if isContainer k then
    mkState (heap st) (connections st ++ [(child, this)]) (emitted st)
  else st.

(** [onChildRemove]: [disconnect] drops every matching connection. *)
Definition onChildRemove (k : Class) (this child : ptr) (st : State)
  : State :=
  if isContainer k then
    mkState (heap st)
      (filter (fun c => c <> (child, this)) (connections st)) (emitted st)
  else st.

(** ** Structure: adding and removing children *)

Definition addChild (this child : ptr) (st : State) : Result State :=
  let* c := deref child st in
  if decide (parent_ c = None) then
    let* o := deref this st in
    let st1 := modify this (fun o => set_children (children_ o ++ [child]) o)
                 st in
    let st2 := modify child (set_parent (Some this)) st1 in
    let st3 := onChildAdd (cls o) this child st2 in
    Done (record this (signalPropertyInserted child this) st3)
  else AssertFailed.

(** [removeChild], with [k] the class whose [onChildRemove] the virtual call
    reaches: the object's own class, except inside [~QtProperty]. *)
Definition removeChild_as (k : Class) (this child : ptr) (st : State)
  : Result State :=
  let* c := deref child st in
  if decide (parent_ c = Some this) then
    let* o := deref this st in
    match list_find (fun y => y = child) (children_ o) with
    | Some (i, _) =>
        let st1 := modify child (set_parent None) st in
        let st2 := modify this
                     (fun o => set_children (delete i (children_ o)) o) st1 in
        let st3 := onChildRemove k this child st2 in
        Done (record this (signalPropertyRemoved child (Some this)) st3)
    | None => Done st
    end
  else AssertFailed.

Definition removeChild (this child : ptr) (st : State) : Result State :=
  let* o := deref this st in removeChild_as (cls o) this child st.

Definition removeFromParent (this : ptr) (st : State) : Result State :=
  let* o := deref this st in
  match parent_ o with
  | Some p => removeChild p this st
  | None => Done st
  end.

Definition removeAllChildren_as (k : Class) (this : ptr) (st : State)
  : Result State :=
  let* o := deref this st in
  let temp := children_ o in
  foreach temp (fun child => removeChild_as k this child) st.

Definition removeAllChildren (this : ptr) (st : State) : Result State :=
  let* o := deref this st in removeAllChildren_as (cls o) this st.

(** What [~QObject] does once [~QtProperty] has run: every connection from or
    to the object goes, and the object leaves the store. *)
Definition deallocate (this : ptr) (st : State) : State :=
  mkState (delete this (heap st))
    (filter (fun c => c.1 <> this /\ c.2 <> this) (connections st))
    (emitted st).

(** [~QtProperty].  Virtual calls made while the base destructor runs reach
    the base class, so the children are detached with the base
    [onChildRemove]. *)
Definition QtProperty_destroy (this : ptr) (st : State) : Result State :=
  let* o := deref this st in
  let st1 := record this (signalPropertyRemoved this (parent_ o)) st in
  let* st2 := removeAllChildren_as CQtProperty this st1 in
  let* st3 := removeFromParent this st2 in
  Done (deallocate this st3).

(** ** The structural operations as a listener sees them *)

(** The same bodies with the [emit] statements of [signalPropertyInserted]
    and [signalPropertyRemoved] left open: [emit sender signal st] stands for
    what the statement does in the store [st] it is reached in.  With [log]
    for it the definitions above come back. *)
Definition log (sender : ptr) (s : Signal) (st : State) : Result State :=
  Done (record sender s st).

Definition addChild_with (emit : ptr -> Signal -> State -> Result State)
  (this child : ptr) (st : State) : Result State :=
  let* c := deref child st in
  if decide (parent_ c = None) then
    let* o := deref this st in
    let st1 := modify this (fun o => set_children (children_ o ++ [child]) o)
                 st in
    let st2 := modify child (set_parent (Some this)) st1 in
    let st3 := onChildAdd (cls o) this child st2 in
    emit this (signalPropertyInserted child this) st3
  else AssertFailed.

Definition removeChild_as_with (emit : ptr -> Signal -> State -> Result State)
  (k : Class) (this child : ptr) (st : State) : Result State :=
  let* c := deref child st in
  if decide (parent_ c = Some this) then
    let* o := deref this st in
    match list_find (fun y => y = child) (children_ o) with
    | Some (i, _) =>
        let st1 := modify child (set_parent None) st in
        let st2 := modify this
                     (fun o => set_children (delete i (children_ o)) o) st1 in
        let st3 := onChildRemove k this child st2 in
        emit this (signalPropertyRemoved child (Some this)) st3
    | None => Done st
    end
  else AssertFailed.

Definition removeChild_with (emit : ptr -> Signal -> State -> Result State)
  (this child : ptr) (st : State) : Result State :=
  let* o := deref this st in removeChild_as_with emit (cls o) this child st.

Definition removeFromParent_with
  (emit : ptr -> Signal -> State -> Result State)
  (this : ptr) (st : State) : Result State :=
  let* o := deref this st in
  match parent_ o with
  | Some p => removeChild_with emit p this st
  | None => Done st
  end.

Definition removeAllChildren_as_with
  (emit : ptr -> Signal -> State -> Result State)
  (k : Class) (this : ptr) (st : State) : Result State :=
  let* o := deref this st in
  let temp := children_ o in
  foreach temp (fun child => removeChild_as_with emit k this child) st.

Definition removeAllChildren_with
  (emit : ptr -> Signal -> State -> Result State)
  (this : ptr) (st : State) : Result State :=
  let* o := deref this st in removeAllChildren_as_with emit (cls o) this st.

Definition QtProperty_destroy_with
  (emit : ptr -> Signal -> State -> Result State)
  (this : ptr) (st : State) : Result State :=
  let* o := deref this st in
  let* st1 := emit this (signalPropertyRemoved this (parent_ o)) st in
  let* st2 := removeAllChildren_as_with emit CQtProperty this st1 in
  let* st3 := removeFromParent_with emit this st2 in
  Done (deallocate this st3).

(** A listener that looks at the store it is called in: it lets the run go on
    where [ok] holds and stops it where it does not. *)
Definition emit_if (ok : State -> bool) (sender : ptr) (s : Signal)
  (st : State) : Result State :=
  if ok st then log sender s st else AssertFailed.

(** ** [QtListProperty] *)

(** [ensureSize]: one default-constructed value pushed per round of the
    [while] loop, which runs [size - list.size()] times. *)
Fixpoint ensureSize_loop (rounds : nat) (list : QVariantList) : QVariantList :=
  match rounds with
  | O => list
  | S n => ensureSize_loop n (list ++ [Invalid])
  end.

Definition ensureSize (list : QVariantList) (size : Z) : QVariantList :=
  ensureSize_loop (Z.to_nat (size - Z.of_nat (length list))) list.

(** [QtListProperty::setValue].  The [for] loop runs over the positions of
    [children_], whose size is read at loop entry as no slot of this file
    alters it, and fetches [children_[i]] anew in each round. *)
Definition QtListProperty_setValue
  (setValue : ptr -> QVariant -> State -> Result State)
  (emit : ptr -> ptr -> State -> Result State)
  (this : ptr) (value : QVariant) (st : State) : Result State :=
  let* o := deref this st in
  if decide (value_ o = value) then Done st
  else
    let st1 := modify this (set_value value) st in
    let valueList := ensureSize (toList value) (Z.of_nat (length (children_ o))) in
    let* st2 :=
      foreach (seq 0 (length (children_ o)))
        (fun i st =>
           let* o := deref this st in
           match children_ o !! i, valueList !! i with
           | Some child, Some v => setValue child v st
           | _, _ => Fault
           end) st1 in
    emit this this st2.

(** [QtListProperty::getValueString]; [getValueString] is the virtual method
    of the children. *)
Fixpoint QtListProperty_getValueString_loop
  (getValueString : ptr -> State -> Result string) (st : State)
  (children : list ptr) (text : string) : Result string :=
  match children with
  | [] => Done text
  | child :: rest =>
      let* s := getValueString child st in
      QtListProperty_getValueString_loop getValueString st rest
        ((text +:+ s) +:+ ", ")
  end.

Definition QtListProperty_getValueString
  (getValueString : ptr -> State -> Result string) (this : ptr) (st : State)
  : Result string :=
  let* o := deref this st in
  let* text :=
    QtListProperty_getValueString_loop getValueString st (children_ o)
      ("" +:+ "(") in
  Done (text +:+ ")").

(** [QtListProperty::slotChildValueChange]. *)
Definition QtListProperty_slotChildValueChange
  (emit : ptr -> ptr -> State -> Result State)
  (this child : ptr) (st : State) : Result State :=
  let* o := deref this st in
  let i := indexChild o child in
  if decide (0 <= i) then
    let valueList := ensureSize (toList (value_ o)) (i + 1) in
    let* c := deref child st in
    match valueList !! Z.to_nat i with
    | Some old =>
        if decide (old <> value_ c) then
          let valueList := <[Z.to_nat i := value_ c]> valueList in
          emit this this (modify this (set_value (VList valueList)) st)
        else Done st
    | None => Fault
    end
  else Done st.

(** ** [QtDictProperty] *)

Definition QtDictProperty_setValue
  (setValue : ptr -> QVariant -> State -> Result State)
  (emit : ptr -> ptr -> State -> Result State)
  (this : ptr) (value : QVariant) (st : State) : Result State :=
  let* o := deref this st in
  if decide (value_ o = value) then Done st
  else
    let st1 := modify this (set_value value) st in
    let valueMap := toMap value in
    let* st2 :=
      foreach (children_ o)
        (fun child st =>
           let* c := deref child st in
           setValue child (QMap_value valueMap (name_ c)) st) st1 in
    emit this this st2.

Definition QtDictProperty_slotChildValueChange
  (emit : ptr -> ptr -> State -> Result State)
  (this property : ptr) (st : State) : Result State :=
  let* o := deref this st in
  let valueMap := toMap (value_ o) in
  let* c := deref property st in
  let oldValue := QMap_value valueMap (name_ c) in
  if decide (value_ c <> oldValue) then
    let valueMap := <[name_ c := value_ c]> valueMap in
    emit this this (modify this (set_value (fromMap valueMap)) st)
  else Done st.

(** ** [QtGroupProperty] and the virtual methods *)

Definition QtGroupProperty_setValue (this : ptr) (value : QVariant)
  (st : State) : Result State :=
  Done st.

Definition QtGroupProperty_slotChildValueChange
  (emit : ptr -> ptr -> State -> Result State)
  (this property : ptr) (st : State) : Result State :=
  emit this property st.

(** The virtual [slotChildValueChange].  It is declared by
    [QtContainerProperty]: a plain [QtProperty] has no such slot, so no
    connection can reach one. *)
Definition slotChildValueChange (emit : ptr -> ptr -> State -> Result State)
  (this property : ptr) (st : State) : Result State :=
  let* o := deref this st in
  match cls o with
  | CQtProperty => Done st
  | CQtListProperty => QtListProperty_slotChildValueChange emit this property st
  | CQtDictProperty => QtDictProperty_slotChildValueChange emit this property st
  | CQtGroupProperty =>
      QtGroupProperty_slotChildValueChange emit this property st
  end.

(** [emit signalValueChange(property)] by [sender]: the emission is logged and
    every connected slot runs before the [emit] statement returns.  Slots emit
    in turn, so the recursion is bounded by [fuel]. *)
Fixpoint emitValueChange (fuel : nat) (sender property : ptr) (st : State)
  : Result State :=
  match fuel with
  | O => OutOfFuel
  | S f =>
      let st1 := record sender (signalValueChange property) st in
      foreach (receivers sender st1)
        (fun r => slotChildValueChange (emitValueChange f) r property) st1
  end.

(** The virtual [setValue]. *)
Fixpoint setValue (fuel : nat) (this : ptr) (value : QVariant) (st : State)
  : Result State :=
  match fuel with
  | O => OutOfFuel
  | S f =>
      let* o := deref this st in
      match cls o with
      | CQtProperty => QtProperty_setValue (emitValueChange f) this value st
      | CQtListProperty =>
          QtListProperty_setValue (setValue f) (emitValueChange f) this value
            st
      | CQtDictProperty =>
          QtDictProperty_setValue (setValue f) (emitValueChange f) this value
            st
      | CQtGroupProperty => QtGroupProperty_setValue this value st
      end
  end.

(** The virtual [getValueString]; only the list overrides it. *)
Fixpoint getValueString (fuel : nat) (this : ptr) (st : State)
  : Result string :=
  match fuel with
  | O => OutOfFuel
  | S f =>
      let* o := deref this st in
      match cls o with
      | CQtListProperty =>
          QtListProperty_getValueString (getValueString f) this st
      | _ => Done (toString (value_ o))
      end
  end.

Section Group.

(** The type tag of group nodes.  Its value is fixed by a header that is not
    part of the sources at hand, so it stays a parameter. *)
Variable TYPE_GROUP : Z.

(** [QtGroupProperty::findChild].  [result] is the local of that name; a
    non-null [result] leaves the loop. *)
Fixpoint QtGroupProperty_findChild_loop
  (findChild : ptr -> string -> State -> Result (option ptr))
  (st : State) (name : string) (children : list ptr)
  : Result (option ptr) :=
  match children with
  | [] => Done None
  | child :: rest =>
      let* c := deref child st in
      let* result :=
        (if decide (name = name_ c) then Done (Some child)
         else if decide (type_ c = TYPE_GROUP) then findChild child name st
         else Done None) in
      match result with
      | Some _ => Done result
      | None => QtGroupProperty_findChild_loop findChild st name rest
      end
  end.

Definition QtGroupProperty_findChild
  (findChild : ptr -> string -> State -> Result (option ptr))
  (this : ptr) (name : string) (st : State) : Result (option ptr) :=
  let* o := deref this st in
  QtGroupProperty_findChild_loop findChild st name (children_ o).

(** The virtual [findChild]. *)
Fixpoint findChild (fuel : nat) (this : ptr) (name : string) (st : State)
  : Result (option ptr) :=
  match fuel with
  | O => OutOfFuel
  | S f =>
      let* o := deref this st in
      match cls o with
      | CQtGroupProperty => QtGroupProperty_findChild (findChild f) this name st
      | _ => QtProperty_findChild this name st
      end
  end.

(** [QtGroupProperty::setChildValue]. *)
Definition QtGroupProperty_setChildValue
  (setChildValue : ptr -> string -> QVariant -> State -> Result State)
  (setValue : ptr -> QVariant -> State -> Result State)
  (this : ptr) (name : string) (value : QVariant) (st : State)
  : Result State :=
  let* o := deref this st in
  foreach (children_ o)
    (fun child st =>
       let* c := deref child st in
       if decide (type_ c = TYPE_GROUP) then setChildValue child name value st
       else if decide (name = name_ c) then setValue child value st
       else Done st) st.

(** The virtual [setChildValue]. *)
Fixpoint setChildValue (fuel : nat) (this : ptr) (name : string)
  (value : QVariant) (st : State) : Result State :=
  match fuel with
  | O => OutOfFuel
  | S f =>
      let* o := deref this st in
      match cls o with
      | CQtGroupProperty =>
          QtGroupProperty_setChildValue (setChildValue f) (setValue f) this
            name value st
      | _ =>
          QtProperty_setChildValue (findChild f) (setValue f) this name value
            st
      end
  end.

End Group.

(** ** Well-formed stores *)

(** [child_of st c p]: the live object [c] names [p] as its parent. *)
Definition child_of (st : State) (c p : ptr) : Prop :=
  exists oc, heap st !! c = Some oc /\ parent_ oc = Some p.

(** Parent back-references and child sequences agree: every member of a
    child sequence is a live object whose [parent_] points back, every
    [parent_] points at a live object that lists the child, and no child is
    listed twice. *)
Record linked (st : State) : Prop := mkLinked {
  linked_down : forall p o c,
    heap st !! p = Some o -> c ∈ children_ o -> child_of st c p;
  linked_up : forall c oc p,
    heap st !! c = Some oc -> parent_ oc = Some p ->
    exists o, heap st !! p = Some o /\ c ∈ children_ o;
  linked_nodup : forall p o, heap st !! p = Some o -> NoDup (children_ o)
}.

Definition linkedb (st : State) : bool :=
  forallb
    (fun '(p, o) =>
       bool_decide (NoDup (children_ o))
       && forallb
            (fun c =>
               match heap st !! c with
               | Some oc => bool_decide (parent_ oc = Some p)
               | None => false
               end) (children_ o)
       && match parent_ o with
          | Some q =>
              match heap st !! q with
              | Some oq => bool_decide (p ∈ children_ oq)
              | None => false
              end
          | None => true
          end)
    (map_to_list (heap st)).

(** Every connection runs from a child to its parent. *)
Definition connected_up (st : State) : Prop :=
  forall s r, (s, r) ∈ connections st -> child_of st s r.

Definition connected_upb (st : State) : bool :=
  forallb
    (fun '(s, r) =>
       match heap st !! s with
       | Some os => bool_decide (parent_ os = Some r)
       | None => false
       end) (connections st).

(** The store is a forest: [lvl] strictly grows from parent to child and
    stays below [N]. *)
Definition ranked (lvl : ptr -> nat) (N : nat) (st : State) : Prop :=
  forall q o, heap st !! q = Some o ->
    (lvl q <= N)%nat /\
    forall p, parent_ o = Some p -> (lvl p < lvl q)%nat.

Definition rankedb (lvl : ptr -> nat) (N : nat) (st : State) : bool :=
  forallb
    (fun '(q, o) =>
       bool_decide (lvl q <= N)%nat
       && match parent_ o with
          | Some p => bool_decide (lvl p < lvl q)%nat
          | None => true
          end)
    (map_to_list (heap st)).

(** The text a list renders between its parentheses. *)
Fixpoint joined (ss : list string) : string :=
  match ss with
  | [] => ""
  | s :: rest => s +:+ ", " +:+ joined rest
  end.

(** ** Vocabulary of the statements *)

(** The store after [child] was unlinked from position [i] of [this]. *)
Definition unlinked (k : Class) (this child : ptr) (i : nat) (st : State)
  : State :=
  record this (signalPropertyRemoved child (Some this))
    (onChildRemove k this child
       (modify this (fun o => set_children (delete i (children_ o)) o)
          (modify child (set_parent None) st))).

Arguments unlinked : simpl never.

(** The store after [child] was appended to the children of [this]. *)
Definition inserted (k : Class) (this child : ptr) (st : State) : State :=
  record this (signalPropertyInserted child this)
    (onChildAdd k this child
       (modify child (set_parent (Some this))
          (modify this (fun o => set_children (children_ o ++ [child]) o)
             st))).

Arguments inserted : simpl never.

(** A removal notification whose subject is [q]. *)
Definition removal_of (q : ptr) (e : Emission) : Prop :=
  match e.2 with
  | signalPropertyRemoved q' _ => q' = q
  | _ => False
  end.

#[global] Instance removal_of_dec q e : Decision (removal_of q e).
Proof. unfold removal_of. destruct (e.2); apply _. Defined.

(** A removal notification that reports no parent. *)
Definition removal_from_null (e : Emission) : Prop :=
  match e.2 with
  | signalPropertyRemoved _ None => True
  | _ => False
  end.

#[global] Instance removal_from_null_dec e : Decision (removal_from_null e).
Proof.
  unfold removal_from_null. destruct (e.2) as [| |? []]; apply _.
Defined.

(** The operations that change the shape of the tree. *)
Inductive StructOp : Type :=
  | OpAddChild (this child : ptr)
  | OpRemoveChild (this child : ptr)
  | OpRemoveFromParent (this : ptr)
  | OpRemoveAllChildren (this : ptr)
  | OpDestroy (this : ptr).

Definition runStructOp (op : StructOp) (st : State) : Result State :=
  match op with
  | OpAddChild this child => addChild this child st
  | OpRemoveChild this child => removeChild this child st
  | OpRemoveFromParent this => removeFromParent this st
  | OpRemoveAllChildren this => removeAllChildren this st
  | OpDestroy this => QtProperty_destroy this st
  end.

Definition runStructOp_with (emit : ptr -> Signal -> State -> Result State)
  (op : StructOp) (st : State) : Result State :=
  match op with
  | OpAddChild this child => addChild_with emit this child st
  | OpRemoveChild this child => removeChild_with emit this child st
  | OpRemoveFromParent this => removeFromParent_with emit this st
  | OpRemoveAllChildren this => removeAllChildren_with emit this st
  | OpDestroy this => QtProperty_destroy_with emit this st
  end.

(** [path_via P st g q]: [q] is reached from [g] by walking down child
    sequences, every node strictly between the two satisfying [P]. *)
Inductive path_via (P : QtProperty -> Prop) (st : State)
  : ptr -> ptr -> Prop :=
  | path_child g o q :
      heap st !! g = Some o -> q ∈ children_ o -> path_via P st g q
  | path_step g o c oc q :
      heap st !! g = Some o -> c ∈ children_ o ->
      heap st !! c = Some oc -> P oc ->
      path_via P st c q -> path_via P st g q.

(** A group node: a [QtGroupProperty] carrying the group type tag. *)
Definition is_group (TYPE_GROUP : Z) (o : QtProperty) : Prop :=
  cls o = CQtGroupProperty /\ type_ o = TYPE_GROUP.

Definition tagged_group (TYPE_GROUP : Z) (o : QtProperty) : Prop :=
  type_ o = TYPE_GROUP.

(** What one round of the group's loop yields for [child]. *)
Definition group_round (TYPE_GROUP : Z)
  (virt : ptr -> string -> State -> Result (option ptr))
  (st : State) (name : string) (child : ptr) : Result (option ptr) :=
  let* c := deref child st in
  if decide (name = name_ c) then Done (Some child)
  else if decide (type_ c = TYPE_GROUP) then virt child name st
  else Done None.

(** An object with its value blanked: everything a value update keeps. *)
Definition skeleton (o : QtProperty) : QtProperty := set_value Invalid o.

(** [same_shape st st']: the two stores hold the same objects, linked and
    connected the same way; only values and the log may differ. *)
Definition same_shape (st st' : State) : Prop :=
  connections st' = connections st /\
  forall q, skeleton <$> heap st' !! q = skeleton <$> heap st !! q.

(** [above st c a]: [a] is a strict ancestor of [c]. *)
Inductive above (st : State) : ptr -> ptr -> Prop :=
  | above_parent c p : child_of st c p -> above st c p
  | above_step c p a : child_of st c p -> above st p a -> above st c a.

(** [below st c q]: [q] lies in the subtree rooted at [c]. *)
Definition below (st : State) (c q : ptr) : Prop := q = c \/ above st q c.

(** [touches S st st']: the run from [st] to [st'] kept the shape, changed
    values only of objects in [S], and logged emissions only by senders in
    [S]. *)
Definition touches (S : ptr -> Prop) (st st' : State) : Prop :=
  same_shape st st' /\
  (forall q, ~ S q -> heap st' !! q = heap st !! q) /\
  exists new, emitted st' = emitted st ++ new /\ Forall (fun e => S e.1) new.

(** The invariant the value operations run under. *)
Record forest (lvl : ptr -> nat) (N : nat) (st : State) : Prop := mkForest {
  forest_linked : linked st;
  forest_connected : connected_up st;
  forest_ranked : ranked lvl N st
}.

(** What an emission by [s] carrying [a] does: it is logged first, and all
    that follows happens strictly above [s]. *)
Definition emits_up (s a : ptr) (st st' : State) : Prop :=
  same_shape st st' /\
  (forall q, ~ above st s q -> heap st' !! q = heap st !! q) /\
  exists new,
    emitted st' = emitted st ++ (s, signalValueChange a) :: new /\
    Forall (fun e => above st s e.1) new.

(** The emissions of a run that [p] itself made. *)
Definition sent_by (p : ptr) (new : list (ptr * Signal)) : list (ptr * Signal) :=
  filter (fun e => e.1 = p) new.

(** [settled st r c x]: the slot of [r] has nothing to do when [c] reports the
    value [x], because [r] already stores [x] for [c]. *)
Definition settled (st : State) (r c : ptr) (x : QVariant) : Prop :=
  match heap st !! r with
  | Some o =>
      match cls o with
      | CQtProperty => True
      | CQtListProperty =>
          forall i : nat, children_ o !! i = Some c ->
            default Invalid (toList (value_ o) !! i) = x
      | CQtDictProperty =>
          forall oc, heap st !! c = Some oc ->
            QMap_value (toMap (value_ o)) (name_ oc) = x
      | CQtGroupProperty => False
      end
  | None => False
  end.

(** What a call [c->setValue(x)] leaves behind, seen from the store [st] it
    started in. *)
Record pushed_down (st : State) (c : ptr) (x : QVariant) (st' : State)
  : Prop := mkPushed {
  pushed_touches :
    touches (fun q => below st c q \/ above st c q) st st';
  pushed_quiet :
    (forall r, r ∈ receivers c st -> settled st r c x) ->
    touches (below st c) st st';
  pushed_value : forall o,
    heap st !! c = Some o -> cls o <> CQtGroupProperty ->
    heap st' !! c = Some (set_value x o);
  pushed_sent : forall o,
    heap st !! c = Some o ->
    exists new, emitted st' = emitted st ++ new /\
      sent_by c new =
        if decide (cls o = CQtGroupProperty \/ value_ o = x) then []
        else [(c, signalValueChange c)]
}.

(** The name under which the store [st] knows the object [p]. *)
Definition name_of (st : State) (p : ptr) : string :=
  match heap st !! p with Some o => name_ o | None => "" end.

(** ** Subscriptions *)

(** [subscribed st s r]: [s] is a child of the live container [r]. *)
Definition subscribed (st : State) (s r : ptr) : Prop :=
  exists os or, heap st !! s = Some os /\ parent_ os = Some r /\
    heap st !! r = Some or /\ isContainer (cls or) = true.

(** Every container listens to each of its children through exactly one
    connection, and nothing else is connected. *)
Record wired (st : State) : Prop := mkWired {
  wired_nodup : NoDup (connections st);
  wired_iff : forall s r, (s, r) ∈ connections st <-> subscribed st s r
}.

Definition wiredb (st : State) : bool :=
  bool_decide (NoDup (connections st))
  && forallb
       (fun '(s, r) =>
          match heap st !! s, heap st !! r with
          | Some os, Some or =>
              bool_decide (parent_ os = Some r) && isContainer (cls or)
          | _, _ => false
          end) (connections st)
  && forallb
       (fun '(s, os) =>
          match parent_ os with
          | Some r =>
              match heap st !! r with
              | Some or =>
                  negb (isContainer (cls or))
                  || bool_decide ((s, r) ∈ connections st)
              | None => true
              end
          | None => true
          end) (map_to_list (heap st)).

(** The calls a client can make on a property. *)
Inductive Call : Type :=
  | CallNew (k : Class) (type : Z) (this : ptr)
  | CallSetName (this : ptr) (name : string)
  | CallSetTitle (this : ptr) (title : string)
  | CallSetAttribute (this : ptr) (name : string) (value : QVariant)
  | CallSetValue (fuel : nat) (this : ptr) (value : QVariant)
  | CallSetChildValue (fuel : nat) (this : ptr) (name : string)
      (value : QVariant)
  | CallStruct (op : StructOp).

Definition runCall (TYPE_GROUP : Z) (c : Call) (st : State) : Result State :=
  match c with
  | CallNew k type this => QtProperty_new k type this st
  | CallSetName this name => setName this name st
  | CallSetTitle this title => setTitle this title st
  | CallSetAttribute this name value => setAttribute this name value st
  | CallSetValue fuel this value => setValue fuel this value st
  | CallSetChildValue fuel this name value =>
      setChildValue TYPE_GROUP fuel this name value st
  | CallStruct op => runStructOp op st
  end.

(** [value_only st st']: what a run of the value operations can do at most.
    The shape stays, no group object changes, and nothing but value changes
    is notified. *)
Definition value_only (st st' : State) : Prop :=
  same_shape st st' /\
  (forall q o, heap st !! q = Some o -> cls o = CQtGroupProperty ->
     heap st' !! q = Some o) /\
  exists new, emitted st' = emitted st ++ new /\
    Forall (fun e => exists a, e.2 = signalValueChange a) new.

(** [group_line st c g]: [g] is a group above [c], and so is every node
    between the two. *)
Inductive group_line (st : State) : ptr -> ptr -> Prop :=
  | group_parent c g og :
      child_of st c g -> heap st !! g = Some og ->
      cls og = CQtGroupProperty -> group_line st c g
  | group_step c p op g :
      child_of st c p -> heap st !! p = Some op ->
      cls op = CQtGroupProperty -> group_line st p g -> group_line st c g.

(** ** A sample tree *)

Definition emptyState : State := mkState ∅ [] [].

Definition run_all (ops : list (State -> Result State)) (st : State)
  : Result State :=
  foldl (fun r op => bind r op) (Done st) ops.

(** A group [root] holding a list [pos] with leaves [x] and [y], a dict
    [size] with leaves [a] and [b], and a group [inner] with a leaf [x];
    the group tag is taken to be 3 here. *)
Definition sample : State :=
  match
    run_all
      [QtProperty_new CQtGroupProperty 3 1; setName 1 "root";
       QtProperty_new CQtListProperty 1 2; setName 2 "pos";
       QtProperty_new CQtProperty 0 3; setName 3 "x";
       QtProperty_new CQtProperty 0 4; setName 4 "y";
       QtProperty_new CQtDictProperty 2 5; setName 5 "size";
       QtProperty_new CQtProperty 0 6; setName 6 "a";
       QtProperty_new CQtProperty 0 7; setName 7 "b";
       QtProperty_new CQtGroupProperty 3 8; setName 8 "inner";
       QtProperty_new CQtProperty 0 9; setName 9 "x";
       addChild 2 3; addChild 2 4; addChild 5 6; addChild 5 7; addChild 8 9;
       addChild 1 2; addChild 1 5; addChild 1 8;
       setValue 9 3 (VInt 1); setValue 9 4 (VInt 2)]
      emptyState
  with
  | Done st => st
  | _ => emptyState
  end.

Definition sampleLevel (p : ptr) : nat :=
  match p with
  | 1 => 0
  | 2 | 5 | 8 => 1
  | _ => 2
  end%nat.

(** The object the sample holds at [p]. *)
Definition sampleAt (p : ptr) : QtProperty :=
  default (mkQtProperty CQtProperty 0 "" "" Invalid ∅ [] None true true)
    (heap sample !! p).

Definition forestb (lvl : ptr -> nat) (N : nat) (st : State) : bool :=
  linkedb st && connected_upb st && rankedb lvl N st.

(** The sample after leaf 3 took the value 8, before its list heard of it. *)
Definition sampleChanged : State := modify 3 (set_value (VInt 8)) sample.

(** The emissions a call added to the log of [st]. *)
Definition emitted_during (st : State) (r : Result State)
  : list (ptr * Signal) :=
  match r with
  | Done st' => drop (length (emitted st)) (emitted st')
  | _ => []
  end.

(** The value an object holds once a call has returned. *)
Definition value_after (r : Result State) (p : ptr) : option QVariant :=
  match r with
  | Done st' => value_ <$> heap st' !! p
  | _ => None
  end.

(** The store a call left behind, or the one it started from if it did not
    return. *)
Definition outcome (st : State) (r : Result State) : State :=
  match r with
  | Done st' => st'
  | _ => st
  end.

(** * Basic facts *)

Lemma bind_Done {A B : Type} (r : Result A) (k : A -> Result B) (b : B) :
  bind r k = Done b <-> exists a, r = Done a /\ k a = Done b.
Proof.
  destruct r; simpl; split; try (intros (a' & Ha & Hk)); try discriminate;
    eauto.
  by injection Ha as <-.
Qed.

Lemma deref_Done (p : ptr) (st : State) (o : QtProperty) :
  deref p st = Done o <-> heap st !! p = Some o.
Proof. unfold deref. destruct (heap st !! p); split; congruence. Qed.

Lemma deref_live (p : ptr) (st : State) (o : QtProperty) :
  heap st !! p = Some o -> deref p st = Done o.
Proof. apply deref_Done. Qed.

Lemma string_app_assoc (a b c : string) : (a +:+ b) +:+ c = a +:+ (b +:+ c).
Proof.
  induction a as [|x a IH]; [done|].
  change (String x ((a +:+ b) +:+ c) = String x (a +:+ (b +:+ c))).
  by rewrite IH.
Qed.

Lemma string_app_nil_r (a : string) : a +:+ "" = a.
Proof.
  induction a as [|x a IH]; [done|].
  change (String x (a +:+ "") = String x a). by rewrite IH.
Qed.

Lemma linkedb_sound (st : State) : linkedb st = true -> linked st.
Proof.
  unfold linkedb. rewrite forallb_forall. intros H.
  assert (Hall : forall p o, heap st !! p = Some o ->
    NoDup (children_ o) /\
    (forall c, c ∈ children_ o -> child_of st c p) /\
    (forall q, parent_ o = Some q ->
       exists oq, heap st !! q = Some oq /\ p ∈ children_ oq)).
  { intros p o Hp.
    assert (Hin : In (p, o) (map_to_list (heap st)))
      by (by apply list_elem_of_In, elem_of_map_to_list).
    apply H in Hin. simpl in Hin.
    apply andb_prop in Hin as [Hin Hu]. apply andb_prop in Hin as [Hn Hc].
    split_and!.
    - by apply bool_decide_eq_true in Hn.
    - intros c Hin. rewrite forallb_forall in Hc.
      apply list_elem_of_In, Hc in Hin. unfold child_of.
      destruct (heap st !! c) as [oc|]; [|done].
      apply bool_decide_eq_true in Hin. eauto.
    - intros q Hq. rewrite Hq in Hu.
      destruct (heap st !! q) as [oq|]; [|done].
      apply bool_decide_eq_true in Hu. eauto. }
  split.
  - intros p o c Hp Hc. by apply (Hall p o Hp).
  - intros c oc p Hc Hp. by apply (Hall c oc Hc).
  - intros p o Hp. by apply (Hall p o Hp).
Qed.

Lemma connected_upb_sound (st : State) :
  connected_upb st = true -> connected_up st.
Proof.
  unfold connected_upb. rewrite forallb_forall. intros H s r Hin.
  apply list_elem_of_In, H in Hin. unfold child_of.
  destruct (heap st !! s) as [os|]; [|done].
  apply bool_decide_eq_true in Hin. eauto.
Qed.

Lemma rankedb_sound lvl N (st : State) :
  rankedb lvl N st = true -> ranked lvl N st.
Proof.
  unfold rankedb. rewrite forallb_forall. intros H q o Hq.
  assert (Hin : In (q, o) (map_to_list (heap st)))
    by (by apply list_elem_of_In, elem_of_map_to_list).
  apply H in Hin. simpl in Hin. apply andb_prop in Hin as [Hn Hp].
  split; [by apply bool_decide_eq_true in Hn|].
  intros p Hpar. rewrite Hpar in Hp. by apply bool_decide_eq_true in Hp.
Qed.

Lemma Forall2_pick {A B : Type} (P : A -> B -> Prop) (l : list A) :
  (forall x, x ∈ l -> exists y, P x y) -> exists k, Forall2 P l k.
Proof.
  induction l as [|x l IH]; intros H; [by exists []|].
  destruct (H x) as [y Hy]; [left|].
  destruct IH as [k Hk]; [intros; apply H; by right|].
  exists (y :: k). by constructor.
Qed.

(** * Rendering a list: [getValueString] *)

Lemma QtListProperty_getValueString_loop_spec virt st children ss text :
  Forall2 (fun c s => virt c st = Done s) children ss ->
  QtListProperty_getValueString_loop virt st children text =
  Done (text +:+ joined ss).
Proof.
  intros H. revert text.
  induction H as [|c s children ss Hc _ IH]; intros text; simpl.
  - by rewrite string_app_nil_r.
  - rewrite Hc. simpl. rewrite IH. by rewrite !string_app_assoc.
Qed.

Lemma getValueString_total lvl N st :
  linked st -> ranked lvl N st ->
  forall fuel p o, heap st !! p = Some o -> (N - lvl p < fuel)%nat ->
    exists s, getValueString fuel p st = Done s.
Proof.
  intros Hl Hr. induction fuel as [|f IH]; intros p o Hp Hf; [lia|].
  simpl. rewrite (deref_live _ _ _ Hp). simpl.
  destruct (cls o); eauto.
  unfold QtListProperty_getValueString. rewrite (deref_live _ _ _ Hp). simpl.
  assert (Hch : exists ss,
    Forall2 (fun c s => getValueString f c st = Done s) (children_ o) ss).
  { apply Forall2_pick. intros c Hc.
    destruct (linked_down _ Hl _ _ _ Hp Hc) as (oc & Hoc & Hpar).
    apply (IH c oc Hoc). destruct (Hr c oc Hoc) as [? Hlt].
    specialize (Hlt _ Hpar). lia. }
  destruct Hch as [ss Hss].
  rewrite (QtListProperty_getValueString_loop_spec _ _ _ _ _ Hss). simpl. eauto.
Qed.

(** C9: a list renders as an opening parenthesis, each child's rendering
    followed by a comma and a space, and a closing parenthesis; the last
    separator stays.  In a well-formed forest the call returns. *)
Theorem QtListProperty_getValueString_format lvl N st this o :
  linked st -> ranked lvl N st ->
  heap st !! this = Some o -> cls o = CQtListProperty ->
  (forall fuel ss,
     Forall2 (fun c s => getValueString fuel c st = Done s) (children_ o) ss ->
     getValueString (S fuel) this st = Done ("(" +:+ joined ss +:+ ")")) /\
  (exists fuel ss,
     Forall2 (fun c s => getValueString fuel c st = Done s) (children_ o) ss /\
     getValueString (S fuel) this st = Done ("(" +:+ joined ss +:+ ")")) /\
  (forall fuel c1 c2,
     children_ o = [c1; c2] ->
     getValueString fuel c1 st = Done "1" ->
     getValueString fuel c2 st = Done "2" ->
     getValueString (S fuel) this st = Done "(1, 2, )") /\
  (children_ o = [] -> forall fuel, getValueString (S fuel) this st = Done "()").
Proof.
  intros Hl Hr Hp Hk.
  assert (Hfmt : forall fuel ss,
     Forall2 (fun c s => getValueString fuel c st = Done s) (children_ o) ss ->
     getValueString (S fuel) this st = Done ("(" +:+ joined ss +:+ ")")).
  { intros fuel ss Hss. simpl. rewrite (deref_live _ _ _ Hp). simpl.
    rewrite Hk. unfold QtListProperty_getValueString.
    rewrite (deref_live _ _ _ Hp). simpl.
    rewrite (QtListProperty_getValueString_loop_spec _ _ _ _ _ Hss). simpl.
    by rewrite !string_app_assoc. }
  split_and!.
  - exact Hfmt.
  - exists (S N).
    assert (Hch : exists ss,
      Forall2 (fun c s => getValueString (S N) c st = Done s) (children_ o) ss).
    { apply Forall2_pick. intros c Hc.
      destruct (linked_down _ Hl _ _ _ Hp Hc) as (oc & Hoc & Hpar).
      apply (getValueString_total lvl N st Hl Hr _ c oc Hoc). lia. }
    destruct Hch as [ss Hss]. exists ss. split; [done|]. by apply Hfmt.
  - intros fuel c1 c2 Hch H1 H2.
    apply (Hfmt fuel ["1"; "2"]). rewrite Hch. by repeat constructor.
  - intros Hch fuel. apply (Hfmt fuel []). rewrite Hch. constructor.
Qed.

(** * Structure: the invariant of parent and child links *)

Lemma heap_modify p f st q :
  heap (modify p f st) !! q =
  if decide (p = q) then f <$> heap st !! p else heap st !! q.
Proof. apply lookup_alter. Qed.

(** Two successive field updates, read back at any address. *)
Lemma heap_modify2 p f c g st q :
  heap (modify p f (modify c g st)) !! q =
  (fun o => (if decide (p = q) then f else id)
              ((if decide (c = q) then g else id) o)) <$> heap st !! q.
Proof.
  rewrite !heap_modify. repeat case_decide; subst;
    try rewrite heap_modify; repeat case_decide; try done;
    by destruct (heap st !! q).
Qed.

Lemma elem_of_delete_1 (l : list nat) i x : x ∈ delete i l -> x ∈ l.
Proof.
  apply list_elem_of_delete_inv.
Qed.

Lemma elem_of_delete_2 (l : list nat) i x y :
  l !! i = Some y -> x ∈ l -> x <> y -> x ∈ delete i l.
Proof.
  intros Hi Hx Hne. rewrite delete_take_drop.
  rewrite <- (take_drop_middle _ _ _ Hi) in Hx.
  rewrite elem_of_app, elem_of_cons in Hx. rewrite elem_of_app. tauto.
Qed.

Lemma NoDup_delete_notin (l : list nat) i y :
  NoDup l -> l !! i = Some y -> y ∉ delete i l.
Proof.
  intros Hn Hi. rewrite delete_take_drop.
  rewrite <- (take_drop_middle _ _ _ Hi) in Hn.
  apply NoDup_app in Hn as (_ & Hn1 & Hn2). apply NoDup_cons in Hn2 as [? _].
  specialize (Hn1 y). rewrite elem_of_cons in Hn1. rewrite elem_of_app.
  tauto.
Qed.

Lemma NoDup_delete (l : list nat) i : NoDup l -> NoDup (delete i l).
Proof. intros H. eapply sublist_NoDup; [done|apply sublist_delete]. Qed.

Lemma list_find_eq_Some (l : list nat) x :
  x ∈ l -> exists i, list_find (fun y => y = x) l = Some (i, x)
                     /\ l !! i = Some x.
Proof.
  intros Hx. destruct (list_find_elem_of (fun y => y = x) l x Hx eq_refl)
    as [[i y] Hf].
  pose proof Hf as Hf'. apply list_find_Some in Hf' as (Hi & -> & _).
  eauto.
Qed.

(** Case analysis on the tests that remain in the goal. *)
Ltac goal_decide :=
  repeat match goal with
         | |- context [decide ?P] => destruct (decide P); simpl; subst
         end.

Lemma heap_onChildRemove k this child st :
  heap (onChildRemove k this child st) = heap st.
Proof. unfold onChildRemove. by destruct (isContainer k). Qed.

Lemma emitted_onChildRemove k this child st :
  emitted (onChildRemove k this child st) = emitted st.
Proof. unfold onChildRemove. by destruct (isContainer k). Qed.

Lemma heap_onChildAdd k this child st :
  heap (onChildAdd k this child st) = heap st.
Proof. unfold onChildAdd. by destruct (isContainer k). Qed.

Lemma emitted_onChildAdd k this child st :
  emitted (onChildAdd k this child st) = emitted st.
Proof. unfold onChildAdd. by destruct (isContainer k). Qed.

Lemma heap_unlinked k this child i st q :
  heap (unlinked k this child i st) !! q =
  (fun o =>
     (if decide (this = q)
      then fun o => set_children (delete i (children_ o)) o else id)
       ((if decide (child = q) then set_parent None else id) o))
  <$> heap st !! q.
Proof.
  unfold unlinked. simpl. rewrite heap_onChildRemove. apply heap_modify2.
Qed.

Lemma removeChild_as_found k this child st o oc :
  linked st -> heap st !! this = Some o -> heap st !! child = Some oc ->
  parent_ oc = Some this ->
  exists i, children_ o !! i = Some child /\
    removeChild_as k this child st = Done (unlinked k this child i st).
Proof.
  intros Hl Ho Hc Hp.
  destruct (linked_up _ Hl _ _ _ Hc Hp) as (o' & Ho' & Hin).
  assert (o' = o) as -> by congruence.
  destruct (list_find_eq_Some _ _ Hin) as (i & Hf & Hi).
  exists i. split; [done|]. unfold removeChild_as.
  rewrite (deref_live _ _ _ Hc). simpl. rewrite decide_True by done.
  rewrite (deref_live _ _ _ Ho). simpl. by rewrite Hf.
Qed.

Lemma linked_heap st st' : heap st' = heap st -> linked st -> linked st'.
Proof.
  intros E [H1 H2 H3]. unfold child_of in *.
  split; unfold child_of; rewrite E; eauto.
Qed.

Lemma unlinked_linked k this child i st o oc :
  linked st -> heap st !! this = Some o -> heap st !! child = Some oc ->
  parent_ oc = Some this -> children_ o !! i = Some child ->
  linked (unlinked k this child i st).
Proof.
  intros Hl Ho Hc Hp Hi.
  pose proof (linked_nodup _ Hl _ _ Ho) as Hnd.
  pose proof (heap_unlinked k this child i st) as Hh.
  revert Hh. generalize (unlinked k this child i st). intros st' Hh.
  split.
  - intros p o' c. rewrite Hh.
    destruct (heap st !! p) as [op|] eqn:Hop; [|done]. simpl.
    intros [= Heq] Hin; subst o'.
    assert (Hin' : c ∈ children_ op).
    { case_decide; case_decide; simpl in Hin; subst;
        eauto using elem_of_delete_1. }
    destruct (linked_down _ Hl _ _ _ Hop Hin') as (occ & Hoc & Hpar).
    assert (c <> child).
    { intros ->. assert (p = this) as -> by congruence.
      assert (op = o) as -> by congruence.
      rewrite decide_True in Hin by done.
      apply (NoDup_delete_notin _ _ _ Hnd Hi).
      by case_decide. }
    unfold child_of. rewrite Hh, Hoc. simpl.
    eexists. split; [done|]. rewrite (decide_False (P := child = c)) by done.
    by goal_decide.
  - intros c oc' p. rewrite Hh.
    destruct (heap st !! c) as [occ|] eqn:Hoc; [|done]. simpl.
    intros [= Heq] Hpar; subst oc'.
    assert (c <> child /\ parent_ occ = Some p) as [Hne Hpar'].
    { case_decide; case_decide; simpl in Hpar; subst; try done. }
    destruct (linked_up _ Hl _ _ _ Hoc Hpar') as (op & Hop & Hin).
    eexists. split; [by rewrite Hh, Hop|]. simpl.
    goal_decide; try done.
    all: assert (op = o) as -> by congruence; by eapply elem_of_delete_2.
  - intros p o'. rewrite Hh.
    destruct (heap st !! p) as [op|] eqn:Hop; [|done]. simpl.
    intros [= Heq]; subst o'. pose proof (linked_nodup _ Hl _ _ Hop).
    goal_decide; auto using NoDup_delete.
Qed.

Lemma heap_inserted k this child st q :
  heap (inserted k this child st) !! q =
  (fun o =>
     (if decide (child = q) then set_parent (Some this) else id)
       ((if decide (this = q)
         then fun o => set_children (children_ o ++ [child]) o else id) o))
  <$> heap st !! q.
Proof.
  unfold inserted. simpl. rewrite heap_onChildAdd. apply heap_modify2.
Qed.

Lemma inserted_linked k this child st o oc :
  linked st -> heap st !! this = Some o -> heap st !! child = Some oc ->
  parent_ oc = None -> linked (inserted k this child st).
Proof.
  intros Hl Ho Hc Hp.
  assert (Hfresh : child ∉ children_ o).
  { intros Hin. destruct (linked_down _ Hl _ _ _ Ho Hin) as (? & ? & ?).
    congruence. }
  pose proof (heap_inserted k this child st) as Hh.
  revert Hh. generalize (inserted k this child st). intros st' Hh.
  split.
  - intros p o' c. rewrite Hh.
    destruct (heap st !! p) as [op|] eqn:Hop; [|done]. simpl.
    intros [= Heq] Hin; subst o'. unfold child_of. rewrite Hh.
    assert (Hcases : c ∈ children_ op \/ (c = child /\ p = this)).
    { revert Hin. goal_decide; rewrite ?elem_of_app, ?list_elem_of_singleton;
        tauto. }
    destruct Hcases as [Hin'|[-> ->]].
    + destruct (linked_down _ Hl _ _ _ Hop Hin') as (occ & Hoc & Hpar).
      rewrite Hoc. simpl. eexists. split; [done|].
      assert (child <> c) by congruence. by goal_decide.
    + rewrite Hc. simpl. eexists. split; [done|]. by goal_decide.
  - intros c oc' p. rewrite Hh.
    destruct (heap st !! c) as [occ|] eqn:Hoc; [|done]. simpl.
    intros [= Heq] Hpar; subst oc'.
    destruct (decide (child = c)) as [->|Hne].
    + assert (p = this) as ->.
      { revert Hpar. goal_decide; congruence. }
      eexists. split; [by rewrite Hh, Ho|]. simpl.
      goal_decide; rewrite ?elem_of_app, ?list_elem_of_singleton; tauto.
    + assert (Hpar' : parent_ occ = Some p).
      { revert Hpar. by goal_decide. }
      destruct (linked_up _ Hl _ _ _ Hoc Hpar') as (op & Hop & Hin).
      eexists. split; [by rewrite Hh, Hop|]. simpl.
      goal_decide; rewrite ?elem_of_app; tauto.
  - intros p o'. rewrite Hh.
    destruct (heap st !! p) as [op|] eqn:Hop; [|done]. simpl.
    intros [= Heq]; subst o'. pose proof (linked_nodup _ Hl _ _ Hop).
    goal_decide; try done.
    all: assert (op = o) as -> by congruence.
    all: apply NoDup_app; split_and!; [done| |apply NoDup_singleton].
    all: intros x Hx ->%list_elem_of_singleton; done.
Qed.

Lemma emitted_unlinked k this child i st :
  emitted (unlinked k this child i st) =
  emitted st ++ [(this, signalPropertyRemoved child (Some this))].
Proof. unfold unlinked. simpl. by rewrite emitted_onChildRemove. Qed.

Lemma set_children_nil_id o : children_ o = [] -> set_children [] o = o.
Proof. destruct o; simpl; by intros ->. Qed.

(** The loop of [removeAllChildren]: one [removeChild] per element of the
    snapshot, each finding its child at the head of what is left. *)
Lemma removeAllChildren_loop k this rest :
  forall st o, linked st -> heap st !! this = Some o -> children_ o = rest ->
  exists st',
    foreach rest (fun child => removeChild_as k this child) st = Done st' /\
    linked st' /\
    heap st' !! this =
      Some (set_children []
              (if decide (this ∈ rest) then set_parent None o else o)) /\
    emitted st' =
      emitted st ++
      ((fun c => (this, signalPropertyRemoved c (Some this))) <$> rest) /\
    (forall c, c ∈ rest -> c <> this ->
       exists oc, heap st !! c = Some oc /\
                  heap st' !! c = Some (set_parent None oc)) /\
    (forall q, q <> this -> q ∉ rest -> heap st' !! q = heap st !! q).
Proof.
  induction rest as [|c rest IH]; intros st o Hl Ho Hch.
  - exists st. simpl. split_and!; try done.
    + by rewrite set_children_nil_id.
    + by rewrite app_nil_r.
    + intros c Hc. by apply elem_of_nil in Hc.
  - assert (Hin : c ∈ children_ o) by (rewrite Hch; left).
    destruct (linked_down _ Hl _ _ _ Ho Hin) as (oc & Hoc & Hpar).
    destruct (removeChild_as_found k _ _ _ _ _ Hl Ho Hoc Hpar)
      as (i & Hi & Hrun).
    pose proof (linked_nodup _ Hl _ _ Ho) as Hnd.
    assert (i = 0%nat) as ->.
    { eapply NoDup_lookup; [exact Hnd|exact Hi|]. by rewrite Hch. }
    pose proof (unlinked_linked k _ _ _ _ _ _ Hl Ho Hoc Hpar Hi) as Hl1.
    pose proof (heap_unlinked k this c 0 st) as Hh.
    pose proof (emitted_unlinked k this c 0 st) as He.
    revert Hrun Hl1 Hh He. generalize (unlinked k this c 0 st).
    intros st1 Hrun Hl1 Hh He.
    rewrite Hch in Hnd. apply NoDup_cons in Hnd as [Hnotin Hnd'].
    set (o1 := set_children rest
                 (if decide (c = this) then set_parent None o else o)).
    assert (Ho1 : heap st1 !! this = Some o1).
    { rewrite Hh, Ho. simpl. rewrite decide_True by done. unfold o1.
      destruct (decide (c = this)); simpl; by rewrite Hch. }
    destruct (IH st1 o1 Hl1 Ho1) as (st' & Hrun' & Hl' & Hthis & Hem & Hcs & Hfr).
    { unfold o1. by destruct (decide (c = this)). }
    exists st'. simpl. rewrite Hrun. simpl. split_and!; try done.
    + rewrite Hthis. f_equal. unfold o1.
      destruct (decide (c = this)) as [->|Hne].
      * rewrite (decide_False (P := this ∈ rest)) by done.
        rewrite decide_True by left. by destruct o.
      * destruct (decide (this ∈ rest)) as [Hr|Hr].
        -- rewrite decide_True by (by right). by destruct o.
        -- rewrite decide_False; [by destruct o|].
           rewrite elem_of_cons. intros [->|?]; done.
    + rewrite Hem, He. simpl. by rewrite <- app_assoc.
    + intros c' Hc' Hne. apply elem_of_cons in Hc' as [->|Hc'].
      * exists oc. split; [done|]. rewrite Hfr by done.
        rewrite Hh, Hoc. simpl.
        rewrite (decide_False (P := this = c)) by congruence.
        by rewrite decide_True by done.
      * destruct (Hcs c' Hc' Hne) as (oc1 & Hoc1 & Hfin).
        assert (c <> c') by (intros ->; done).
        rewrite Hh in Hoc1.
        destruct (heap st !! c') as [oc'|]; [|done]. simpl in Hoc1.
        rewrite (decide_False (P := this = c')) in Hoc1 by congruence.
        rewrite (decide_False (P := c = c')) in Hoc1 by done. simpl in Hoc1.
        exists oc'. split; [done|]. congruence.
    + intros q Hq Hnotq. rewrite not_elem_of_cons in Hnotq.
      destruct Hnotq as [Hqc Hqr]. rewrite Hfr by done.
      rewrite Hh. destruct (heap st !! q); [|done]. simpl.
      rewrite (decide_False (P := this = q)) by congruence.
      by rewrite (decide_False (P := c = q)) by congruence.
Qed.

Lemma removeChild_linked this child st st' :
  linked st -> removeChild this child st = Done st' -> linked st'.
Proof.
  intros Hl Hrun. unfold removeChild in Hrun.
  apply bind_Done in Hrun as (o & Ho%deref_Done & Hrun).
  unfold removeChild_as in Hrun.
  apply bind_Done in Hrun as (oc & Hoc%deref_Done & Hrun).
  destruct (decide (parent_ oc = Some this)) as [Hpar|]; [|done].
  destruct (removeChild_as_found (cls o) _ _ _ _ _ Hl Ho Hoc Hpar)
    as (i & Hi & Hrun').
  unfold removeChild_as in Hrun'. rewrite (deref_live _ _ _ Hoc) in Hrun'.
  simpl in Hrun'. rewrite decide_True in Hrun' by done.
  rewrite Hrun' in Hrun. injection Hrun as <-.
  by eapply unlinked_linked.
Qed.

Lemma removeFromParent_spec this st o :
  linked st -> heap st !! this = Some o ->
  match parent_ o with
  | None => removeFromParent this st = Done st
  | Some p =>
      exists op i, heap st !! p = Some op /\ children_ op !! i = Some this /\
        removeFromParent this st = Done (unlinked (cls op) p this i st)
  end.
Proof.
  intros Hl Ho. unfold removeFromParent. rewrite (deref_live _ _ _ Ho). simpl.
  destruct (parent_ o) as [p|] eqn:Hpar; [|done].
  destruct (linked_up _ Hl _ _ _ Ho Hpar) as (op & Hop & Hin).
  destruct (removeChild_as_found (cls op) _ _ _ _ _ Hl Hop Ho Hpar)
    as (i & Hi & Hrun).
  exists op, i. split_and!; [done..|].
  unfold removeChild. by rewrite (deref_live _ _ _ Hop).
Qed.

Lemma deallocate_linked this st o :
  linked st -> heap st !! this = Some o ->
  children_ o = [] -> parent_ o = None -> linked (deallocate this st).
Proof.
  intros Hl Ho Hch Hpar.
  assert (Hh : forall q, heap (deallocate this st) !! q =
                         if decide (this = q) then None else heap st !! q).
  { intros q. simpl. apply lookup_delete. }
  revert Hh. generalize (deallocate this st). intros st' Hh.
  split.
  - intros p op c. rewrite Hh. case_decide; [done|]. intros Hop Hin.
    destruct (linked_down _ Hl _ _ _ Hop Hin) as (oc & Hoc & Hp).
    exists oc. rewrite Hh. rewrite decide_False; [done|].
    intros <-. congruence.
  - intros c oc p. rewrite Hh. case_decide; [done|]. intros Hoc Hp.
    destruct (linked_up _ Hl _ _ _ Hoc Hp) as (op & Hop & Hin).
    exists op. rewrite Hh. rewrite decide_False; [done|].
    intros <-. assert (op = o) as -> by congruence.
    rewrite Hch in Hin. by apply elem_of_nil in Hin.
  - intros p op. rewrite Hh. case_decide; [done|]. apply Hl.
Qed.

Lemma filter_removal_of_children this (l : list nat) :
  NoDup l ->
  filter (removal_of this)
    ((fun c => (this, signalPropertyRemoved c (Some this))) <$> l) =
  if decide (this ∈ l)
  then [(this, signalPropertyRemoved this (Some this))] else [].
Proof.
  induction 1 as [|c l Hc Hnd IH]; [done|].
  rewrite fmap_cons, filter_cons. unfold removal_of at 1. simpl.
  rewrite IH. destruct (decide (c = this)) as [->|Hne].
  - rewrite (decide_False (P := this ∈ l)) by done.
    by rewrite decide_True by left.
  - destruct (decide (this ∈ l)).
    + by rewrite decide_True by (by right).
    + rewrite decide_False; [done|].
      rewrite elem_of_cons. intros [->|?]; done.
Qed.

Lemma filter_null_children this (l : list nat) :
  filter removal_from_null
    ((fun c => (this, signalPropertyRemoved c (Some this))) <$> l) = [].
Proof. induction l as [|c l IH]; [done|]. by rewrite fmap_cons, filter_cons. Qed.

(** The whole of [~QtProperty] on a linked store. *)
Lemma QtProperty_destroy_spec st this o :
  linked st -> heap st !! this = Some o ->
  exists st',
    QtProperty_destroy this st = Done st' /\ linked st' /\
    heap st' !! this = None /\
    emitted st' =
      emitted st ++
      [(this, signalPropertyRemoved this (parent_ o))] ++
      ((fun c => (this, signalPropertyRemoved c (Some this))) <$> children_ o)
      ++ match parent_ o with
         | Some p =>
             if decide (p = this) then []
             else [(p, signalPropertyRemoved this (Some p))]
         | None => []
         end.
Proof.
  intros Hl Ho. unfold QtProperty_destroy. rewrite (deref_live _ _ _ Ho).
  simpl.
  set (st1 := record this (signalPropertyRemoved this (parent_ o)) st).
  assert (Hl1 : linked st1) by (by apply (linked_heap st)).
  assert (Ho1 : heap st1 !! this = Some o) by done.
  destruct (removeAllChildren_loop CQtProperty this _ st1 o Hl1 Ho1 eq_refl)
    as (st2 & Hrun2 & Hl2 & Hthis2 & Hem2 & _ & _).
  unfold removeAllChildren_as. rewrite (deref_live _ _ _ Ho1). simpl.
  rewrite Hrun2. simpl.
  pose proof (removeFromParent_spec this st2 _ Hl2 Hthis2) as Hrfp.
  simpl in Hrfp.
  destruct (decide (this ∈ children_ o)) as [Hself|Hself].
  - (* the object is its own child: the loop already cleared its parent *)
    simpl in Hrfp. rewrite Hrfp. simpl.
    destruct (linked_down _ Hl _ _ _ Ho Hself) as (o' & Ho' & Hpar).
    assert (o' = o) as -> by congruence.
    eexists. split_and!; [done| | |].
    + eapply deallocate_linked; [done|exact Hthis2|by simpl..].
    + simpl. apply lookup_delete_eq.
    + simpl. rewrite Hem2. unfold st1. simpl. rewrite !Hpar.
      rewrite decide_True by done.
      by rewrite app_nil_r, <- app_assoc.
  - destruct (parent_ o) as [p|] eqn:Hpar; simpl in Hrfp.
    + destruct Hrfp as (op & i & Hop & Hi & Hrun3). rewrite Hrun3. simpl.
      assert (Hp : p <> this).
      { intros ->. destruct (linked_up _ Hl _ _ _ Ho Hpar) as (o' & Ho' & Hin).
        assert (o' = o) as -> by congruence. done. }
      eexists. split_and!; [done| | |].
      * assert (Hl3 : linked (unlinked (cls op) p this i st2)).
        { apply (unlinked_linked _ _ _ _ _ op (set_children [] o) Hl2 Hop Hthis2);
            [exact Hpar|exact Hi]. }
        apply (deallocate_linked _ _ (set_parent None (set_children [] o)) Hl3);
          [|done..].
        rewrite heap_unlinked, Hthis2. simpl.
        rewrite (decide_False (P := p = this)) by done.
        by rewrite decide_True by done.
      * simpl. apply lookup_delete_eq.
      * simpl. rewrite emitted_onChildRemove. simpl. rewrite Hem2.
        unfold st1. simpl.
        rewrite (decide_False (P := p = this)) by done.
        by rewrite <- !app_assoc.
    + rewrite Hrfp. simpl. eexists. split_and!; [done| | |].
      * eapply deallocate_linked; [done|exact Hthis2|by simpl..].
      * simpl. apply lookup_delete_eq.
      * simpl. rewrite Hem2. unfold st1. simpl.
        by rewrite app_nil_r, <- app_assoc.
Qed.

Lemma addChild_inv this child st st' :
  addChild this child st = Done st' ->
  exists o oc, heap st !! this = Some o /\ heap st !! child = Some oc /\
    parent_ oc = None /\ st' = inserted (cls o) this child st.
Proof.
  unfold addChild. intros Hrun.
  apply bind_Done in Hrun as (oc & Hoc%deref_Done & Hrun).
  destruct (decide (parent_ oc = None)) as [Hpar|]; [|done].
  apply bind_Done in Hrun as (o & Ho%deref_Done & Hrun).
  injection Hrun as <-. by exists o, oc.
Qed.

Lemma removeChild_inv this child st st' :
  linked st -> removeChild this child st = Done st' ->
  exists o oc i, heap st !! this = Some o /\ heap st !! child = Some oc /\
    parent_ oc = Some this /\ children_ o !! i = Some child /\
    st' = unlinked (cls o) this child i st.
Proof.
  intros Hl Hrun. unfold removeChild in Hrun.
  apply bind_Done in Hrun as (o & Ho%deref_Done & Hrun).
  pose proof Hrun as Hrun0. unfold removeChild_as in Hrun.
  apply bind_Done in Hrun as (oc & Hoc%deref_Done & Hrun).
  destruct (decide (parent_ oc = Some this)) as [Hpar|]; [|done].
  destruct (removeChild_as_found (cls o) _ _ _ _ _ Hl Ho Hoc Hpar)
    as (i & Hi & Hrun').
  rewrite Hrun' in Hrun0. injection Hrun0 as <-. by exists o, oc, i.
Qed.

Lemma removeChild_as_inv k this child st st' :
  linked st -> removeChild_as k this child st = Done st' ->
  exists o oc i, heap st !! this = Some o /\ heap st !! child = Some oc /\
    parent_ oc = Some this /\ children_ o !! i = Some child /\
    st' = unlinked k this child i st.
Proof.
  intros Hl Hrun. pose proof Hrun as Hrun0. unfold removeChild_as in Hrun.
  apply bind_Done in Hrun as (oc & Hoc%deref_Done & Hrun).
  destruct (decide (parent_ oc = Some this)) as [Hpar|]; [|done].
  apply bind_Done in Hrun as (o & Ho%deref_Done & _).
  destruct (removeChild_as_found k _ _ _ _ _ Hl Ho Hoc Hpar)
    as (i & Hi & Hrun').
  rewrite Hrun' in Hrun0. injection Hrun0 as <-. by exists o, oc, i.
Qed.

Lemma linkedb_complete (st : State) : linked st -> linkedb st = true.
Proof.
  intros Hl. unfold linkedb. rewrite forallb_forall. intros [p o] Hin.
  apply list_elem_of_In, elem_of_map_to_list in Hin.
  apply andb_true_intro. split; [apply andb_true_intro; split|].
  - apply bool_decide_eq_true_2. by eapply linked_nodup.
  - rewrite forallb_forall. intros c Hc. apply list_elem_of_In in Hc.
    destruct (linked_down _ Hl _ _ _ Hin Hc) as (oc & Hoc & Hp).
    rewrite Hoc. by apply bool_decide_eq_true_2.
  - destruct (parent_ o) as [q|] eqn:Hq; [|done].
    destruct (linked_up _ Hl _ _ _ Hin Hq) as (oq & Hoq & Hmem).
    rewrite Hoq. by apply bool_decide_eq_true_2.
Qed.

Lemma emit_if_linked sender s st :
  linked st -> emit_if linkedb sender s st = Done (record sender s st).
Proof. intros Hl. unfold emit_if. by rewrite (linkedb_complete _ Hl). Qed.

Lemma foreach_ext_inv {A : Type} (I : State -> Prop) (l : list A)
  body1 body2 st :
  I st ->
  (forall x s, x ∈ l -> I s -> body1 x s = body2 x s) ->
  (forall x s s', x ∈ l -> I s -> body2 x s = Done s' -> I s') ->
  foreach l body1 st = foreach l body2 st.
Proof.
  revert st. induction l as [|x l IH]; intros st HI Heq Hstep; [done|].
  simpl. rewrite (Heq x st) by (done || left).
  destruct (body2 x st) as [s1| | |] eqn:Hx; simpl; try done.
  apply IH.
  - eapply Hstep; [left|done..].
  - intros; apply Heq; [by right|done].
  - intros; eapply Hstep; [by right|done..].
Qed.

(** The listener of [addChild] is called once both sides are set. *)
Lemma addChild_with_checked this child st :
  linked st -> addChild_with (emit_if linkedb) this child st
               = addChild this child st.
Proof.
  intros Hl. unfold addChild_with, addChild.
  destruct (deref child st) as [oc| | |] eqn:Hoc; simpl; try done.
  destruct (decide (parent_ oc = None)) as [Hpar|]; [|done].
  destruct (deref this st) as [o| | |] eqn:Ho; simpl; try done.
  apply deref_Done in Hoc, Ho. apply emit_if_linked.
  apply (linked_heap (inserted (cls o) this child st)); [done|].
  by eapply inserted_linked.
Qed.

(** The listener of [removeChild] is called once both sides are cleared. *)
Lemma removeChild_as_with_checked k this child st :
  linked st -> removeChild_as_with (emit_if linkedb) k this child st
               = removeChild_as k this child st.
Proof.
  intros Hl. unfold removeChild_as_with, removeChild_as.
  destruct (deref child st) as [oc| | |] eqn:Hoc; simpl; try done.
  destruct (decide (parent_ oc = Some this)) as [Hpar|]; [|done].
  destruct (deref this st) as [o| | |] eqn:Ho; simpl; try done.
  destruct (list_find _ _) as [[i y]|] eqn:Hf; [|done].
  apply deref_Done in Hoc, Ho.
  apply list_find_Some in Hf as (Hi & -> & _).
  apply emit_if_linked.
  apply (linked_heap (unlinked k this child i st)); [done|].
  by eapply unlinked_linked.
Qed.

Lemma removeChild_with_checked this child st :
  linked st -> removeChild_with (emit_if linkedb) this child st
               = removeChild this child st.
Proof.
  intros Hl. unfold removeChild_with, removeChild.
  destruct (deref this st); simpl; try done.
  by apply removeChild_as_with_checked.
Qed.

Lemma removeFromParent_with_checked this st :
  linked st -> removeFromParent_with (emit_if linkedb) this st
               = removeFromParent this st.
Proof.
  intros Hl. unfold removeFromParent_with, removeFromParent.
  destruct (deref this st) as [o| | |]; simpl; try done.
  destruct (parent_ o); [|done]. by apply removeChild_with_checked.
Qed.

Lemma removeChild_as_linked k this child st st' :
  linked st -> removeChild_as k this child st = Done st' -> linked st'.
Proof.
  intros Hl Hrun.
  apply removeChild_as_inv in Hrun as (o & oc & i & Ho & Hoc & Hp & Hi & ->);
    [|done].
  by eapply unlinked_linked.
Qed.

Lemma removeAllChildren_as_with_checked k this st :
  linked st -> removeAllChildren_as_with (emit_if linkedb) k this st
               = removeAllChildren_as k this st.
Proof.
  intros Hl. unfold removeAllChildren_as_with, removeAllChildren_as.
  destruct (deref this st) as [o| | |]; simpl; try done.
  apply (foreach_ext_inv linked); [done| |].
  - intros c s _ Hs. by apply removeChild_as_with_checked.
  - intros c s s' _ Hs. by apply removeChild_as_linked.
Qed.

Lemma removeAllChildren_as_linked k this st st' :
  linked st -> removeAllChildren_as k this st = Done st' -> linked st'.
Proof.
  intros Hl. unfold removeAllChildren_as. intros Hrun.
  apply bind_Done in Hrun as (o & _ & Hrun).
  revert st Hl Hrun. generalize (children_ o). intros l.
  induction l as [|c l IH]; intros st Hl Hrun; simpl in Hrun.
  - by injection Hrun as <-.
  - apply bind_Done in Hrun as (s1 & Hc & Hrun).
    apply (IH s1); [|done]. by eapply removeChild_as_linked.
Qed.

(** A listener that checks the links at every structural notification never
    finds them out of step: the run goes through as it does unobserved. *)
Lemma runStructOp_with_checked op st :
  linked st -> runStructOp_with (emit_if linkedb) op st = runStructOp op st.
Proof.
  intros Hl. destruct op as [this child|this child|this|this|this]; simpl.
  - by apply addChild_with_checked.
  - by apply removeChild_with_checked.
  - by apply removeFromParent_with_checked.
  - unfold removeAllChildren_with, removeAllChildren.
    destruct (deref this st); simpl; try done.
    by apply removeAllChildren_as_with_checked.
  - unfold QtProperty_destroy_with, QtProperty_destroy.
    destruct (deref this st) as [o| | |]; simpl; try done.
    rewrite emit_if_linked by done. simpl.
    set (st1 := record this (signalPropertyRemoved this (parent_ o)) st).
    assert (Hl1 : linked st1) by (by apply (linked_heap st)).
    rewrite (removeAllChildren_as_with_checked _ _ _ Hl1).
    destruct (removeAllChildren_as CQtProperty this st1) as [st2| | |] eqn:H2;
      simpl; try done.
    pose proof (removeAllChildren_as_linked _ _ _ _ Hl1 H2) as Hl2.
    by rewrite (removeFromParent_with_checked _ _ Hl2).
Qed.

Lemma runStructOp_with_log op st :
  runStructOp_with log op st = runStructOp op st.
Proof. by destruct op. Qed.

(** C2: the parent back-reference of a child and its membership in the
    parent's child sequence agree, a node is listed by at most one parent, and
    [addChild], [removeChild], [removeFromParent], [removeAllChildren] and the
    destructor all keep it so.  [addChild] asserts that the child has no
    parent and then sets both sides; [removeChild] asserts that the child's
    parent is the receiver and then clears both sides.  Where its assertion
    holds each call returns, as do the other three on a live node.  The two
    sides are never seen out of step: a listener that checks them in the
    store each structural notification is emitted in finds them in agreement
    every time. *)
Theorem links_stay_in_sync st :
  linked st ->
  (forall p c o oc, heap st !! p = Some o -> heap st !! c = Some oc ->
     (parent_ oc = Some p <-> c ∈ children_ o)) /\
  (forall p1 p2 o1 o2 c,
     heap st !! p1 = Some o1 -> heap st !! p2 = Some o2 ->
     c ∈ children_ o1 -> c ∈ children_ o2 -> p1 = p2) /\
  (forall op st', runStructOp op st = Done st' -> linked st') /\
  (forall this child oc, heap st !! child = Some oc -> parent_ oc <> None ->
     addChild this child st = AssertFailed) /\
  (forall this child st', addChild this child st = Done st' ->
     exists o' oc', heap st' !! this = Some o' /\ heap st' !! child = Some oc' /\
       child ∈ children_ o' /\ parent_ oc' = Some this) /\
  (forall this child o oc,
     heap st !! this = Some o -> heap st !! child = Some oc ->
     parent_ oc <> Some this -> removeChild this child st = AssertFailed) /\
  (forall this child st', removeChild this child st = Done st' ->
     exists o' oc', heap st' !! this = Some o' /\ heap st' !! child = Some oc' /\
       (child ∉ children_ o') /\ parent_ oc' = None) /\
  (* [addChild] goes through where its assertion holds *)
  (forall this child o oc,
     heap st !! this = Some o -> heap st !! child = Some oc ->
     parent_ oc = None ->
     exists st' o' oc',
       addChild this child st = Done st' /\ linked st' /\
       heap st' !! this = Some o' /\ heap st' !! child = Some oc' /\
       child ∈ children_ o' /\ parent_ oc' = Some this) /\
  (* and so does [removeChild] *)
  (forall this child o oc,
     heap st !! this = Some o -> heap st !! child = Some oc ->
     parent_ oc = Some this ->
     exists st' o' oc',
       removeChild this child st = Done st' /\ linked st' /\
       heap st' !! this = Some o' /\ heap st' !! child = Some oc' /\
       (child ∉ children_ o') /\ parent_ oc' = None) /\
  (* the other operations return on every live node *)
  (forall this o, heap st !! this = Some o ->
     (exists st' o', removeFromParent this st = Done st' /\ linked st' /\
        heap st' !! this = Some o' /\ parent_ o' = None) /\
     (exists st' o', removeAllChildren this st = Done st' /\ linked st' /\
        heap st' !! this = Some o' /\ children_ o' = []) /\
     (exists st', QtProperty_destroy this st = Done st' /\ linked st' /\
        heap st' !! this = None)) /\
  (* the bodies with the listener left open are these operations *)
  (forall op s, runStructOp_with log op s = runStructOp op s) /\
  (* what a listener checks is the agreement of the two sides *)
  (forall s, linkedb s = true <-> linked s) /\
  (* never seen out of step: the check passes at every notification *)
  (forall op, runStructOp_with (emit_if linkedb) op st = runStructOp op st).
Proof.
  intros Hl.
  assert (Hadd : forall this child o oc,
     heap st !! this = Some o -> heap st !! child = Some oc ->
     parent_ oc = None ->
     addChild this child st = Done (inserted (cls o) this child st)).
  { intros this child o oc Ho Hoc Hpar. unfold addChild.
    rewrite (deref_live _ _ _ Hoc). simpl. rewrite decide_True by done.
    by rewrite (deref_live _ _ _ Ho). }
  assert (Hins : forall this child st', addChild this child st = Done st' ->
     exists o' oc', heap st' !! this = Some o' /\ heap st' !! child = Some oc' /\
       child ∈ children_ o' /\ parent_ oc' = Some this).
  { intros this child st' Hrun.
    apply addChild_inv in Hrun as (o & oc & Ho & Hoc & Hpar & ->).
    eexists _, _. split_and!.
    + by rewrite heap_inserted, Ho.
    + by rewrite heap_inserted, Hoc.
    + simpl. rewrite (decide_True (P := this = this)) by done.
      destruct (decide (child = this)); simpl;
        rewrite elem_of_app, list_elem_of_singleton; by right.
    + simpl. by rewrite (decide_True (P := child = child)) by done. }
  assert (Hrem : forall this child st', removeChild this child st = Done st' ->
     exists o' oc', heap st' !! this = Some o' /\ heap st' !! child = Some oc' /\
       (child ∉ children_ o') /\ parent_ oc' = None).
  { intros this child st' Hrun.
    apply removeChild_inv in Hrun as (o & oc & i & Ho & Hoc & Hpar & Hi & ->);
      [|done].
    pose proof (linked_nodup _ Hl _ _ Ho) as Hnd.
    eexists _, _. split_and!.
    + by rewrite heap_unlinked, Ho.
    + by rewrite heap_unlinked, Hoc.
    + simpl. rewrite (decide_True (P := this = this)) by done. simpl.
      destruct (decide (child = this)); simpl;
        by apply NoDup_delete_notin.
    + simpl. rewrite (decide_True (P := child = child)) by done.
      by destruct (decide (this = child)). }
  split_and!.
  - intros p c o oc Hp Hc. split.
    + intros Hpar. destruct (linked_up _ Hl _ _ _ Hc Hpar) as (o' & Ho' & Hin).
      congruence.
    + intros Hin. destruct (linked_down _ Hl _ _ _ Hp Hin) as (oc' & Hoc' & ?).
      congruence.
  - intros p1 p2 o1 o2 c H1 H2 Hin1 Hin2.
    destruct (linked_down _ Hl _ _ _ H1 Hin1) as (oc & Hoc & Hp1).
    destruct (linked_down _ Hl _ _ _ H2 Hin2) as (oc' & Hoc' & Hp2).
    congruence.
  - intros [this child|this child|this|this|this] st' Hrun; simpl in Hrun.
    + apply addChild_inv in Hrun as (o & oc & Ho & Hoc & Hpar & ->).
      by eapply inserted_linked.
    + by eapply removeChild_linked.
    + pose proof Hrun as Hrun0. unfold removeFromParent in Hrun.
      apply bind_Done in Hrun as (o & Ho%deref_Done & _).
      pose proof (removeFromParent_spec this st o Hl Ho) as Hs.
      destruct (parent_ o) as [p|] eqn:Hpar.
      * destruct Hs as (op & i & Hop & Hi & Hrun'). rewrite Hrun' in Hrun0.
        injection Hrun0 as <-. by eapply unlinked_linked.
      * congruence.
    + unfold removeAllChildren in Hrun.
      apply bind_Done in Hrun as (o & Ho%deref_Done & Hrun).
      unfold removeAllChildren_as in Hrun. rewrite (deref_live _ _ _ Ho) in Hrun.
      simpl in Hrun.
      destruct (removeAllChildren_loop (cls o) this _ st o Hl Ho eq_refl)
        as (st'' & Hrun' & Hl' & _).
      congruence.
    + pose proof Hrun as Hrun0. unfold QtProperty_destroy in Hrun.
      apply bind_Done in Hrun as (o & Ho%deref_Done & _).
      destruct (QtProperty_destroy_spec st this o Hl Ho) as (st'' & Hrun' & Hl' & _).
      congruence.
  - intros this child oc Hoc Hpar. unfold addChild.
    rewrite (deref_live _ _ _ Hoc). simpl. by rewrite decide_False.
  - exact Hins.
  - intros this child o oc Ho Hoc Hpar. unfold removeChild.
    rewrite (deref_live _ _ _ Ho). simpl. unfold removeChild_as.
    rewrite (deref_live _ _ _ Hoc). simpl. by rewrite decide_False.
  - exact Hrem.
  - intros this child o oc Ho Hoc Hpar.
    pose proof (Hadd this child o oc Ho Hoc Hpar) as Hrun.
    destruct (Hins _ _ _ Hrun) as (o' & oc' & H1 & H2 & H3 & H4).
    exists (inserted (cls o) this child st), o', oc'.
    split_and!; [done|by eapply inserted_linked|done..].
  - intros this child o oc Ho Hoc Hpar.
    destruct (removeChild_as_found (cls o) _ _ _ _ _ Hl Ho Hoc Hpar)
      as (i & Hi & Hrun').
    assert (Hrun : removeChild this child st
                   = Done (unlinked (cls o) this child i st)).
    { unfold removeChild. by rewrite (deref_live _ _ _ Ho). }
    destruct (Hrem _ _ _ Hrun) as (o' & oc' & H1 & H2 & H3 & H4).
    exists (unlinked (cls o) this child i st), o', oc'.
    split_and!; [done|by eapply unlinked_linked|done..].
  - intros this o Ho. split_and!.
    + pose proof (removeFromParent_spec this st o Hl Ho) as Hs.
      destruct (parent_ o) as [p|] eqn:Hpar.
      * destruct Hs as (op & i & Hop & Hi & Hrun).
        eexists _, _. split_and!; [exact Hrun|by eapply unlinked_linked| |].
        -- by rewrite heap_unlinked, Ho.
        -- simpl. rewrite (decide_True (P := this = this)) by done.
           by destruct (decide (p = this)).
      * by exists st, o.
    + destruct (removeAllChildren_loop (cls o) this _ st o Hl Ho eq_refl)
        as (st' & Hrun & Hl' & Hthis & _).
      eexists st', _. split_and!; [|done|exact Hthis|done].
      unfold removeAllChildren, removeAllChildren_as.
      by rewrite (deref_live _ _ _ Ho).
    + destruct (QtProperty_destroy_spec st this o Hl Ho)
        as (st' & Hrun & Hl' & Hgone & _).
      by exists st'.
  - intros op s. apply runStructOp_with_log.
  - intros s. split; [apply linkedb_sound|apply linkedb_complete].
  - intros op. by apply runStructOp_with_checked.
Qed.

(** C8: [removeAllChildren] walks a snapshot of the child sequence and calls
    [removeChild] on each element.  On a node with N children every call
    finds its child, so exactly N removal notifications are emitted, one per
    child in sequence order, and the child sequence ends empty. *)
Theorem removeAllChildren_removes_every_child st this o :
  linked st -> heap st !! this = Some o ->
  removeAllChildren this st =
    foreach (children_ o) (fun child => removeChild_as (cls o) this child) st /\
  exists st' o' new,
    removeAllChildren this st = Done st' /\
    heap st' !! this = Some o' /\ children_ o' = [] /\
    emitted st' = emitted st ++ new /\
    new = (fun c => (this, signalPropertyRemoved c (Some this))) <$> children_ o
    /\ length new = length (children_ o) /\
    (forall c, c ∈ children_ o ->
       exists oc', heap st' !! c = Some oc' /\ parent_ oc' = None).
Proof.
  intros Hl Ho.
  assert (Heq : removeAllChildren this st =
    foreach (children_ o) (fun child => removeChild_as (cls o) this child) st).
  { unfold removeAllChildren, removeAllChildren_as.
    by rewrite (deref_live _ _ _ Ho). }
  split; [done|]. rewrite Heq.
  destruct (removeAllChildren_loop (cls o) this _ st o Hl Ho eq_refl)
    as (st' & Hrun & Hl' & Hthis & Hem & Hcs & _).
  eexists st', _, _. split_and!; [done|exact Hthis|done|exact Hem|done| |].
  - by rewrite length_fmap.
  - intros c Hc. destruct (decide (c = this)) as [->|Hne].
    + eexists. split; [exact Hthis|]. simpl. by rewrite decide_True.
    + destruct (Hcs c Hc Hne) as (oc & _ & Hoc'). by eexists.
Qed.

(** C10: destroying a node that still has a parent emits the removal
    notification for that node and parent twice, first by the node itself at
    the start of the destructor and then by the parent when
    [removeFromParent] unlinks the node; destroying a node without a parent
    emits one removal notification for the node, and it is the only one that
    reports a null parent.  The children still attached are each reported
    once in between, as removed from the node; a node listed as its own
    child is unlinked by that loop already. *)
Theorem destroy_notifies_removal st this o :
  linked st -> heap st !! this = Some o ->
  exists st' new,
    QtProperty_destroy this st = Done st' /\
    heap st' !! this = None /\
    emitted st' = emitted st ++ new /\
    new =
      [(this, signalPropertyRemoved this (parent_ o))] ++
      ((fun c => (this, signalPropertyRemoved c (Some this))) <$> children_ o)
      ++ match parent_ o with
         | Some p =>
             if decide (p = this) then []
             else [(p, signalPropertyRemoved this (Some p))]
         | None => []
         end /\
    match parent_ o with
    | Some p =>
        filter (removal_of this) new =
          [(this, signalPropertyRemoved this (Some p));
           (p, signalPropertyRemoved this (Some p))]
    | None =>
        filter (removal_of this) new =
          [(this, signalPropertyRemoved this None)] /\
        filter removal_from_null new =
          [(this, signalPropertyRemoved this None)]
    end.
Proof.
  intros Hl Ho.
  destruct (QtProperty_destroy_spec st this o Hl Ho)
    as (st' & Hrun & _ & Hgone & Hem).
  eexists st', _. split_and!; [done|done|exact Hem|done|].
  pose proof (linked_nodup _ Hl _ _ Ho) as Hnd. cbn [app].
  destruct (parent_ o) as [p|] eqn:Hpar.
  - rewrite filter_cons. unfold removal_of at 1. simpl.
    rewrite decide_True by done. f_equal.
    rewrite filter_app, (filter_removal_of_children _ _ Hnd).
    destruct (decide (p = this)) as [->|Hne].
    + destruct (linked_up _ Hl _ _ _ Ho Hpar) as (o' & Ho' & Hin).
      assert (o' = o) as -> by congruence.
      by rewrite decide_True by done.
    + rewrite decide_False.
      * rewrite filter_cons. unfold removal_of at 1. simpl.
        by rewrite decide_True by done.
      * intros Hin. destruct (linked_down _ Hl _ _ _ Ho Hin) as (o' & Ho' & ?).
        congruence.
  - assert (Hnot : this ∉ children_ o).
    { intros Hin. destruct (linked_down _ Hl _ _ _ Ho Hin) as (o' & Ho' & ?).
      congruence. }
    split.
    + rewrite filter_cons. unfold removal_of at 1. simpl.
      rewrite decide_True by done. f_equal.
      rewrite filter_app, (filter_removal_of_children _ _ Hnd).
      by rewrite decide_False.
    + rewrite filter_cons. unfold removal_from_null at 1. simpl. f_equal.
      by rewrite filter_app, filter_null_children.
Qed.

(** * Lookup by name: [findChild] *)

Lemma path_via_mono (P Q : QtProperty -> Prop) st g q :
  (forall o, P o -> Q o) -> path_via P st g q -> path_via Q st g q.
Proof.
  intros HPQ. induction 1; [by eapply path_child|].
  eapply path_step; eauto.
Qed.

Section GroupLookup.

Variable TYPE_GROUP : Z.

Lemma QtProperty_findChild_loop_Some st name children r :
  QtProperty_findChild_loop st name children = Done (Some r) ->
  r ∈ children /\ exists o, heap st !! r = Some o /\ name_ o = name.
Proof.
  induction children as [|c rest IH]; simpl; [done|].
  intros Hrun. apply bind_Done in Hrun as (oc & Hoc%deref_Done & Hrun).
  destruct (decide (name_ oc = name)) as [Hn|Hn].
  - injection Hrun as <-. split; [left|eauto].
  - destruct (IH Hrun) as [Hin Hr]. split; [by right|done].
Qed.

Lemma QtProperty_findChild_loop_total st name children :
  (forall c, c ∈ children -> is_Some (heap st !! c)) ->
  exists r, QtProperty_findChild_loop st name children = Done r.
Proof.
  induction children as [|c rest IH]; intros Hlive; simpl; [eauto|].
  destruct (Hlive c) as [oc Hoc]; [left|].
  rewrite (deref_live _ _ _ Hoc). simpl.
  destruct (decide (name_ oc = name)); [eauto|].
  apply IH. intros; apply Hlive; by right.
Qed.

Lemma QtGroupProperty_findChild_loop_cons virt st name child rest :
  QtGroupProperty_findChild_loop TYPE_GROUP virt st name (child :: rest) =
  (let* result := group_round TYPE_GROUP virt st name child in
   match result with
   | Some _ => Done result
   | None => QtGroupProperty_findChild_loop TYPE_GROUP virt st name rest
   end).
Proof.
  simpl. unfold group_round. by destruct (deref child st).
Qed.

Lemma QtGroupProperty_findChild_loop_Some virt st name children r :
  QtGroupProperty_findChild_loop TYPE_GROUP virt st name children
    = Done (Some r) ->
  exists c, c ∈ children /\ group_round TYPE_GROUP virt st name c = Done (Some r).
Proof.
  induction children as [|c rest IH]; [done|].
  rewrite QtGroupProperty_findChild_loop_cons. intros Hrun.
  apply bind_Done in Hrun as (res & Hres & Hrun).
  destruct res as [r'|].
  - injection Hrun as ->. exists c. split; [left|done].
  - destruct (IH Hrun) as (c' & Hin & Hc'). exists c'. split; [by right|done].
Qed.

Lemma QtGroupProperty_findChild_loop_found virt st name children c r :
  (forall c', c' ∈ children -> exists res, group_round TYPE_GROUP virt st name c' = Done res) ->
  c ∈ children -> group_round TYPE_GROUP virt st name c = Done (Some r) ->
  exists r', QtGroupProperty_findChild_loop TYPE_GROUP virt st name children
             = Done (Some r').
Proof.
  induction children as [|c' rest IH]; intros Htot Hin Hc.
  - by apply elem_of_nil in Hin.
  - rewrite QtGroupProperty_findChild_loop_cons.
    destruct (Htot c') as [[r'|] Hres]; [left| |]; rewrite Hres; simpl.
    + eauto.
    + apply elem_of_cons in Hin as [->|Hin]; [congruence|].
      apply IH; [|done..]. intros; apply Htot; by right.
Qed.

Lemma QtGroupProperty_findChild_loop_total virt st name children :
  (forall c', c' ∈ children -> exists res, group_round TYPE_GROUP virt st name c' = Done res) ->
  exists res, QtGroupProperty_findChild_loop TYPE_GROUP virt st name children
              = Done res.
Proof.
  induction children as [|c' rest IH]; intros Htot; [by exists None|].
  rewrite QtGroupProperty_findChild_loop_cons.
  destruct (Htot c') as [[r'|] Hres]; [left| |]; rewrite Hres; simpl.
  - eauto.
  - apply IH. intros; apply Htot; by right.
Qed.

(** In a forest the search returns: each level spends one unit of fuel. *)
Lemma findChild_total lvl N st name :
  linked st -> ranked lvl N st ->
  forall fuel p o, heap st !! p = Some o -> (N - lvl p < fuel)%nat ->
    exists res, findChild TYPE_GROUP fuel p name st = Done res.
Proof.
  intros Hl Hr. induction fuel as [|f IH]; intros p o Hp Hf; [lia|].
  simpl. rewrite (deref_live _ _ _ Hp). simpl.
  assert (Hbase : exists res, QtProperty_findChild p name st = Done res).
  { unfold QtProperty_findChild. rewrite (deref_live _ _ _ Hp). simpl.
    apply QtProperty_findChild_loop_total. intros c Hc.
    destruct (linked_down _ Hl _ _ _ Hp Hc) as (oc & Hoc & _). by exists oc. }
  destruct (cls o); try done.
  unfold QtGroupProperty_findChild. rewrite (deref_live _ _ _ Hp). simpl.
  apply QtGroupProperty_findChild_loop_total. intros c Hc.
  destruct (linked_down _ Hl _ _ _ Hp Hc) as (oc & Hoc & Hpar).
  unfold group_round. rewrite (deref_live _ _ _ Hoc). simpl.
  destruct (decide (name = name_ oc)); [eauto|].
  destruct (decide (type_ oc = TYPE_GROUP)); [|eauto].
  apply (IH c oc Hoc). destruct (Hr c oc Hoc) as [? Hlt].
  specialize (Hlt _ Hpar). lia.
Qed.

(** Whatever the search returns bears the name and lies below the receiver
    behind nodes that all carry the group tag. *)
Lemma findChild_Some_path st name :
  forall fuel g r, findChild TYPE_GROUP fuel g name st = Done (Some r) ->
    path_via (tagged_group TYPE_GROUP) st g r /\
    exists o, heap st !! r = Some o /\ name_ o = name.
Proof.
  induction fuel as [|f IH]; intros g r Hrun; [done|].
  simpl in Hrun. apply bind_Done in Hrun as (o & Ho%deref_Done & Hrun).
  assert (Hbase : QtProperty_findChild g name st = Done (Some r) ->
    path_via (tagged_group TYPE_GROUP) st g r /\
    exists o, heap st !! r = Some o /\ name_ o = name).
  { unfold QtProperty_findChild. rewrite (deref_live _ _ _ Ho). simpl.
    intros [Hin Hr]%QtProperty_findChild_loop_Some.
    split; [by eapply path_child|done]. }
  destruct (cls o); try by apply Hbase.
  unfold QtGroupProperty_findChild in Hrun.
  rewrite (deref_live _ _ _ Ho) in Hrun. simpl in Hrun.
  apply QtGroupProperty_findChild_loop_Some in Hrun as (c & Hin & Hround).
  unfold group_round in Hround.
  apply bind_Done in Hround as (oc & Hoc%deref_Done & Hround).
  destruct (decide (name = name_ oc)) as [Hn|Hn].
  - injection Hround as <-. split; [by eapply path_child|eauto].
  - destruct (decide (type_ oc = TYPE_GROUP)) as [Ht|Ht]; [|done].
    destruct (IH _ _ Hround) as [Hpath Hr]. split; [|done].
    by eapply path_step.
Qed.

Lemma findChild_group_found lvl N st name :
  linked st -> ranked lvl N st ->
  forall g q, path_via (is_group TYPE_GROUP) st g q ->
  forall fuel o oq, heap st !! g = Some o -> cls o = CQtGroupProperty ->
    heap st !! q = Some oq -> name_ oq = name -> (N - lvl g < fuel)%nat ->
    exists r, findChild TYPE_GROUP fuel g name st = Done (Some r).
Proof.
  intros Hl Hr g q Hpath.
  induction Hpath as [g o q Hg Hin|g o c oc q Hg Hin Hc [Hk Ht] Hpath IH];
    intros fuel o' oq Hg' Hcls Hq Hname Hfuel.
  all: assert (o' = o) as -> by congruence.
  all: destruct fuel as [|f]; [lia|].
  all: simpl; rewrite (deref_live _ _ _ Hg); simpl; rewrite Hcls.
  all: unfold QtGroupProperty_findChild; rewrite (deref_live _ _ _ Hg); simpl.
  all: assert (Htot : forall c', c' ∈ children_ o ->
         exists res, group_round TYPE_GROUP (findChild TYPE_GROUP f) st name c' = Done res).
  1,3: intros c' Hc'; destruct (linked_down _ Hl _ _ _ Hg Hc') as (oc' & Hoc' & Hpar);
       unfold group_round; rewrite (deref_live _ _ _ Hoc'); simpl;
       destruct (decide (name = name_ oc')); [eauto|];
       destruct (decide (type_ oc' = TYPE_GROUP)); [|eauto];
       apply (findChild_total lvl N st name Hl Hr f c' oc' Hoc');
       destruct (Hr c' oc' Hoc') as [? Hlt]; specialize (Hlt _ Hpar); lia.
  - eapply (QtGroupProperty_findChild_loop_found _ _ _ _ q q); [done..|].
    unfold group_round. rewrite (deref_live _ _ _ Hq). simpl.
    by rewrite decide_True.
  - destruct (linked_down _ Hl _ _ _ Hg Hin) as (oc' & Hoc' & Hpar).
    assert (oc' = oc) as -> by congruence.
    assert (Hf : (N - lvl c < f)%nat).
    { destruct (Hr c oc Hc) as [? Hlt]. specialize (Hlt _ Hpar). lia. }
    destruct (IH f oc oq Hc Hk Hq Hname Hf) as [r Hr'].
    destruct (decide (name = name_ oc)) as [Hn|Hn].
    + eapply (QtGroupProperty_findChild_loop_found _ _ _ _ c c); [done..|].
      unfold group_round. rewrite (deref_live _ _ _ Hc). simpl.
      by rewrite decide_True.
    + eapply (QtGroupProperty_findChild_loop_found _ _ _ _ c r); [done..|].
      unfold group_round. rewrite (deref_live _ _ _ Hc). simpl.
      rewrite decide_False by done. by rewrite decide_True.
Qed.

(** The first position of the walk that yields a match decides the result:
    what comes after it is not looked at. *)
Lemma QtGroupProperty_findChild_loop_first virt st name children :
  forall (i : nat) c r,
    children !! i = Some c ->
    (forall (j : nat) d, (j < i)%nat -> children !! j = Some d ->
       group_round TYPE_GROUP virt st name d = Done None) ->
    group_round TYPE_GROUP virt st name c = Done (Some r) ->
    QtGroupProperty_findChild_loop TYPE_GROUP virt st name children
      = Done (Some r).
Proof.
  induction children as [|c0 rest IH]; intros i c r Hi Hbefore Hc; [done|].
  rewrite QtGroupProperty_findChild_loop_cons.
  destruct i as [|i]; simpl in Hi.
  - injection Hi as ->. by rewrite Hc.
  - rewrite (Hbefore 0%nat c0) by (done || lia). simpl.
    apply (IH i c r Hi); [|done].
    intros j d Hj Hd. apply (Hbefore (S j) d); [lia|done].
Qed.

(** C6: a group's [findChild] walks its children in sequence order; at each
    position it first compares the name and otherwise recurses into the child
    only if the child is tagged as a group, and the first match ends the
    walk.  So a name is found at any depth behind group nodes only, and a name
    that occurs only behind a node without the group tag is not found. *)
Theorem QtGroupProperty_findChild_searches_groups lvl N st g o name :
  linked st -> ranked lvl N st ->
  heap st !! g = Some o -> cls o = CQtGroupProperty ->
  (* one position of the walk *)
  (forall fuel child rest,
     QtGroupProperty_findChild_loop TYPE_GROUP (findChild TYPE_GROUP fuel)
       st name (child :: rest) =
     (let* c := deref child st in
      let* result :=
        (if decide (name = name_ c) then Done (Some child)
         else if decide (type_ c = TYPE_GROUP)
              then findChild TYPE_GROUP fuel child name st
              else Done None) in
      match result with
      | Some _ => Done result
      | None =>
          QtGroupProperty_findChild_loop TYPE_GROUP
            (findChild TYPE_GROUP fuel) st name rest
      end)) /\
  (* the call returns *)
  (forall fuel, (N - lvl g < fuel)%nat ->
     exists res, findChild TYPE_GROUP fuel g name st = Done res) /\
  (* found behind groups, at any depth *)
  (forall q oq fuel,
     path_via (is_group TYPE_GROUP) st g q -> heap st !! q = Some oq -> name_ oq = name ->
     (N - lvl g < fuel)%nat ->
     exists r o', findChild TYPE_GROUP fuel g name st = Done (Some r) /\
       heap st !! r = Some o' /\ name_ o' = name) /\
  (* what is found lies behind tagged groups only *)
  (forall fuel r, findChild TYPE_GROUP fuel g name st = Done (Some r) ->
     path_via (tagged_group TYPE_GROUP) st g r) /\
  (* not found behind a node that is no group *)
  (forall fuel,
     (forall q oq, heap st !! q = Some oq -> name_ oq = name ->
        ~ path_via (tagged_group TYPE_GROUP) st g q) ->
     (N - lvl g < fuel)%nat ->
     findChild TYPE_GROUP fuel g name st = Done None) /\
  (* the call on the group is the walk over its own child sequence *)
  (forall fuel,
     findChild TYPE_GROUP (S fuel) g name st =
     QtGroupProperty_findChild_loop TYPE_GROUP (findChild TYPE_GROUP fuel)
       st name (children_ o)) /\
  (* sequence order: the first position that yields a match decides *)
  (forall fuel (i : nat) c r,
     children_ o !! i = Some c ->
     (forall (j : nat) d, (j < i)%nat -> children_ o !! j = Some d ->
        exists od, heap st !! d = Some od /\ name_ od <> name /\
          (type_ od = TYPE_GROUP ->
           findChild TYPE_GROUP fuel d name st = Done None)) ->
     (exists oc, heap st !! c = Some oc /\
        ((name_ oc = name /\ r = c) \/
         (name_ oc <> name /\ type_ oc = TYPE_GROUP /\
          findChild TYPE_GROUP fuel c name st = Done (Some r)))) ->
     findChild TYPE_GROUP (S fuel) g name st = Done (Some r)) /\
  (* and without a match at any position the answer is null *)
  (forall fuel,
     (forall c, c ∈ children_ o ->
        exists oc, heap st !! c = Some oc /\ name_ oc <> name /\
          (type_ oc = TYPE_GROUP ->
           findChild TYPE_GROUP fuel c name st = Done None)) ->
     findChild TYPE_GROUP (S fuel) g name st = Done None).
Proof.
  intros Hl Hr Hg Hcls.
  assert (Hwalk : forall fuel,
     findChild TYPE_GROUP (S fuel) g name st =
     QtGroupProperty_findChild_loop TYPE_GROUP (findChild TYPE_GROUP fuel)
       st name (children_ o)).
  { intros fuel. simpl. rewrite (deref_live _ _ _ Hg). simpl. rewrite Hcls.
    unfold QtGroupProperty_findChild. by rewrite (deref_live _ _ _ Hg). }
  assert (Hmiss : forall fuel d od, heap st !! d = Some od ->
     name_ od <> name ->
     (type_ od = TYPE_GROUP ->
      findChild TYPE_GROUP fuel d name st = Done None) ->
     group_round TYPE_GROUP (findChild TYPE_GROUP fuel) st name d = Done None).
  { intros fuel d od Hd Hn Hsub. unfold group_round.
    rewrite (deref_live _ _ _ Hd). simpl.
    rewrite decide_False by congruence.
    destruct (decide (type_ od = TYPE_GROUP)); [by apply Hsub|done]. }
  split_and!.
  - intros fuel child rest. simpl. by destruct (deref child st).
  - intros fuel Hf. by eapply findChild_total.
  - intros q oq fuel Hpath Hq Hname Hf.
    destruct (findChild_group_found lvl N st name Hl Hr g q Hpath fuel o oq)
      as [r Hrun]; [done..|].
    destruct (findChild_Some_path _ _ _ _ _ Hrun) as (_ & o' & Ho' & Hn).
    by exists r, o'.
  - intros fuel r Hrun. by apply findChild_Some_path in Hrun as [? _].
  - intros fuel Hnone Hf.
    destruct (findChild_total lvl N st name Hl Hr fuel g o Hg Hf)
      as [[r|] Hrun]; [|done].
    destruct (findChild_Some_path _ _ _ _ _ Hrun) as (Hpath & o' & Ho' & Hn).
    by destruct (Hnone r o' Ho' Hn).
  - exact Hwalk.
  - intros fuel i c r Hi Hbefore (oc & Hoc & Hhit). rewrite Hwalk.
    apply (QtGroupProperty_findChild_loop_first _ _ _ _ i c r Hi).
    + intros j d Hj Hd. destruct (Hbefore j d Hj Hd) as (od & Hod & Hn & Hsub).
      by apply (Hmiss fuel d od).
    + unfold group_round. rewrite (deref_live _ _ _ Hoc). simpl.
      destruct Hhit as [[Hn ->]|(Hn & Ht & Hsub)].
      * by rewrite decide_True by done.
      * rewrite decide_False by congruence. by rewrite decide_True by done.
  - intros fuel Hnone. rewrite Hwalk.
    assert (Hall : forall c, c ∈ children_ o ->
      group_round TYPE_GROUP (findChild TYPE_GROUP fuel) st name c = Done None).
    { intros c Hc. destruct (Hnone c Hc) as (oc & Hoc & Hn & Hsub).
      by apply (Hmiss fuel c oc). }
    revert Hall. generalize (children_ o). intros l Hall.
    induction l as [|c l IH]; [done|].
    rewrite QtGroupProperty_findChild_loop_cons.
    rewrite (Hall c) by left. simpl. apply IH. intros; apply Hall; by right.
Qed.

End GroupLookup.

(** * Values: what a run may touch *)

Lemma same_shape_refl st : same_shape st st.
Proof. by split. Qed.

Lemma same_shape_trans st1 st2 st3 :
  same_shape st1 st2 -> same_shape st2 st3 -> same_shape st1 st3.
Proof. intros [E1 H1] [E2 H2]. split; [congruence|]. intros q. by rewrite H2. Qed.

Lemma same_shape_sym st1 st2 : same_shape st1 st2 -> same_shape st2 st1.
Proof. intros [E1 H1]. split; [done|]. intros q. by rewrite H1. Qed.

Lemma skeleton_fields o o' :
  skeleton o' = skeleton o ->
  cls o' = cls o /\ type_ o' = type_ o /\ name_ o' = name_ o /\
  children_ o' = children_ o /\ parent_ o' = parent_ o /\
  o' = set_value (value_ o') o.
Proof.
  destruct o, o'. unfold skeleton, set_value. simpl. intros [=]. by subst.
Qed.

Lemma same_shape_lookup st st' q o :
  same_shape st st' -> heap st !! q = Some o ->
  exists o', heap st' !! q = Some o' /\ skeleton o' = skeleton o.
Proof.
  intros [_ H] Hq. specialize (H q). rewrite Hq in H.
  destruct (heap st' !! q) as [o'|]; [|done]. simpl in H.
  exists o'. split; [done|]. congruence.
Qed.

Lemma same_shape_modify_value st p v :
  same_shape st (modify p (set_value v) st).
Proof.
  split; [done|]. intros q. rewrite heap_modify. case_decide; [subst|done].
  by destruct (heap st !! q) as [[]|].
Qed.

Lemma same_shape_record st s e : same_shape st (record s e st).
Proof. by split. Qed.

Lemma same_shape_child_of st st' c p :
  same_shape st st' -> child_of st c p -> child_of st' c p.
Proof.
  intros Hs (oc & Hoc & Hpar).
  destruct (same_shape_lookup _ _ _ _ Hs Hoc) as (oc' & Hoc' & Hsk).
  apply skeleton_fields in Hsk as (_ & _ & _ & _ & Hp & _).
  exists oc'. split; [done|congruence].
Qed.

Lemma same_shape_above st st' c a :
  same_shape st st' -> above st c a -> above st' c a.
Proof.
  intros Hs. induction 1.
  - apply above_parent. by eapply same_shape_child_of.
  - eapply above_step; [by eapply same_shape_child_of|done].
Qed.

Lemma same_shape_below st st' c q :
  same_shape st st' -> below st c q -> below st' c q.
Proof. intros Hs [->|H]; [by left|right]. by eapply same_shape_above. Qed.

Lemma same_shape_linked st st' : same_shape st st' -> linked st -> linked st'.
Proof.
  intros Hs Hl. pose proof (same_shape_sym _ _ Hs) as Hs'. split.
  - intros p o' c Hp Hin.
    destruct (same_shape_lookup _ _ _ _ Hs' Hp) as (o & Ho & Hsk).
    apply skeleton_fields in Hsk as (_ & _ & _ & Hch & _).
    eapply same_shape_child_of; [done|].
    eapply linked_down; [done..|]. congruence.
  - intros c oc' p Hc Hpar.
    destruct (same_shape_lookup _ _ _ _ Hs' Hc) as (oc & Hoc & Hsk).
    apply skeleton_fields in Hsk as (_ & _ & _ & _ & Hp & _).
    destruct (linked_up _ Hl c oc p Hoc) as (o & Ho & Hin); [congruence|].
    destruct (same_shape_lookup _ _ _ _ Hs Ho) as (o' & Ho' & Hsk).
    apply skeleton_fields in Hsk as (_ & _ & _ & Hch & _).
    exists o'. split; [done|congruence].
  - intros p o' Hp.
    destruct (same_shape_lookup _ _ _ _ Hs' Hp) as (o & Ho & Hsk).
    apply skeleton_fields in Hsk as (_ & _ & _ & Hch & _).
    rewrite <- Hch. by eapply linked_nodup.
Qed.

Lemma same_shape_connected_up st st' :
  same_shape st st' -> connected_up st -> connected_up st'.
Proof.
  intros Hs Hc s r Hin. eapply same_shape_child_of; [done|].
  apply Hc. destruct Hs as [E _]. by rewrite <- E.
Qed.

Lemma same_shape_ranked lvl N st st' :
  same_shape st st' -> ranked lvl N st -> ranked lvl N st'.
Proof.
  intros Hs Hr q o' Hq. pose proof (same_shape_sym _ _ Hs) as Hs'.
  destruct (same_shape_lookup _ _ _ _ Hs' Hq) as (o & Ho & Hsk).
  apply skeleton_fields in Hsk as (_ & _ & _ & _ & Hp & _).
  destruct (Hr q o Ho) as [HN Hlt]. split; [done|].
  intros p Hpar. apply Hlt. congruence.
Qed.

Lemma same_shape_receivers st st' s :
  same_shape st st' -> receivers s st' = receivers s st.
Proof. intros [E _]. unfold receivers. by rewrite E. Qed.

Lemma same_shape_forest lvl N st st' :
  same_shape st st' -> forest lvl N st -> forest lvl N st'.
Proof.
  intros Hs [H1 H2 H3]. split;
    eauto using same_shape_linked, same_shape_connected_up, same_shape_ranked.
Qed.

Lemma child_of_rank lvl N st c p :
  ranked lvl N st -> child_of st c p -> (lvl p < lvl c)%nat.
Proof. intros Hr (oc & Hoc & Hpar). by apply (Hr c oc Hoc). Qed.

Lemma above_rank lvl N st c a :
  ranked lvl N st -> above st c a -> (lvl a < lvl c)%nat.
Proof.
  intros Hr. induction 1 as [c p H|c p a H _ IH].
  - by eapply child_of_rank.
  - pose proof (child_of_rank _ _ _ _ _ Hr H). lia.
Qed.

Lemma below_rank lvl N st c q :
  ranked lvl N st -> below st c q -> (lvl c <= lvl q)%nat.
Proof.
  intros Hr [->|H]; [lia|]. pose proof (above_rank _ _ _ _ _ Hr H). lia.
Qed.

Lemma above_trans st c a b : above st c a -> above st a b -> above st c b.
Proof.
  induction 1 as [c p H|c p a H _ IH]; intros Hab.
  - by eapply above_step.
  - eapply above_step; [done|]. by apply IH.
Qed.

Lemma child_of_fun st c p p' : child_of st c p -> child_of st c p' -> p = p'.
Proof. intros (o & Ho & Hp) (o' & Ho' & Hp'). congruence. Qed.

Lemma above_child st c p a :
  child_of st c p -> above st c a -> a = p \/ above st p a.
Proof.
  intros Hc Ha. inversion Ha as [c' p' H|c' p' a' H Hup]; subst.
  - left. by eapply child_of_fun.
  - right. by rewrite (child_of_fun _ _ _ _ Hc H).
Qed.

Lemma below_child st c p q : child_of st c p -> below st c q -> above st q p.
Proof.
  intros Hc [->|Hq]; [by apply above_parent|].
  eapply above_trans; [done|]. by apply above_parent.
Qed.

(** Two nodes above the same node lie on one line. *)
Lemma above_linear st q a b :
  above st q a -> above st q b -> a = b \/ above st a b \/ above st b a.
Proof.
  induction 1 as [c p H|c p a H Hup IH]; intros Hb.
  - destruct (above_child _ _ _ _ H Hb) as [->|?]; auto.
  - destruct (above_child _ _ _ _ H Hb) as [->|Hb']; [|by apply IH].
    right. by right.
Qed.

(** The subtrees of two different children of one node share nothing. *)
Lemma siblings_disjoint lvl N st c1 c2 g q :
  ranked lvl N st -> child_of st c1 g -> child_of st c2 g -> c1 <> c2 ->
  below st c1 q -> below st c2 q -> False.
Proof.
  intros Hr H1 H2 Hne [->|Hq1] [E|Hq2].
  - done.
  - destruct (above_child _ _ _ _ H1 Hq2) as [->|Hup].
    + pose proof (child_of_rank _ _ _ _ _ Hr H2). lia.
    + pose proof (above_rank _ _ _ _ _ Hr Hup).
      pose proof (child_of_rank _ _ _ _ _ Hr H2). lia.
  - subst q. destruct (above_child _ _ _ _ H2 Hq1) as [->|Hup].
    + pose proof (child_of_rank _ _ _ _ _ Hr H1). lia.
    + pose proof (above_rank _ _ _ _ _ Hr Hup).
      pose proof (child_of_rank _ _ _ _ _ Hr H1). lia.
  - destruct (above_linear _ _ _ _ Hq1 Hq2) as [E|[Hup|Hup]]; [done| |].
    + destruct (above_child _ _ _ _ H1 Hup) as [->|Hup'].
      * pose proof (child_of_rank _ _ _ _ _ Hr H2). lia.
      * pose proof (above_rank _ _ _ _ _ Hr Hup').
        pose proof (child_of_rank _ _ _ _ _ Hr H2). lia.
    + destruct (above_child _ _ _ _ H2 Hup) as [->|Hup'].
      * pose proof (child_of_rank _ _ _ _ _ Hr H1). lia.
      * pose proof (above_rank _ _ _ _ _ Hr Hup').
        pose proof (child_of_rank _ _ _ _ _ Hr H1). lia.
Qed.

Lemma touches_refl S st : touches S st st.
Proof.
  split; [apply same_shape_refl|]. split; [done|].
  exists []. by rewrite app_nil_r.
Qed.

Lemma touches_mono (S S' : ptr -> Prop) st st' :
  (forall q, S q -> S' q) -> touches S st st' -> touches S' st st'.
Proof.
  intros HS (Hs & Hfr & new & Hem & Hall). split; [done|]. split.
  - intros q Hq. apply Hfr. auto.
  - exists new. split; [done|]. eapply Forall_impl; [done|]. simpl. auto.
Qed.

Lemma touches_trans S st1 st2 st3 :
  touches S st1 st2 -> touches S st2 st3 -> touches S st1 st3.
Proof.
  intros (Hs1 & Hf1 & n1 & He1 & Ha1) (Hs2 & Hf2 & n2 & He2 & Ha2).
  split; [by eapply same_shape_trans|]. split.
  - intros q Hq. rewrite Hf2, Hf1 by done. done.
  - exists (n1 ++ n2). split; [by rewrite He2, He1, app_assoc|].
    by apply Forall_app.
Qed.

Lemma touches_modify_value (S : ptr -> Prop) st p v :
  S p -> touches S st (modify p (set_value v) st).
Proof.
  intros Hp. split; [apply same_shape_modify_value|]. split.
  - intros q Hq. rewrite heap_modify. case_decide; [by subst|done].
  - exists []. by rewrite app_nil_r.
Qed.

Lemma touches_record (S : ptr -> Prop) st s e :
  S s -> touches S st (record s e st).
Proof.
  intros Hs. split; [apply same_shape_record|]. split; [done|].
  exists [(s, e)]. split; [done|]. by constructor.
Qed.

Lemma foreach_inv {A : Type} (I : State -> Prop) (l : list A) body st st' :
  I st ->
  (forall x s s', x ∈ l -> I s -> body x s = Done s' -> I s') ->
  foreach l body st = Done st' -> I st'.
Proof.
  revert st. induction l as [|x l IH]; intros st HI Hstep Hrun; simpl in Hrun.
  - by injection Hrun as <-.
  - apply bind_Done in Hrun as (s1 & Hx & Hrun).
    eapply IH; [|intros; eapply Hstep; [by right|done..]|done].
    eapply Hstep; [left|done..].
Qed.

Lemma foreach_total {A : Type} (I : State -> Prop) (l : list A) body st :
  I st ->
  (forall x s, x ∈ l -> I s -> exists s', body x s = Done s' /\ I s') ->
  exists st', foreach l body st = Done st' /\ I st'.
Proof.
  revert st. induction l as [|x l IH]; intros st HI Hstep; simpl.
  - by exists st.
  - destruct (Hstep x st) as (s1 & Hx & HI1); [left|done|].
    rewrite Hx. simpl. apply IH; [done|]. intros; apply Hstep; [by right|done].
Qed.

(** * Sequences: padding and positions *)

Lemma ensureSize_loop_app n (l : list QVariant) :
  ensureSize_loop n l = l ++ replicate n Invalid.
Proof.
  revert l. induction n as [|n IH]; intros l; simpl.
  - by rewrite app_nil_r.
  - by rewrite IH, <- app_assoc.
Qed.

Lemma ensureSize_app (l : list QVariant) size :
  ensureSize l size =
  l ++ replicate (Z.to_nat (size - Z.of_nat (length l))) Invalid.
Proof. apply ensureSize_loop_app. Qed.

Lemma ensureSize_length (l : list QVariant) size :
  length (ensureSize l size) = (length l `max` Z.to_nat size)%nat.
Proof. rewrite ensureSize_app, length_app, length_replicate. lia. Qed.

(** Within the padded range a position reads the stored element, or a
    default-constructed value past the end of what was stored. *)
Lemma ensureSize_lookup (l : list QVariant) size (i : nat) :
  Z.of_nat i < size ->
  ensureSize l size !! i = Some (default Invalid (l !! i)).
Proof.
  intros Hi. rewrite ensureSize_app.
  destruct (decide (i < length l)%nat) as [Hlt|Hge].
  - rewrite lookup_app_l by done.
    destruct (lookup_lt_is_Some_2 l i Hlt) as [x Hx]. by rewrite Hx.
  - rewrite lookup_app_r by lia.
    rewrite (lookup_ge_None_2 l i) by lia. simpl.
    apply lookup_replicate_2. lia.
Qed.

Lemma indexOf_lookup (l : list nat) (i : nat) x :
  NoDup l -> l !! i = Some x -> indexOf l x = Z.of_nat i.
Proof.
  intros Hnd Hi. unfold indexOf.
  destruct (list_find_eq_Some l x) as (j & Hf & Hj);
    [by eapply list_elem_of_lookup_2|].
  rewrite Hf. f_equal. eapply NoDup_lookup; eauto.
Qed.

Lemma indexOf_nonneg (l : list nat) x :
  0 <= indexOf l x -> l !! Z.to_nat (indexOf l x) = Some x.
Proof.
  unfold indexOf. destruct (list_find _ l) as [[i y]|] eqn:Hf; [|lia].
  intros _. apply list_find_Some in Hf as (Hi & -> & _).
  by rewrite Nat2Z.id.
Qed.

(** * Notification: a change travels upward only *)

Lemma receivers_parent st s r :
  connected_up st -> r ∈ receivers s st -> child_of st s r.
Proof.
  intros Hc Hin. unfold receivers in Hin.
  apply list_elem_of_fmap in Hin as ([s' r'] & -> & Hin).
  apply list_elem_of_filter in Hin as [Hs Hin]. simpl in Hs. subst s'.
  by apply Hc.
Qed.

Lemma emits_up_touches s a st st' :
  emits_up s a st st' -> touches (fun q => q = s \/ above st s q) st st'.
Proof.
  intros (Hs & Hfr & new & Hem & Hall). split; [done|]. split.
  - intros q Hq. apply Hfr. tauto.
  - exists ((s, signalValueChange a) :: new). split; [done|].
    constructor; [by left|]. eapply Forall_impl; [done|]. simpl. tauto.
Qed.

Lemma touches_shape S st st' : touches S st st' -> same_shape st st'.
Proof. by intros [? _]. Qed.

Section Upward.

Variable emit : ptr -> ptr -> State -> Result State.
Hypothesis emit_up : forall s a st st',
  connected_up st -> emit s a st = Done st' -> emits_up s a st st'.

Lemma store_then_emit_up r v st st' :
  connected_up st ->
  emit r r (modify r (set_value v) st) = Done st' ->
  touches (fun q => q = r \/ above st r q) st st'.
Proof.
  intros Hc Hrun.
  pose proof (same_shape_modify_value st r v) as Hs.
  apply emit_up in Hrun; [|by eapply same_shape_connected_up].
  apply emits_up_touches in Hrun.
  eapply touches_trans; [apply touches_modify_value; by left|].
  eapply touches_mono; [|exact Hrun]. intros q [->|Hq]; [by left|right].
  eapply same_shape_above; [|exact Hq]. by apply same_shape_sym.
Qed.

Lemma slotChildValueChange_up r a st st' :
  connected_up st ->
  slotChildValueChange emit r a st = Done st' ->
  touches (fun q => q = r \/ above st r q) st st'.
Proof.
  intros Hc Hrun. unfold slotChildValueChange in Hrun.
  apply bind_Done in Hrun as (o & Ho%deref_Done & Hrun).
  destruct (cls o).
  - injection Hrun as <-. apply touches_refl.
  - unfold QtListProperty_slotChildValueChange in Hrun.
    rewrite (deref_live _ _ _ Ho) in Hrun. simpl in Hrun.
    destruct (decide (0 <= indexChild o a)); [|injection Hrun as <-; apply touches_refl].
    apply bind_Done in Hrun as (oc & Hoc%deref_Done & Hrun).
    destruct (ensureSize _ _ !! _) as [old|]; [|done].
    destruct (decide (old <> value_ oc)); [|injection Hrun as <-; apply touches_refl].
    by eapply store_then_emit_up.
  - unfold QtDictProperty_slotChildValueChange in Hrun.
    rewrite (deref_live _ _ _ Ho) in Hrun. simpl in Hrun.
    apply bind_Done in Hrun as (oc & Hoc%deref_Done & Hrun).
    destruct (decide (value_ oc <> _)); [|injection Hrun as <-; apply touches_refl].
    by eapply store_then_emit_up.
  - unfold QtGroupProperty_slotChildValueChange in Hrun.
    apply emit_up in Hrun; [|done]. by eapply emits_up_touches.
Qed.

Lemma receivers_loop_up s a rs st st' :
  connected_up st -> (forall r, r ∈ rs -> child_of st s r) ->
  foreach rs (fun r => slotChildValueChange emit r a) st = Done st' ->
  touches (above st s) st st'.
Proof.
  intros Hc Hrs Hrun.
  eapply (foreach_inv (fun s' => touches (above st s) st s')); [| |exact Hrun].
  - apply touches_refl.
  - intros r s1 s2 Hr Hinv Hstep. eapply touches_trans; [exact Hinv|].
    pose proof (touches_shape _ _ _ Hinv) as Hs.
    apply slotChildValueChange_up in Hstep;
      [|by eapply same_shape_connected_up].
    eapply touches_mono; [|exact Hstep]. intros q Hq.
    assert (Hq' : q = r \/ above st r q).
    { destruct Hq as [?|Hq]; [by left|right].
      eapply same_shape_above; [|exact Hq]. by apply same_shape_sym. }
    destruct Hq' as [->|Hq'].
    + apply above_parent. by apply Hrs.
    + eapply above_step; [by apply Hrs|done].
Qed.

End Upward.

Lemma emitValueChange_up fuel :
  forall s a st st', connected_up st ->
    emitValueChange fuel s a st = Done st' -> emits_up s a st st'.
Proof.
  induction fuel as [|f IH]; intros s a st st' Hc Hrun; [done|].
  simpl in Hrun.
  set (st1 := record s (signalValueChange a) st) in *.
  assert (Hc1 : connected_up st1)
    by (eapply same_shape_connected_up; [apply same_shape_record|done]).
  apply (receivers_loop_up _ IH s a) in Hrun;
    [|done|intros r Hr; by apply (receivers_parent st1)].
  destruct Hrun as (Hs & Hfr & new & Hem & Hall).
  assert (Hback : forall q, above st1 s q -> above st s q).
  { intros q. apply same_shape_above, same_shape_sym, same_shape_record. }
  split; [by eapply same_shape_trans; [apply same_shape_record|]|].
  split.
  - intros q Hq. rewrite Hfr; [done|]. intros Hab. apply Hq.
    eapply same_shape_above; [|exact Hab]. by split.
  - exists new. split.
    + rewrite Hem. unfold st1. simpl. by rewrite <- app_assoc.
    + eapply Forall_impl; [exact Hall|]. intros e. apply Hback.
Qed.

(** In a forest an emission returns: each level spends one unit of fuel. *)
Lemma emitValueChange_total lvl N :
  forall fuel s a st oa, forest lvl N st -> heap st !! a = Some oa ->
    (lvl s < fuel)%nat -> exists st', emitValueChange fuel s a st = Done st'.
Proof.
  induction fuel as [|f IH]; intros s a st oa Hf Ha Hfuel; [lia|].
  simpl.
  set (st1 := record s (signalValueChange a) st).
  assert (Hf1 : forest lvl N st1).
  { eapply same_shape_forest; [apply same_shape_record|done]. }
  assert (Hrs : forall r, r ∈ receivers s st1 -> child_of st s r).
  { intros r Hr. apply (receivers_parent st1); [apply Hf1|done]. }
  revert Hrs. generalize (receivers s st1). intros rs Hrs.
  destruct (foreach_total
    (fun s' => same_shape st s') rs
    (fun r => slotChildValueChange (emitValueChange f) r a) st1)
    as (st' & Hrun & _); [apply same_shape_record| |by exists st'].
  intros r s1 Hr Hs1.
  pose proof (same_shape_forest _ _ _ _ Hs1 Hf) as Hfs1.
  assert (Halive : forall q o, heap st !! q = Some o ->
    exists o', heap s1 !! q = Some o').
  { intros q o Hq. destruct (same_shape_lookup _ _ _ _ Hs1 Hq) as (o' & ? & _).
    eauto. }
  pose proof (Hrs r Hr) as Hchild.
  pose proof (child_of_rank _ _ _ _ _ (forest_ranked _ _ _ Hf) Hchild) as Hlt.
  destruct Hchild as (os & Hos & Hpar).
  destruct (linked_up _ (forest_linked _ _ _ Hf) _ _ _ Hos Hpar)
    as (or0 & Hor0 & _).
  destruct (Halive r or0 Hor0) as (or & Hor).
  destruct (Halive a oa Ha) as (oa1 & Hoa1).
  assert (Hemit : forall v, exists s2,
    emitValueChange f r r (modify r (set_value v) s1) = Done s2 /\
    same_shape st s2).
  { intros v. pose proof (same_shape_modify_value s1 r v) as Hsm.
    destruct (IH r r (modify r (set_value v) s1) (set_value v or)) as [s2 Hs2].
    - by eapply same_shape_forest.
    - rewrite heap_modify, decide_True by done. by rewrite Hor.
    - lia.
    - exists s2. split; [done|].
      eapply same_shape_trans; [exact Hs1|].
      eapply same_shape_trans; [exact Hsm|].
      apply emitValueChange_up in Hs2 as [? _]; [done|].
      eapply same_shape_connected_up; [exact Hsm|apply Hfs1]. }
  unfold slotChildValueChange. rewrite (deref_live _ _ _ Hor). simpl.
  destruct (cls or).
  - by exists s1.
  - unfold QtListProperty_slotChildValueChange.
    rewrite (deref_live _ _ _ Hor). simpl.
    destruct (decide (0 <= indexChild or a)) as [Hi|]; [|by exists s1].
    rewrite (deref_live _ _ _ Hoa1). simpl.
    rewrite ensureSize_lookup by lia. destruct (decide _); [|by exists s1].
    apply Hemit.
  - unfold QtDictProperty_slotChildValueChange.
    rewrite (deref_live _ _ _ Hor). simpl.
    rewrite (deref_live _ _ _ Hoa1). simpl.
    destruct (decide _); [|by exists s1]. apply Hemit.
  - unfold QtGroupProperty_slotChildValueChange.
    destruct (IH r a s1 oa1) as [s2 Hs2]; [done|done|lia|].
    exists s2. split; [done|]. eapply same_shape_trans; [exact Hs1|].
    apply emitValueChange_up in Hs2 as [? _]; [done|apply Hfs1].
Qed.

Lemma sent_by_none p (new : list (ptr * Signal)) :
  Forall (fun e => e.1 <> p) new -> sent_by p new = [].
Proof.
  unfold sent_by. induction 1 as [|e new He _ IH]; [done|].
  rewrite filter_cons. by rewrite decide_False.
Qed.

Lemma sent_by_app p (l1 l2 : list (ptr * Signal)) :
  sent_by p (l1 ++ l2) = sent_by p l1 ++ sent_by p l2.
Proof. apply filter_app. Qed.

Lemma sent_by_cons_eq p s (new : list (ptr * Signal)) :
  sent_by p ((p, s) :: new) = (p, s) :: sent_by p new.
Proof. unfold sent_by. rewrite filter_cons. by rewrite decide_True. Qed.

(** An emission by [p] in a forest: [p] is the sender of the first entry
    only, and its own record stays as it is. *)
Lemma emitValueChange_own lvl N fuel p a st oa :
  forest lvl N st -> heap st !! a = Some oa -> (lvl p < fuel)%nat ->
  exists st' new,
    emitValueChange fuel p a st = Done st' /\
    same_shape st st' /\
    heap st' !! p = heap st !! p /\
    emitted st' = emitted st ++ new /\
    sent_by p new = [(p, signalValueChange a)].
Proof.
  intros Hf Ha Hfuel.
  destruct (emitValueChange_total lvl N fuel p a st oa Hf Ha Hfuel)
    as [st' Hrun].
  pose proof (emitValueChange_up _ _ _ _ _ (forest_connected _ _ _ Hf) Hrun)
    as (Hs & Hfr & new & Hem & Hall).
  assert (Hirr : forall q, above st p q -> q <> p).
  { intros q Hq ->.
    pose proof (above_rank _ _ _ _ _ (forest_ranked _ _ _ Hf) Hq). lia. }
  exists st', ((p, signalValueChange a) :: new). split_and!; try done.
  - apply Hfr. intros Hq. by apply (Hirr p).
  - rewrite sent_by_cons_eq, sent_by_none; [done|].
    eapply Forall_impl; [exact Hall|]. intros e. apply Hirr.
Qed.

(** * [QtProperty::setValue] *)

(** C1: [QtProperty::setValue] with a value equal to the current one changes
    nothing and emits nothing; with a different value it stores the value and
    the node emits [signalValueChange] for itself exactly once.  A second
    call with the same value is then silent, so two successive calls with
    equal values notify at most once.  This is the body every node runs that
    does not override [setValue], a plain [QtProperty] in particular. *)
Theorem QtProperty_setValue_notifies_on_change lvl N st this o v :
  forest lvl N st -> heap st !! this = Some o ->
  (v = value_ o -> forall fuel,
     QtProperty_setValue (emitValueChange fuel) this v st = Done st) /\
  (v <> value_ o -> forall fuel, (lvl this < fuel)%nat ->
     exists st' new,
       QtProperty_setValue (emitValueChange fuel) this v st = Done st' /\
       heap st' !! this = Some (set_value v o) /\
       emitted st' = emitted st ++ new /\
       sent_by this new = [(this, signalValueChange this)] /\
       QtProperty_setValue (emitValueChange fuel) this v st' = Done st') /\
  (cls o = CQtProperty -> forall fuel,
     setValue (S fuel) this v st =
     QtProperty_setValue (emitValueChange fuel) this v st).
Proof.
  intros Hf Ho. split_and!.
  - intros -> fuel.
    unfold QtProperty_setValue. rewrite (deref_live _ _ _ Ho). simpl.
    by rewrite decide_False by (by intros ?).
  - intros Hne fuel Hfuel.
    set (st1 := modify this (set_value v) st).
    assert (Ho1 : heap st1 !! this = Some (set_value v o)).
    { unfold st1. rewrite heap_modify, decide_True by done. by rewrite Ho. }
    assert (Hf1 : forest lvl N st1).
    { eapply same_shape_forest; [apply same_shape_modify_value|done]. }
    destruct (emitValueChange_own lvl N fuel this this st1 _ Hf1 Ho1 Hfuel)
      as (st' & new & Hrun & Hs & Hown & Hem & Hsent).
    exists st', new.
    assert (Hfirst :
      QtProperty_setValue (emitValueChange fuel) this v st = Done st').
    { unfold QtProperty_setValue. rewrite (deref_live _ _ _ Ho). simpl.
      by rewrite decide_True by congruence. }
    assert (Ho' : heap st' !! this = Some (set_value v o)) by by rewrite Hown.
    split_and!; try done.
    unfold QtProperty_setValue. rewrite (deref_live _ _ _ Ho'). simpl.
    by rewrite decide_False by (by intros ?).
  - intros Hk fuel. simpl. rewrite (deref_live _ _ _ Ho). simpl.
    by rewrite Hk.
Qed.

(** * A child of a list reports a change *)

(** C4: when the child at position [i] of a list reports a change, the slot
    pads the stored sequence to at least [i+1] elements.  If the element at
    position [i] differs from the child's value it replaces that element
    alone, stores the sequence and the list emits one [signalValueChange];
    otherwise nothing is stored and nothing is emitted. *)
Theorem QtListProperty_slotChildValueChange_updates_position
  lvl N st this o child oc (i : nat) :
  forest lvl N st -> heap st !! this = Some o -> cls o = CQtListProperty ->
  children_ o !! i = Some child -> heap st !! child = Some oc ->
  let valueList := ensureSize (toList (value_ o)) (Z.of_nat i + 1) in
  (i < length valueList)%nat /\
  (forall j x, toList (value_ o) !! j = Some x -> valueList !! j = Some x) /\
  (valueList !! i = Some (value_ oc) -> forall fuel,
     slotChildValueChange (emitValueChange fuel) this child st = Done st) /\
  (valueList !! i <> Some (value_ oc) ->
   forall fuel, (lvl this < fuel)%nat ->
     exists st' new,
       slotChildValueChange (emitValueChange fuel) this child st = Done st' /\
       heap st' !! this =
         Some (set_value (VList (<[i := value_ oc]> valueList)) o) /\
       <[i := value_ oc]> valueList !! i = Some (value_ oc) /\
       (forall j, j <> i ->
          <[i := value_ oc]> valueList !! j = valueList !! j) /\
       length (<[i := value_ oc]> valueList) = length valueList /\
       emitted st' = emitted st ++ new /\
       sent_by this new = [(this, signalValueChange this)]).
Proof.
  intros Hf Ho Hk Hi Hoc valueList.
  assert (Hidx : indexChild o child = Z.of_nat i).
  { apply indexOf_lookup; [|done].
    by eapply linked_nodup; [apply Hf|]. }
  assert (Hlen : (i < length valueList)%nat).
  { unfold valueList. rewrite ensureSize_length. lia. }
  assert (Hslot : forall emit,
    slotChildValueChange emit this child st =
    match valueList !! i with
    | Some old =>
        if decide (old <> value_ oc) then
          emit this this
            (modify this
               (set_value (VList (<[i := value_ oc]> valueList))) st)
        else Done st
    | None => Fault
    end).
  { intros emit. unfold slotChildValueChange.
    rewrite (deref_live _ _ _ Ho). simpl. rewrite Hk.
    unfold QtListProperty_slotChildValueChange.
    rewrite (deref_live _ _ _ Ho). simpl. rewrite Hidx.
    rewrite decide_True by lia. rewrite (deref_live _ _ _ Hoc). simpl.
    by rewrite Nat2Z.id. }
  split_and!.
  - done.
  - intros j x Hj. unfold valueList. rewrite ensureSize_app.
    by apply lookup_app_l_Some.
  - intros Hsame fuel. rewrite Hslot, Hsame.
    by rewrite decide_False by (by intros ?).
  - intros Hdiff fuel Hfuel. rewrite Hslot.
    destruct (valueList !! i) as [old|] eqn:Hold;
      [|by apply lookup_lt_is_Some_2 in Hlen as [? ?]; congruence].
    rewrite decide_True by congruence.
    set (st1 := modify this _ st).
    assert (Ho1 : heap st1 !! this =
      Some (set_value (VList (<[i := value_ oc]> valueList)) o)).
    { unfold st1. rewrite heap_modify, decide_True by done. by rewrite Ho. }
    assert (Hf1 : forest lvl N st1).
    { eapply same_shape_forest; [apply same_shape_modify_value|done]. }
    destruct (emitValueChange_own lvl N fuel this this st1 _ Hf1 Ho1 Hfuel)
      as (st' & new & Hrun & Hs & Hown & Hem & Hsent).
    exists st', new. split_and!; try done.
    + by rewrite Hown.
    + by apply list_lookup_insert_eq.
    + intros j Hj. by apply list_lookup_insert_ne.
    + apply length_insert.
Qed.

(** * [setValue] pushed down a subtree *)

Lemma set_value_same o : set_value (value_ o) o = o.
Proof. by destruct o. Qed.

Lemma settled_silent emit st r c x oc :
  settled st r c x -> heap st !! c = Some oc -> value_ oc = x ->
  slotChildValueChange emit r c st = Done st.
Proof.
  unfold settled, slotChildValueChange. intros Hset Hc Hx.
  destruct (heap st !! r) as [o|] eqn:Ho; [|done].
  rewrite (deref_live _ _ _ Ho). simpl.
  destruct (cls o); [done| | |done].
  - unfold QtListProperty_slotChildValueChange.
    rewrite (deref_live _ _ _ Ho). simpl. unfold indexChild.
    destruct (decide (0 <= indexOf (children_ o) c)) as [Hi|]; [|done].
    rewrite (deref_live _ _ _ Hc). simpl.
    rewrite ensureSize_lookup by lia.
    rewrite (Hset _ (indexOf_nonneg _ _ Hi)).
    by rewrite decide_False by (intros H; by apply H).
  - unfold QtDictProperty_slotChildValueChange.
    rewrite (deref_live _ _ _ Ho). simpl.
    rewrite (deref_live _ _ _ Hc). simpl.
    rewrite (Hset _ Hc). by rewrite decide_False by (intros H; by apply H).
Qed.

Lemma foreach_silent {A : Type} (l : list A) body st :
  (forall x, x ∈ l -> body x st = Done st) -> foreach l body st = Done st.
Proof.
  induction l as [|x l IH]; intros H; simpl; [done|].
  rewrite H by left. simpl. apply IH. intros; apply H; by right.
Qed.

Lemma emitValueChange_settled f c x st oc :
  (forall r, r ∈ receivers c st -> settled st r c x) ->
  heap st !! c = Some oc -> value_ oc = x ->
  emitValueChange (S f) c c st = Done (record c (signalValueChange c) st).
Proof.
  intros Hset Hc Hx. simpl. apply foreach_silent. intros r Hr.
  eapply settled_silent; [|exact Hc|exact Hx]. by apply Hset.
Qed.

Lemma pushed_down_noop st c x :
  (forall o, heap st !! c = Some o ->
     cls o = CQtGroupProperty \/ value_ o = x) ->
  pushed_down st c x st.
Proof.
  intros Hsame. split.
  - apply touches_refl.
  - intros _. apply touches_refl.
  - intros o Ho Hk. destruct (Hsame o Ho) as [?|<-]; [done|].
    by rewrite set_value_same.
  - intros o Ho. exists []. split; [by rewrite app_nil_r|].
    by rewrite decide_True by auto.
Qed.

Section Downward.

Variables (lvl : ptr -> nat) (N : nat).

(** The common end of every overriding [setValue]: the value is stored, the
    children below were served, and the node emits. *)
Lemma store_serve_emit f st c x o st2 st' :
  forest lvl N st -> heap st !! c = Some o ->
  cls o <> CQtGroupProperty -> value_ o <> x ->
  touches (fun q => above st q c) (modify c (set_value x) st) st2 ->
  emitValueChange f c c st2 = Done st' ->
  pushed_down st c x st'.
Proof.
  intros Hf Ho Hk Hne Hloop Hrun.
  set (st1 := modify c (set_value x) st) in *.
  pose proof (forest_ranked _ _ _ Hf) as Hr.
  assert (Hs1 : same_shape st st1) by apply same_shape_modify_value.
  pose proof (touches_shape _ _ _ Hloop) as Hs12.
  assert (Hs2 : same_shape st st2) by (by eapply same_shape_trans).
  assert (Hf2 : forest lvl N st2) by (by eapply same_shape_forest).
  assert (Hnot : ~ above st c c).
  { intros H. pose proof (above_rank _ _ _ _ _ Hr H). lia. }
  assert (Ho2 : heap st2 !! c = Some (set_value x o)).
  { destruct Hloop as (_ & Hfr & _). rewrite Hfr by done.
    unfold st1. rewrite heap_modify, decide_True by done. by rewrite Ho. }
  assert (Hdown : touches (below st c) st st2).
  { eapply touches_trans; [apply touches_modify_value; by left|].
    eapply touches_mono; [|exact Hloop]. intros q Hq. by right. }
  pose proof (emitValueChange_up _ _ _ _ _ (forest_connected _ _ _ Hf2) Hrun)
    as Hup.
  assert (Hback : forall q, above st2 c q -> above st c q).
  { intros q. by apply same_shape_above, same_shape_sym. }
  split.
  - eapply touches_trans.
    + eapply touches_mono; [|exact Hdown]. intros q Hq. by left.
    + eapply touches_mono; [|exact (emits_up_touches _ _ _ _ Hup)].
      intros q [->|Hq]; [left; by left|right; by apply Hback].
  - intros Hset. destruct f as [|f]; [done|].
    rewrite (emitValueChange_settled f c x st2 (set_value x o)) in Hrun;
      [| |done|done].
    + injection Hrun as <-. eapply touches_trans; [exact Hdown|].
      apply touches_record. by left.
    + rewrite (same_shape_receivers _ _ _ Hs2). intros r Hr'.
      specialize (Hset r Hr').
      pose proof (receivers_parent _ _ _ (forest_connected _ _ _ Hf) Hr')
        as Hchild.
      assert (Hrfix : heap st2 !! r = heap st !! r).
      { destruct Hdown as (_ & Hfr & _). apply Hfr. intros Hb.
        pose proof (below_rank _ _ _ _ _ Hr Hb).
        pose proof (child_of_rank _ _ _ _ _ Hr Hchild). lia. }
      unfold settled in *. rewrite Hrfix.
      destruct (heap st !! r) as [or|]; [|done].
      destruct (cls or); try done.
      intros oc Hoc. rewrite Ho2 in Hoc. injection Hoc as <-.
      exact (Hset o Ho).
  - intros o' Ho' _. assert (o' = o) as -> by congruence.
    destruct Hup as (_ & Hfr & _). rewrite Hfr; [done|].
    intros H. by apply Hnot, Hback.
  - intros o' Ho'. assert (o' = o) as -> by congruence.
    destruct Hdown as (_ & _ & n1 & He1 & _).
    destruct Hloop as (_ & _ & n1' & He1' & Ha1).
    destruct Hup as (_ & _ & n2 & He2 & Ha2).
    exists (n1' ++ (c, signalValueChange c) :: n2). split.
    + rewrite He2, He1'. unfold st1. simpl. by rewrite <- app_assoc.
    + rewrite decide_False by tauto.
      rewrite sent_by_app, sent_by_cons_eq, !sent_by_none; [done| |].
      * eapply Forall_impl; [exact Ha2|]. intros e He Heq.
        simpl in He, Heq. rewrite Heq in He. by apply Hnot, Hback.
      * eapply Forall_impl; [exact Ha1|]. intros e He Heq.
        simpl in He, Heq. rewrite Heq in He. by apply Hnot.
Qed.

(** One child served inside its parent's [setValue]: the parent already
    stores what the child is given, so the report back finds it settled. *)
Lemma serve_child f st c o x child v stX stY :
  forest lvl N st -> heap st !! c = Some o ->
  child_of st child c ->
  touches (fun q => above st q c) (modify c (set_value x) st) stX ->
  settled stX c child v ->
  (forall st0 st0', forest lvl N st0 -> setValue f child v st0 = Done st0' ->
     pushed_down st0 child v st0') ->
  setValue f child v stX = Done stY ->
  touches (fun q => above st q c) (modify c (set_value x) st) stY.
Proof.
  intros Hf Ho Hchild Hinv Hset IH Hrun.
  pose proof (touches_shape _ _ _ Hinv) as Hs1X.
  assert (HsX : same_shape st stX).
  { eapply same_shape_trans; [apply same_shape_modify_value|exact Hs1X]. }
  assert (HfX : forest lvl N stX) by (by eapply same_shape_forest).
  eapply touches_trans; [exact Hinv|].
  pose proof (pushed_quiet _ _ _ _ (IH _ _ HfX Hrun)) as Hq.
  eapply touches_mono; [|apply Hq].
  - intros q Hb. eapply below_child; [exact Hchild|].
    eapply same_shape_below; [|exact Hb]. by apply same_shape_sym.
  - intros r Hr.
    pose proof (receivers_parent _ _ _ (forest_connected _ _ _ HfX) Hr) as Hp.
    pose proof (same_shape_child_of _ _ _ _ HsX Hchild) as Hp'.
    by rewrite (child_of_fun _ _ _ _ Hp Hp').
Qed.

Lemma setValue_pushed_down :
  forall fuel c x st st', forest lvl N st ->
    setValue fuel c x st = Done st' -> pushed_down st c x st'.
Proof.
  induction fuel as [|f IH]; intros c x st st' Hf Hrun; [done|].
  simpl in Hrun. apply bind_Done in Hrun as (o & Ho%deref_Done & Hrun).
  pose proof (forest_ranked _ _ _ Hf) as Hr.
  pose proof (forest_linked _ _ _ Hf) as Hl.
  assert (Hnot : ~ above st c c).
  { intros H. pose proof (above_rank _ _ _ _ _ Hr H). lia. }
  set (st1 := modify c (set_value x) st) in *.
  assert (Ho1 : forall s, touches (fun q => above st q c) st1 s ->
    heap s !! c = Some (set_value x o)).
  { intros s (_ & Hfr & _). rewrite Hfr by done.
    unfold st1. rewrite heap_modify, decide_True by done. by rewrite Ho. }
  destruct (cls o) eqn:Hk.
  - (* QtProperty *)
    unfold QtProperty_setValue in Hrun.
    rewrite (deref_live _ _ _ Ho) in Hrun. simpl in Hrun.
    destruct (decide (value_ o <> x)) as [Hne|He].
    + eapply (store_serve_emit f st c x o st1); try done.
      * by rewrite Hk.
      * apply touches_refl.
    + injection Hrun as <-. apply pushed_down_noop.
      intros o' Ho'. assert (o' = o) as -> by congruence. right.
      by destruct (decide (value_ o = x)).
  - (* QtListProperty *)
    unfold QtListProperty_setValue in Hrun.
    rewrite (deref_live _ _ _ Ho) in Hrun. simpl in Hrun.
    destruct (decide (value_ o = x)) as [He|Hne].
    { injection Hrun as <-. apply pushed_down_noop.
      intros o' Ho'. assert (o' = o) as -> by congruence. by right. }
    apply bind_Done in Hrun as (st2 & Hloop & Hrun).
    eapply (store_serve_emit f st c x o st2); try done; [by rewrite Hk|].
    eapply (foreach_inv (fun s => touches (fun q => above st q c) st1 s));
      [apply touches_refl| |exact Hloop].
    intros i s s' Hi Hinv Hstep. simpl in Hstep.
    rewrite (deref_live _ _ _ (Ho1 s Hinv)) in Hstep. simpl in Hstep.
    destruct (children_ o !! i) as [child|] eqn:Hchild; [|done].
    destruct (ensureSize _ _ !! i) as [v|] eqn:Hv; [|done].
    apply elem_of_seq in Hi.
    rewrite ensureSize_lookup in Hv by lia. injection Hv as Hv.
    eapply (serve_child f st c o x child v s s'); try done.
    + eapply linked_down; [done..|]. by eapply list_elem_of_lookup_2.
    + unfold settled. rewrite (Ho1 s Hinv). simpl. rewrite Hk.
      intros j Hj.
      by rewrite (NoDup_lookup _ _ _ _ (linked_nodup _ Hl _ _ Ho) Hj Hchild).
    + intros st0 st0'. apply IH.
  - (* QtDictProperty *)
    unfold QtDictProperty_setValue in Hrun.
    rewrite (deref_live _ _ _ Ho) in Hrun. simpl in Hrun.
    destruct (decide (value_ o = x)) as [He|Hne].
    { injection Hrun as <-. apply pushed_down_noop.
      intros o' Ho'. assert (o' = o) as -> by congruence. by right. }
    apply bind_Done in Hrun as (st2 & Hloop & Hrun).
    eapply (store_serve_emit f st c x o st2); try done; [by rewrite Hk|].
    eapply (foreach_inv (fun s => touches (fun q => above st q c) st1 s));
      [apply touches_refl| |exact Hloop].
    intros child s s' Hi Hinv Hstep. simpl in Hstep.
    apply bind_Done in Hstep as (oc & Hoc%deref_Done & Hstep).
    eapply (serve_child f st c o x child _ s s'); try done.
    + by eapply linked_down.
    + unfold settled. rewrite (Ho1 s Hinv). simpl. rewrite Hk.
      intros oc' Hoc'. congruence.
    + intros st0 st0'. apply IH.
  - (* QtGroupProperty *)
    injection Hrun as <-. apply pushed_down_noop.
    intros o' Ho'. assert (o' = o) as -> by congruence. by left.
Qed.

End Downward.

Lemma sent_by_outside (S : ptr -> Prop) q (new : list (ptr * Signal)) :
  Forall (fun e => S e.1) new -> ~ S q -> sent_by q new = [].
Proof.
  intros Hall Hq. apply sent_by_none. eapply Forall_impl; [exact Hall|].
  intros e He Heq. simpl in He, Heq. by rewrite Heq in He.
Qed.

(** A loop that serves the children of [c] one after the other, each step
    staying inside the subtree of its child and a set [U] that lies outside
    all of them: what a step did to its subtree is what the loop did to it.
    [sa0] is the store the loop was entered with. *)
Lemma siblings_loop {A : Type} lvl N st c (U : ptr -> Prop) (key : A -> ptr)
  (body : A -> State -> Result State) sa0 :
  ranked lvl N st -> (forall q, U q -> ~ above st q c) ->
  forall l sa sz,
    NoDup (key <$> l) -> (forall x, x ∈ l -> child_of st (key x) c) ->
    touches (fun q => above st q c \/ U q) sa0 sa ->
    (forall x s s', x ∈ l ->
       touches (fun q => above st q c \/ U q) sa0 s -> body x s = Done s' ->
       touches (fun q => below st (key x) q \/ U q) s s') ->
    foreach l body sa = Done sz ->
    touches (fun q => (exists y, y ∈ l /\ below st (key y) q) \/ U q) sa sz /\
    forall x, x ∈ l ->
      exists s s' evs evx,
        touches (fun q => above st q c \/ U q) sa0 s /\ body x s = Done s' /\
        emitted sz = emitted sa ++ evs /\ emitted s' = emitted s ++ evx /\
        forall q, below st (key x) q ->
          heap s !! q = heap sa !! q /\ heap sz !! q = heap s' !! q /\
          sent_by q evs = sent_by q evx.
Proof.
  intros Hr HU. induction l as [|x l IH]; intros sa sz Hnd Hch Hsa Hstep Hrun.
  - simpl in Hrun. injection Hrun as <-. split; [apply touches_refl|].
    intros x Hx. by apply elem_of_nil in Hx.
  - simpl in Hrun. apply bind_Done in Hrun as (s1 & Hx & Hrun).
    rewrite fmap_cons in Hnd. apply NoDup_cons in Hnd as [Hfresh Hnd].
    pose proof (Hstep x sa s1 ltac:(left) Hsa Hx) as T1.
    assert (Hs1 : touches (fun q => above st q c \/ U q) sa0 s1).
    { eapply touches_trans; [exact Hsa|].
      eapply touches_mono; [|exact T1]. intros q [Hb|Hu]; [left|by right].
      eapply below_child; [|exact Hb]. apply Hch. left. }
    destruct (IH s1 sz Hnd) as [T2 Hper]; [| |
      intros y s s' Hy; apply Hstep; by right|done|].
    { intros y Hy. apply Hch. by right. }
    { done. }
    assert (Hout1 : forall y q, y ∈ l -> below st (key y) q ->
      ~ (below st (key x) q \/ U q)).
    { intros y q Hy Hb [Hb'|Hu].
      - eapply (siblings_disjoint lvl N st (key x) (key y) c q); try done.
        + apply Hch. left.
        + apply Hch. by right.
        + intros E. apply Hfresh. rewrite E. by apply list_elem_of_fmap_2.
      - eapply HU; [exact Hu|]. eapply below_child; [|exact Hb].
        apply Hch. by right. }
    assert (Hout2 : forall q, below st (key x) q ->
      ~ ((exists y, y ∈ l /\ below st (key y) q) \/ U q)).
    { intros q Hb [(y & Hy & Hb')|Hu].
      - eapply (Hout1 y q Hy Hb'). by left.
      - eapply HU; [exact Hu|]. eapply below_child; [|exact Hb].
        apply Hch. left. }
    split.
    + eapply touches_trans.
      * eapply touches_mono; [|exact T1]. intros q [Hb|Hu]; [left|by right].
        exists x. split; [left|done].
      * eapply touches_mono; [|exact T2].
        intros q [(y & Hy & Hb)|Hu]; [left|by right].
        exists y. split; [by right|done].
    + destruct T1 as (_ & Hfr1 & ev1 & Hem1 & Hall1).
      destruct T2 as (_ & Hfr2 & ev2 & Hem2 & Hall2).
      intros y Hy. apply elem_of_cons in Hy as [->|Hy].
      * exists sa, s1, (ev1 ++ ev2), ev1. split_and!; try done.
        { by rewrite Hem2, Hem1, app_assoc. }
        intros q Hb. split_and!; [done|by apply Hfr2, Hout2|].
        rewrite sent_by_app.
        rewrite (sent_by_outside
          (fun q => (exists y, y ∈ l /\ below st (key y) q) \/ U q)
          q ev2 Hall2 (Hout2 q Hb)).
        by rewrite app_nil_r.
      * destruct (Hper y Hy) as (s & s' & evs & evy & Hs & Hb & He & He' & Hq).
        assert (evs = ev2) as ->.
        { rewrite Hem2 in He. by apply app_inv_head in He. }
        exists s, s', (ev1 ++ ev2), evy. split_and!; try done.
        { by rewrite Hem2, Hem1, app_assoc. }
        intros q Hbq. destruct (Hq q Hbq) as (H1 & H2 & H3).
        split_and!; [|done|].
        -- rewrite H1. by apply Hfr1, (Hout1 y).
        -- rewrite sent_by_app, H3.
           by rewrite (sent_by_outside
             (fun q => below st (key x) q \/ U q)
             q ev1 Hall1 (Hout1 y q Hy Hbq)).
Qed.

Section Returns.

Variables (lvl : ptr -> nat) (N : nat).

Lemma pushed_down_shape st c x st' : pushed_down st c x st' -> same_shape st st'.
Proof. intros [H _ _ _]. by eapply touches_shape. Qed.

(** In a forest [setValue] returns: the budget covers the way down to the
    leaves and, from each node served, the way up to the root. *)
Lemma setValue_total :
  forall fuel c x st o, forest lvl N st -> heap st !! c = Some o ->
    (N - lvl c + N + 2 <= fuel)%nat ->
    exists st', setValue fuel c x st = Done st'.
Proof.
  induction fuel as [|f IH]; intros c x st o Hf Ho Hfuel; [lia|].
  pose proof (forest_ranked _ _ _ Hf) as Hr.
  pose proof (forest_linked _ _ _ Hf) as Hl.
  destruct (Hr c o Ho) as [HcN _].
  simpl. rewrite (deref_live _ _ _ Ho). simpl.
  set (st1 := modify c (set_value x) st).
  assert (Hs1 : same_shape st st1) by apply same_shape_modify_value.
  assert (Hemit : forall s, same_shape st s ->
    exists st', emitValueChange f c c s = Done st').
  { intros s Hs. destruct (same_shape_lookup _ _ _ _ Hs Ho) as (o' & Ho' & _).
    eapply (emitValueChange_total lvl N); [|exact Ho'|lia].
    by eapply same_shape_forest. }
  assert (Hserve : forall child v s, child ∈ children_ o -> same_shape st s ->
    exists s', setValue f child v s = Done s' /\ same_shape st s').
  { intros child v s Hin Hs.
    destruct (linked_down _ Hl _ _ _ Ho Hin) as (oc & Hoc & Hpar).
    destruct (same_shape_lookup _ _ _ _ Hs Hoc) as (oc' & Hoc' & _).
    destruct (Hr child oc Hoc) as [HN Hlt]. specialize (Hlt _ Hpar).
    pose proof (same_shape_forest _ _ _ _ Hs Hf) as Hfs.
    destruct (IH child v s oc' Hfs Hoc') as [s' Hs']; [lia|].
    exists s'. split; [done|]. eapply same_shape_trans; [exact Hs|].
    eapply pushed_down_shape. by eapply setValue_pushed_down. }
  destruct (cls o).
  - unfold QtProperty_setValue. rewrite (deref_live _ _ _ Ho). simpl.
    destruct (decide _); [by apply Hemit|by exists st].
  - unfold QtListProperty_setValue. rewrite (deref_live _ _ _ Ho). simpl.
    destruct (decide _); [by exists st|].
    fold st1.
    match goal with |- context [foreach ?l ?b st1] =>
      destruct (foreach_total (fun s => same_shape st s) l b st1)
        as (st2 & Hloop & Hs2) end; [done| |].
    + intros i s Hi Hs. apply elem_of_seq in Hi.
      destruct (same_shape_lookup _ _ _ _ Hs Ho) as (o' & Ho' & Hsk).
      apply skeleton_fields in Hsk as (_ & _ & _ & Hch & _).
      simpl. rewrite (deref_live _ _ _ Ho'). simpl. rewrite Hch.
      destruct (lookup_lt_is_Some_2 (children_ o) i) as [child Hchild]; [lia|].
      rewrite Hchild. rewrite ensureSize_lookup by lia.
      apply Hserve; [|done]. by eapply list_elem_of_lookup_2.
    + rewrite Hloop. simpl. by apply Hemit.
  - unfold QtDictProperty_setValue. rewrite (deref_live _ _ _ Ho). simpl.
    destruct (decide _); [by exists st|].
    fold st1.
    match goal with |- context [foreach ?l ?b st1] =>
      destruct (foreach_total (fun s => same_shape st s) l b st1)
        as (st2 & Hloop & Hs2) end; [done| |].
    + intros child s Hi Hs.
      destruct (linked_down _ Hl _ _ _ Ho Hi) as (oc & Hoc & Hpar).
      destruct (same_shape_lookup _ _ _ _ Hs Hoc) as (oc' & Hoc' & _).
      simpl. rewrite (deref_live _ _ _ Hoc'). simpl. by apply Hserve.
    + rewrite Hloop. simpl. by apply Hemit.
  - by exists st.
Qed.

End Returns.

(** * Containers: [setValue] serves every child *)

Lemma setValue_noop f c x st o :
  heap st !! c = Some o -> cls o = CQtGroupProperty \/ value_ o = x ->
  setValue (S f) c x st = Done st.
Proof.
  intros Ho Hsame. simpl. rewrite (deref_live _ _ _ Ho). simpl.
  destruct (cls o) eqn:Hk; [| | |done];
    destruct Hsame as [?|Hx]; try done.
  - unfold QtProperty_setValue. rewrite (deref_live _ _ _ Ho). simpl.
    by rewrite decide_False by (intros H; by apply H).
  - unfold QtListProperty_setValue. rewrite (deref_live _ _ _ Ho). simpl.
    by rewrite decide_True.
  - unfold QtDictProperty_setValue. rewrite (deref_live _ _ _ Ho). simpl.
    by rewrite decide_True.
Qed.

Section Containers.

Variables (lvl : ptr -> nat) (N : nat).

(** The loop of a container's [setValue] followed by its own emission, for
    any way [l] of enumerating the children: [key x] is the child served in
    round [x] and [arg x] the value it is given. *)
Lemma container_serves {A : Type} (key : A -> ptr) (arg : A -> QVariant)
  (body : A -> State -> Result State) (l : list A) f st this o v st2 st' :
  forest lvl N st -> heap st !! this = Some o ->
  NoDup (key <$> l) -> (forall x, x ∈ l -> key x ∈ children_ o) ->
  (forall x s, x ∈ l -> heap s !! this = Some (set_value v o) ->
     same_shape st s -> settled s this (key x) (arg x)) ->
  (forall x s s', x ∈ l -> heap s !! this = Some (set_value v o) ->
     same_shape st s -> body x s = Done s' ->
     setValue f (key x) (arg x) s = Done s') ->
  foreach l body (modify this (set_value v) st) = Done st2 ->
  emitValueChange f this this st2 = Done st' ->
  exists new, emitted st' = emitted st ++ new /\
    forall x oc, x ∈ l -> heap st !! key x = Some oc ->
      (cls oc <> CQtGroupProperty ->
       heap st' !! key x = Some (set_value (arg x) oc)) /\
      (cls oc = CQtGroupProperty \/ value_ oc = arg x ->
       heap st' !! key x = Some oc /\ sent_by (key x) new = []).
Proof.
  intros Hf Ho Hnd Hkeys Hset Hbody Hloop Hrun.
  pose proof (forest_ranked _ _ _ Hf) as Hr.
  pose proof (forest_linked _ _ _ Hf) as Hl.
  set (st1 := modify this (set_value v) st) in *.
  set (W := fun q => above st q this \/ False).
  assert (Hs1 : same_shape st st1) by apply same_shape_modify_value.
  assert (Hnot : forall q, above st q this -> q <> this).
  { intros q Hq ->. pose proof (above_rank _ _ _ _ _ Hr Hq). lia. }
  assert (Hchild : forall x, x ∈ l -> child_of st (key x) this).
  { intros x Hx. eapply linked_down; [done..|]. by apply Hkeys. }
  assert (Hthis : forall s, touches W st1 s ->
    heap s !! this = Some (set_value v o) /\ same_shape st s).
  { intros s (Hs & Hfr & _). split.
    - rewrite Hfr.
      + unfold st1. rewrite heap_modify, decide_True by done. by rewrite Ho.
      + intros [Hq|[]]. by apply (Hnot this).
    - by eapply same_shape_trans. }
  destruct (siblings_loop lvl N st this (fun _ => False) key body st1 Hr
              ltac:(done) l st1 st2 Hnd Hchild (touches_refl _ _))
    as [T Hper]; [|exact Hloop|].
  { intros x s s' Hx Hs Hstep. destruct (Hthis s Hs) as [Hos Hss].
    pose proof (same_shape_forest _ _ _ _ Hss Hf) as Hfs.
    pose proof (Hbody x s s' Hx Hos Hss Hstep) as Hcall.
    pose proof (setValue_pushed_down lvl N _ _ _ _ _ Hfs Hcall) as Hp.
    eapply touches_mono; [|apply (pushed_quiet _ _ _ _ Hp)].
    - intros q Hq. left. eapply same_shape_below; [|exact Hq].
      by apply same_shape_sym.
    - intros r Hr'.
      pose proof (receivers_parent _ _ _ (forest_connected _ _ _ Hfs) Hr')
        as Hpar.
      pose proof (same_shape_child_of _ _ _ _ Hss (Hchild x Hx)) as Hpar'.
      rewrite (child_of_fun _ _ _ _ Hpar Hpar'). by apply Hset. }
  assert (Hs2 : same_shape st st2).
  { eapply same_shape_trans; [exact Hs1|]. by eapply touches_shape. }
  pose proof (same_shape_forest _ _ _ _ Hs2 Hf) as Hf2.
  pose proof (emitValueChange_up _ _ _ _ _ (forest_connected _ _ _ Hf2) Hrun)
    as (_ & Hfr' & evup & Hem' & Hallup).
  destruct T as (_ & _ & evloop & Hemloop & _).
  assert (Hup : forall q, above st q this ->
    ~ above st2 this q).
  { intros q Hq Hq'. apply (same_shape_above _ _ _ _ (same_shape_sym _ _ Hs2))
      in Hq'.
    pose proof (above_rank _ _ _ _ _ Hr Hq).
    pose proof (above_rank _ _ _ _ _ Hr Hq'). lia. }
  exists (evloop ++ (this, signalValueChange this) :: evup). split.
  { rewrite Hem', Hemloop. unfold st1. simpl. by rewrite <- app_assoc. }
  intros x oc Hx Hoc.
  destruct (Hper x Hx) as (s & s' & evs & evx & Hs & Hstep & He & He' & Hq).
  assert (evs = evloop) as ->.
  { rewrite Hemloop in He. by apply app_inv_head in He. }
  destruct (Hq (key x) ltac:(by left)) as (Hin & Hout & Hsent).
  destruct (Hthis s Hs) as [Hos Hss].
  pose proof (same_shape_forest _ _ _ _ Hss Hf) as Hfs.
  pose proof (Hbody x s s' Hx Hos Hss Hstep) as Hcall.
  pose proof (above_parent _ _ _ (Hchild x Hx)) as Habove.
  assert (Hocs : heap s !! key x = Some oc).
  { rewrite Hin. unfold st1. rewrite heap_modify.
    rewrite decide_False; [done|]. intros E. by apply (Hnot (key x)). }
  assert (Hfin : heap st' !! key x = heap s' !! key x).
  { rewrite Hfr' by (by apply Hup). done. }
  split.
  - intros Hk. rewrite Hfin.
    apply (pushed_value _ _ _ _
             (setValue_pushed_down lvl N _ _ _ _ _ Hfs Hcall)); done.
  - intros Hsame. destruct f as [|f]; [done|].
    rewrite (setValue_noop f _ _ _ _ Hocs Hsame) in Hcall.
    injection Hcall as <-. split; [by rewrite Hfin|].
    assert (evx = []) as ->.
    { rewrite <- (app_nil_r (emitted s)) in He' at 1.
      by apply app_inv_head in He'. }
    rewrite sent_by_app, Hsent. simpl. apply sent_by_none.
    constructor; [simpl; intros E; by apply (Hnot (key x))|].
    eapply Forall_impl; [exact Hallup|]. intros e He1 E. simpl in He1, E.
    rewrite E in He1. by apply (Hup (key x)).
Qed.

End Containers.

Lemma fmap_lookup_seq {A : Type} (d : A) (l : list A) :
  (fun i => default d (l !! i)) <$> seq 0 (length l) = l.
Proof.
  apply list_eq. intros i. rewrite list_lookup_fmap.
  destruct (decide (i < length l)%nat) as [Hlt|Hge].
  - rewrite lookup_seq_lt by done. simpl.
    destruct (lookup_lt_is_Some_2 l i Hlt) as [x Hx]. by rewrite Hx.
  - rewrite lookup_seq_ge by lia. simpl. symmetry.
    apply lookup_ge_None_2. lia.
Qed.

(** C3: [setValue] on a list with a value equal to the current one does
    nothing.  Otherwise it stores the value, pads the sequence read from it
    with null entries up to the number of children, calls
    [children[i]->setValue(valueList[i])] for every position, and the list
    emits [signalValueChange] exactly once: the reports of the children find
    the list settled.  A child already holding its element stays as it is
    and emits nothing. *)
Theorem QtListProperty_setValue_serves_children lvl N st this o v :
  forest lvl N st -> heap st !! this = Some o -> cls o = CQtListProperty ->
  let n := length (children_ o) in
  let valueList := ensureSize (toList v) (Z.of_nat n) in
  (v = value_ o -> forall fuel, setValue (S fuel) this v st = Done st) /\
  (n <= length valueList)%nat /\
  (forall i, (i < n)%nat ->
     valueList !! i = Some (default Invalid (toList v !! i))) /\
  (v <> value_ o -> forall fuel, (N - lvl this + N + 1 <= fuel)%nat ->
     setValue (S fuel) this v st =
       (let* st2 :=
          foreach (seq 0 n)
            (fun i st =>
               let* o := deref this st in
               match children_ o !! i, valueList !! i with
               | Some child, Some x => setValue fuel child x st
               | _, _ => Fault
               end) (modify this (set_value v) st) in
        emitValueChange fuel this this st2) /\
     exists st' new,
       setValue (S fuel) this v st = Done st' /\
       heap st' !! this = Some (set_value v o) /\
       emitted st' = emitted st ++ new /\
       sent_by this new = [(this, signalValueChange this)] /\
       forall i child oc x,
         children_ o !! i = Some child -> heap st !! child = Some oc ->
         valueList !! i = Some x ->
         (cls oc <> CQtGroupProperty ->
          heap st' !! child = Some (set_value x oc)) /\
         (value_ oc = x ->
          heap st' !! child = Some oc /\ sent_by child new = [])).
Proof.
  intros Hf Ho Hk n valueList.
  pose proof (forest_linked _ _ _ Hf) as Hl.
  pose proof (linked_nodup _ Hl _ _ Ho) as Hnd.
  assert (Hpad : forall i, (i < n)%nat ->
     valueList !! i = Some (default Invalid (toList v !! i))).
  { intros i Hi. apply ensureSize_lookup. lia. }
  split_and!.
  - intros -> fuel. by apply (setValue_noop _ _ _ _ o); [|right].
  - unfold valueList. rewrite ensureSize_length. lia.
  - done.
  - intros Hne fuel Hfuel.
    assert (Hcalls : setValue (S fuel) this v st =
       (let* st2 :=
          foreach (seq 0 n)
            (fun i st =>
               let* o := deref this st in
               match children_ o !! i, valueList !! i with
               | Some child, Some x => setValue fuel child x st
               | _, _ => Fault
               end) (modify this (set_value v) st) in
        emitValueChange fuel this this st2)).
    { simpl. rewrite (deref_live _ _ _ Ho). simpl. rewrite Hk.
      unfold QtListProperty_setValue. rewrite (deref_live _ _ _ Ho). simpl.
      by rewrite decide_False by congruence. }
    split; [done|].
    destruct (setValue_total lvl N (S fuel) this v st o Hf Ho) as [st' Hrun];
      [lia|].
    pose proof (setValue_pushed_down lvl N _ _ _ _ _ Hf Hrun) as Hp.
    destruct (pushed_sent _ _ _ _ Hp o Ho) as (new & Hem & Hsent).
    rewrite decide_False in Hsent by (rewrite Hk; intros [?|?]; congruence).
    exists st', new. split_and!; [done| |done|done|].
    { apply (pushed_value _ _ _ _ Hp); [done|]. by rewrite Hk. }
    pose proof Hrun as Hrun'. rewrite Hcalls in Hrun'.
    apply bind_Done in Hrun' as (st2 & Hloop & Hemit).
    pose proof (fun H1 H2 H3 H4 =>
      container_serves lvl N
        (fun i => default 0%nat (children_ o !! i))
        (fun i => default Invalid (toList v !! i))
        _ (seq 0 n) fuel st this o v st2 st' Hf Ho H1 H2 H3 H4 Hloop Hemit)
      as Hcs.
    destruct Hcs as (new' & Hem' & Hserved).
    + unfold n. by rewrite fmap_lookup_seq.
    + intros i Hi%elem_of_seq.
      destruct (lookup_lt_is_Some_2 (children_ o) i) as [c Hc]; [lia|].
      rewrite Hc. by eapply list_elem_of_lookup_2.
    + intros i s Hi%elem_of_seq Hos _. unfold settled. rewrite Hos. simpl.
      rewrite Hk. intros j Hj.
      destruct (lookup_lt_is_Some_2 (children_ o) i) as [c Hc]; [lia|].
      rewrite Hc in Hj. simpl in Hj.
      by rewrite (NoDup_lookup _ _ _ _ Hnd Hj Hc).
    + intros i s s' Hi%elem_of_seq Hos _ Hstep. simpl in Hstep.
      rewrite (deref_live _ _ _ Hos) in Hstep. simpl in Hstep.
      rewrite Hpad in Hstep by lia.
      destruct (children_ o !! i) as [c|]; [|done]. done.
    + assert (new' = new) as ->.
      { rewrite Hem in Hem'. by apply app_inv_head in Hem'. }
      intros i child oc x Hchild Hoc Hx.
      pose proof (lookup_lt_Some _ _ _ Hchild) as Hi.
      rewrite Hpad in Hx by done. injection Hx as <-.
      destruct (Hserved i oc) as [H1 H2].
      * apply elem_of_seq. lia.
      * by rewrite Hchild.
      * rewrite Hchild in H1, H2. simpl in H1, H2.
        split; [done|]. intros Hv. apply H2. by right.
Qed.

(** C5: [setValue] on a dict with a value equal to the current one does
    nothing.  Otherwise it stores the value, reads it as a mapping and calls
    [setValue] on every direct child with the entry for the child's name, a
    null value where the mapping has no such key; the dict then emits
    [signalValueChange] exactly once. *)
Theorem QtDictProperty_setValue_serves_children lvl N st this o v :
  forest lvl N st -> heap st !! this = Some o -> cls o = CQtDictProperty ->
  let valueMap := toMap v in
  (v = value_ o -> forall fuel, setValue (S fuel) this v st = Done st) /\
  (forall name, valueMap !! name = None -> QMap_value valueMap name = Invalid) /\
  (v <> value_ o -> forall fuel, (N - lvl this + N + 1 <= fuel)%nat ->
     setValue (S fuel) this v st =
       (let* st2 :=
          foreach (children_ o)
            (fun child st =>
               let* c := deref child st in
               setValue fuel child (QMap_value valueMap (name_ c)) st)
            (modify this (set_value v) st) in
        emitValueChange fuel this this st2) /\
     exists st' new,
       setValue (S fuel) this v st = Done st' /\
       heap st' !! this = Some (set_value v o) /\
       emitted st' = emitted st ++ new /\
       sent_by this new = [(this, signalValueChange this)] /\
       forall child oc,
         child ∈ children_ o -> heap st !! child = Some oc ->
         (cls oc <> CQtGroupProperty ->
          heap st' !! child =
            Some (set_value (QMap_value valueMap (name_ oc)) oc)) /\
         (value_ oc = QMap_value valueMap (name_ oc) ->
          heap st' !! child = Some oc /\ sent_by child new = [])).
Proof.
  intros Hf Ho Hk valueMap.
  pose proof (forest_linked _ _ _ Hf) as Hl.
  pose proof (linked_nodup _ Hl _ _ Ho) as Hnd.
  split_and!.
  - intros -> fuel. by apply (setValue_noop _ _ _ _ o); [|right].
  - intros name Hname. unfold QMap_value. by rewrite Hname.
  - intros Hne fuel Hfuel.
    assert (Hcalls : setValue (S fuel) this v st =
       (let* st2 :=
          foreach (children_ o)
            (fun child st =>
               let* c := deref child st in
               setValue fuel child (QMap_value valueMap (name_ c)) st)
            (modify this (set_value v) st) in
        emitValueChange fuel this this st2)).
    { simpl. rewrite (deref_live _ _ _ Ho). simpl. rewrite Hk.
      unfold QtDictProperty_setValue. rewrite (deref_live _ _ _ Ho). simpl.
      by rewrite decide_False by congruence. }
    split; [done|].
    destruct (setValue_total lvl N (S fuel) this v st o Hf Ho) as [st' Hrun];
      [lia|].
    pose proof (setValue_pushed_down lvl N _ _ _ _ _ Hf Hrun) as Hp.
    destruct (pushed_sent _ _ _ _ Hp o Ho) as (new & Hem & Hsent).
    rewrite decide_False in Hsent by (rewrite Hk; intros [?|?]; congruence).
    exists st', new. split_and!; [done| |done|done|].
    { apply (pushed_value _ _ _ _ Hp); [done|]. by rewrite Hk. }
    pose proof Hrun as Hrun'. rewrite Hcalls in Hrun'.
    apply bind_Done in Hrun' as (st2 & Hloop & Hemit).
    assert (Hname : forall child s oc', child ∈ children_ o ->
      same_shape st s -> heap s !! child = Some oc' ->
      name_ oc' = name_of st child).
    { intros child s oc' Hin Hs Hoc'. unfold name_of.
      destruct (same_shape_lookup _ _ _ _ (same_shape_sym _ _ Hs) Hoc')
        as (oc & Hoc & Hsk). rewrite Hoc.
      by apply skeleton_fields in Hsk as (_ & _ & <- & _). }
    pose proof (fun H1 H2 H3 H4 =>
      container_serves lvl N
        (fun child => child)
        (fun child => QMap_value valueMap (name_of st child))
        _ (children_ o) fuel st this o v st2 st' Hf Ho H1 H2 H3 H4 Hloop Hemit)
      as Hcs.
    destruct Hcs as (new' & Hem' & Hserved).
    + by rewrite list_fmap_id.
    + done.
    + intros child s Hin Hos Hs. unfold settled. rewrite Hos. simpl.
      rewrite Hk. intros oc' Hoc'. by rewrite (Hname child s oc').
    + intros child s s' Hin Hos Hs Hstep. simpl in Hstep.
      apply bind_Done in Hstep as (oc' & Hoc'%deref_Done & Hstep).
      by rewrite (Hname child s oc') in Hstep.
    + assert (new' = new) as ->.
      { rewrite Hem in Hem'. by apply app_inv_head in Hem'. }
      intros child oc Hin Hoc.
      destruct (Hserved child oc Hin Hoc) as [H1 H2].
      unfold name_of in H1, H2. rewrite Hoc in H1, H2.
      split; [done|]. intros Hv. apply H2. by right.
Qed.

(** * Groups: [setChildValue] reaches every match *)

Lemma path_via_above (P : QtProperty -> Prop) st g q :
  linked st -> path_via P st g q -> above st q g.
Proof.
  intros Hl. induction 1 as [g o q Hg Hin|g o c oc q Hg Hin Hc HP _ IH].
  - apply above_parent. by eapply linked_down.
  - eapply above_trans; [exact IH|]. apply above_parent.
    by eapply linked_down.
Qed.

Lemma path_via_shape (P : QtProperty -> Prop) st s g q :
  same_shape st s ->
  (forall o o', skeleton o' = skeleton o -> P o -> P o') ->
  path_via P st g q -> path_via P s g q.
Proof.
  intros Hs HP. induction 1 as [g o q Hg Hin|g o c oc q Hg Hin Hc Hoc _ IH].
  - destruct (same_shape_lookup _ _ _ _ Hs Hg) as (o' & Ho' & Hsk).
    apply skeleton_fields in Hsk as (_ & _ & _ & Hch & _).
    eapply path_child; [exact Ho'|]. by rewrite Hch.
  - destruct (same_shape_lookup _ _ _ _ Hs Hg) as (o' & Ho' & Hsk).
    apply skeleton_fields in Hsk as (_ & _ & _ & Hch & _).
    destruct (same_shape_lookup _ _ _ _ Hs Hc) as (oc' & Hoc' & Hsk').
    eapply path_step; [exact Ho'|by rewrite Hch|exact Hoc'| |exact IH].
    by eapply HP.
Qed.

Section GroupUpdate.

Variable TYPE_GROUP : Z.
Variables (lvl : ptr -> nat) (N : nat).

Lemma is_group_shape o o' :
  skeleton o' = skeleton o -> is_group TYPE_GROUP o -> is_group TYPE_GROUP o'.
Proof.
  intros Hsk [Hk Ht].
  apply skeleton_fields in Hsk as (Hk' & Ht' & _).
  split; congruence.
Qed.

Lemma below_or_above_child st child g q :
  child_of st child g ->
  below st child q \/ above st child q ->
  below st child q \/ (q = g \/ above st g q).
Proof.
  intros Hc [Hb|Ha]; [by left|right]. by eapply above_child.
Qed.

Lemma base_findChild_child fuel st g o name c :
  heap st !! g = Some o -> cls o <> CQtGroupProperty ->
  findChild TYPE_GROUP fuel g name st = Done (Some c) -> c ∈ children_ o.
Proof.
  intros Ho Hk Hrun. destruct fuel as [|f]; [done|]. simpl in Hrun.
  rewrite (deref_live _ _ _ Ho) in Hrun. simpl in Hrun.
  assert (Hbase : QtProperty_findChild g name st = Done (Some c)).
  { by destruct (cls o). }
  unfold QtProperty_findChild in Hbase.
  rewrite (deref_live _ _ _ Ho) in Hbase. simpl in Hbase.
  by apply QtProperty_findChild_loop_Some in Hbase as [? _].
Qed.

(** What [setChildValue] leaves behind: it stays within the subtree of the
    receiver and the line above it, and below a group every node that bears
    the name, is no group and sits behind groups only holds the value. *)
Lemma setChildValue_spec name v :
  forall fuel g st st', forest lvl N st ->
    setChildValue TYPE_GROUP fuel g name v st = Done st' ->
    touches (fun q => below st g q \/ above st g q) st st' /\
    forall o, heap st !! g = Some o -> cls o = CQtGroupProperty ->
      forall q oq, path_via (is_group TYPE_GROUP) st g q ->
        heap st !! q = Some oq -> name_ oq = name ->
        type_ oq <> TYPE_GROUP -> cls oq <> CQtGroupProperty ->
        heap st' !! q = Some (set_value v oq).
Proof.
  induction fuel as [|f IH]; intros g st st' Hf Hrun; [done|].
  simpl in Hrun. apply bind_Done in Hrun as (o & Ho%deref_Done & Hrun).
  pose proof (forest_ranked _ _ _ Hf) as Hr.
  pose proof (forest_linked _ _ _ Hf) as Hl.
  assert (Hbase : cls o <> CQtGroupProperty ->
    QtProperty_setChildValue (findChild TYPE_GROUP f) (setValue f) g name v st
      = Done st' ->
    touches (fun q => below st g q \/ above st g q) st st').
  { intros Hk Hb. unfold QtProperty_setChildValue in Hb.
    apply bind_Done in Hb as (res & Hfind & Hb).
    destruct res as [c|]; [|injection Hb as <-; apply touches_refl].
    pose proof (base_findChild_child _ _ _ _ _ _ Ho Hk Hfind) as Hin.
    pose proof (linked_down _ Hl _ _ _ Ho Hin) as Hchild.
    pose proof (setValue_pushed_down lvl N _ _ _ _ _ Hf Hb) as Hp.
    eapply touches_mono; [|apply (pushed_touches _ _ _ _ Hp)].
    intros q Hq.
    destruct (below_or_above_child _ _ _ _ Hchild Hq) as [Hb'|[->|Ha]].
    - left. right. by eapply below_child.
    - left. by left.
    - by right. }
  destruct (cls o) eqn:Hk;
    try (split; [by apply Hbase|intros o' Ho' Hk'; congruence]).
  unfold QtGroupProperty_setChildValue in Hrun.
  rewrite (deref_live _ _ _ Ho) in Hrun. simpl in Hrun.
  set (U := fun q => q = g \/ above st g q).
  assert (HU : forall q, U q -> ~ above st q g).
  { intros q [->|Ha] Hb.
    - pose proof (above_rank _ _ _ _ _ Hr Hb). lia.
    - pose proof (above_rank _ _ _ _ _ Hr Ha).
      pose proof (above_rank _ _ _ _ _ Hr Hb). lia. }
  assert (Hshape : forall s, touches (fun q => above st q g \/ U q) st s ->
    forest lvl N s /\ same_shape st s).
  { intros s Hs. pose proof (touches_shape _ _ _ Hs).
    split; [by eapply same_shape_forest|done]. }
  assert (Hnd : NoDup ((fun c : nat => c) <$> children_ o)).
  { rewrite list_fmap_id. by eapply linked_nodup. }
  pose proof (fun H => siblings_loop lvl N st g U (fun c : nat => c) _ st Hr HU
    (children_ o) st st' Hnd
    (fun x Hx => linked_down _ Hl _ _ _ Ho Hx) (touches_refl _ _) H Hrun)
    as Hloop.
  destruct Hloop as [T Hper].
  { intros child s s' Hin Hs Hstep. destruct (Hshape s Hs) as [Hfs Hss].
    pose proof (linked_down _ Hl _ _ _ Ho Hin) as Hchild.
    assert (Hmono : forall q, below s child q \/ above s child q ->
      below st child q \/ U q).
    { intros q Hq. apply (below_or_above_child _ _ g).
      - done.
      - pose proof (same_shape_sym _ _ Hss) as Hss'.
        destruct Hq; [left; by eapply same_shape_below
                     |right; by eapply same_shape_above]. }
    apply bind_Done in Hstep as (c & Hc%deref_Done & Hstep).
    destruct (decide (type_ c = TYPE_GROUP)).
    - eapply touches_mono; [exact Hmono|]. by apply (IH child s s' Hfs).
    - destruct (decide (name = name_ c)).
      + eapply touches_mono; [exact Hmono|].
        apply (pushed_touches _ _ _ _
                 (setValue_pushed_down lvl N _ _ _ _ _ Hfs Hstep)).
      + injection Hstep as <-. apply touches_refl. }
  split.
  - eapply touches_mono; [|exact T].
    intros q [(y & Hy & Hb)|[->|Ha]].
    + left. right. eapply below_child; [|exact Hb]. by eapply linked_down.
    + left. by left.
    + by right.
  - intros o' Ho' _. assert (o' = o) as -> by congruence.
    intros q oq Hpath Hq Hname Htype Hcls.
    inversion Hpath as [g' o1 q' Hg1 Hin|g' o1 c oc q' Hg1 Hin Hc Hgrp Hsub];
      subst; assert (o1 = o) as -> by congruence.
    + destruct (Hper q Hin) as (s & s' & evs & evx & Hs & Hstep & _ & _ & Hag).
      destruct (Hag q ltac:(by left)) as (Hq1 & Hq2 & _).
      destruct (Hshape s Hs) as [Hfs Hss].
      rewrite Hq2. apply bind_Done in Hstep as (c & Hc%deref_Done & Hstep).
      assert (c = oq) as -> by congruence.
      rewrite decide_False in Hstep by done.
      rewrite decide_True in Hstep by done.
      apply (pushed_value _ _ _ _
               (setValue_pushed_down lvl N _ _ _ _ _ Hfs Hstep)); [|done].
      by rewrite Hq1.
    + destruct (Hper c Hin) as (s & s' & evs & evx & Hs & Hstep & _ & _ & Hag).
      destruct (Hshape s Hs) as [Hfs Hss].
      assert (Hbq : below st c q).
      { right. by eapply path_via_above. }
      destruct (Hag q Hbq) as (Hq1 & Hq2 & _).
      destruct (Hag c ltac:(by left)) as (Hc1 & _ & _).
      rewrite Hq2. apply bind_Done in Hstep as (c' & Hc'%deref_Done & Hstep).
      assert (c' = oc) as -> by congruence.
      destruct Hgrp as [Hgk Hgt].
      rewrite decide_True in Hstep by done.
      destruct (IH c s s' Hfs Hstep) as [_ Hset].
      apply (Hset oc); try done.
      * eapply path_via_shape; [exact Hss|apply is_group_shape|done].
      * by rewrite Hq1.
Qed.

Lemma setChildValue_total name v :
  forall fuel g st o, forest lvl N st -> heap st !! g = Some o ->
    (N - lvl g + N + 3 <= fuel)%nat ->
    exists st', setChildValue TYPE_GROUP fuel g name v st = Done st'.
Proof.
  induction fuel as [|f IH]; intros g st o Hf Ho Hfuel; [lia|].
  pose proof (forest_ranked _ _ _ Hf) as Hr.
  pose proof (forest_linked _ _ _ Hf) as Hl.
  destruct (Hr g o Ho) as [HgN _].
  simpl. rewrite (deref_live _ _ _ Ho). simpl.
  assert (Hbase : cls o <> CQtGroupProperty -> exists st',
    QtProperty_setChildValue (findChild TYPE_GROUP f) (setValue f) g name v st
      = Done st').
  { intros Hk. unfold QtProperty_setChildValue.
    destruct (findChild_total TYPE_GROUP lvl N st name Hl Hr f g o Ho)
      as [res Hfind]; [lia|].
    rewrite Hfind. simpl. destruct res as [c|]; [|by exists st].
    pose proof (base_findChild_child _ _ _ _ _ _ Ho Hk Hfind) as Hin.
    destruct (linked_down _ Hl _ _ _ Ho Hin) as (oc & Hoc & Hpar).
    destruct (Hr c oc Hoc) as [HcN Hlt]. specialize (Hlt _ Hpar).
    eapply (setValue_total lvl N); [done|exact Hoc|lia]. }
  destruct (cls o); try (apply Hbase; congruence).
  unfold QtGroupProperty_setChildValue. rewrite (deref_live _ _ _ Ho). simpl.
  match goal with |- context [foreach ?l ?b st] =>
    destruct (foreach_total (fun s => same_shape st s) l b st)
      as (st' & Hloop & _) end; [apply same_shape_refl| |by exists st'].
  intros child s Hin Hs.
  destruct (linked_down _ Hl _ _ _ Ho Hin) as (oc & Hoc & Hpar).
  destruct (same_shape_lookup _ _ _ _ Hs Hoc) as (oc' & Hoc' & _).
  destruct (Hr child oc Hoc) as [HcN Hlt]. specialize (Hlt _ Hpar).
  pose proof (same_shape_forest _ _ _ _ Hs Hf) as Hfs.
  simpl. rewrite (deref_live _ _ _ Hoc'). simpl.
  destruct (decide (type_ oc' = TYPE_GROUP)).
  - destruct (IH child s oc' Hfs Hoc') as [s' Hs']; [lia|].
    exists s'. split; [done|]. eapply same_shape_trans; [exact Hs|].
    destruct (setChildValue_spec name v _ _ _ _ Hfs Hs') as [T _].
    by eapply touches_shape.
  - destruct (decide (name = name_ oc')); [|by exists s].
    destruct (setValue_total lvl N f child v s oc' Hfs Hoc') as [s' Hs'];
      [lia|].
    exists s'. split; [done|]. eapply same_shape_trans; [exact Hs|].
    eapply pushed_down_shape. by eapply setValue_pushed_down.
Qed.

(** C7: a group's [setChildValue] visits every direct child: a child tagged
    as a group is delegated to, whatever its name, and any other child whose
    name matches has [setValue] called on it.  Nothing stops the walk, so
    every matching node that is no group and lies behind group nodes only
    ends up holding the value. *)
Theorem QtGroupProperty_setChildValue_sets_every_match st g o name v :
  forest lvl N st -> heap st !! g = Some o -> cls o = CQtGroupProperty ->
  forall fuel, (N - lvl g + N + 2 <= fuel)%nat ->
    setChildValue TYPE_GROUP (S fuel) g name v st =
      foreach (children_ o)
        (fun child st =>
           let* c := deref child st in
           if decide (type_ c = TYPE_GROUP)
           then setChildValue TYPE_GROUP fuel child name v st
           else if decide (name = name_ c) then setValue fuel child v st
           else Done st) st /\
    exists st',
      setChildValue TYPE_GROUP (S fuel) g name v st = Done st' /\
      forall q oq, path_via (is_group TYPE_GROUP) st g q ->
        heap st !! q = Some oq -> name_ oq = name ->
        type_ oq <> TYPE_GROUP -> cls oq <> CQtGroupProperty ->
        heap st' !! q = Some (set_value v oq).
Proof.
  intros Hf Ho Hk fuel Hfuel. split.
  - simpl. rewrite (deref_live _ _ _ Ho). simpl. rewrite Hk.
    unfold QtGroupProperty_setChildValue. by rewrite (deref_live _ _ _ Ho).
  - destruct (setChildValue_total name v (S fuel) g st o Hf Ho) as [st' Hrun];
      [lia|].
    exists st'. split; [done|].
    destruct (setChildValue_spec name v _ _ _ _ Hf Hrun) as [_ Hset].
    by apply (Hset o).
Qed.

End GroupUpdate.

(** * Attributes, titles and positions *)

(** X1: [setAttribute] then [getAttribute]: the name written reads back the
    value written, every other name reads as before, a name never written
    reads as a null value, and nothing is emitted.  The attribute map gains
    that one entry, and every other field of the object, every other object
    and every connection is as before. *)
Theorem setAttribute_then_getAttribute st this o name v :
  heap st !! this = Some o ->
  exists st' o',
    setAttribute this name v st = Done st' /\
    heap st' !! this = Some o' /\
    getAttribute o' name = v /\
    (forall n, n <> name -> getAttribute o' n = getAttribute o n) /\
    (forall n, attributes_ o !! n = None -> getAttribute o n = Invalid) /\
    value_ o' = value_ o /\ children_ o' = children_ o /\
    parent_ o' = parent_ o /\ name_ o' = name_ o /\
    (forall q, q <> this -> heap st' !! q = heap st !! q) /\
    emitted st' = emitted st /\ connections st' = connections st /\
    attributes_ o' = <[name := v]> (attributes_ o) /\
    cls o' = cls o /\ type_ o' = type_ o /\ title_ o' = title_ o /\
    visible_ o' = visible_ o /\ selfVisible_ o' = selfVisible_ o.
Proof.
  intros Ho. unfold setAttribute. rewrite (deref_live _ _ _ Ho). simpl.
  exists (modify this (set_attributes (<[name:=v]> (attributes_ o))) st),
    (set_attributes (<[name:=v]> (attributes_ o)) o).
  split_and!; try done.
  - rewrite heap_modify, decide_True by done. by rewrite Ho.
  - unfold getAttribute. simpl. by rewrite lookup_insert_eq.
  - intros n Hn. unfold getAttribute. simpl.
    by rewrite lookup_insert_ne by done.
  - intros n Hn. unfold getAttribute. by rewrite Hn.
  - intros q Hq. rewrite heap_modify. by rewrite decide_False.
Qed.

(** X2: [getTitle] shows the title unless it is empty, and the name then:
    after [setTitle] it is the new title or, for an empty one, the name;
    [setName] shows through only while the title is empty. Neither call
    touches value, links or log. *)
Theorem getTitle_falls_back_to_name st this o (text : string) :
  heap st !! this = Some o ->
  (exists st' o',
     setTitle this text st = Done st' /\ heap st' !! this = Some o' /\
     getTitle o' = (if decide (text = "") then name_ o else text) /\
     name_ o' = name_ o /\ value_ o' = value_ o /\
     children_ o' = children_ o /\ parent_ o' = parent_ o /\
     emitted st' = emitted st) /\
  (exists st' o',
     setName this text st = Done st' /\ heap st' !! this = Some o' /\
     name_ o' = text /\
     getTitle o' = (if decide (title_ o = "") then text else title_ o) /\
     value_ o' = value_ o /\
     children_ o' = children_ o /\ parent_ o' = parent_ o /\
     emitted st' = emitted st).
Proof.
  intros Ho. split.
  - exists (modify this (set_title text) st), (set_title text o).
    unfold setTitle. rewrite (deref_live _ _ _ Ho). simpl.
    split_and!; try done.
    by rewrite lookup_alter_eq, Ho.
  - exists (modify this (set_name text) st), (set_name text o).
    unfold setName. rewrite (deref_live _ _ _ Ho). simpl.
    split_and!; try done.
    by rewrite lookup_alter_eq, Ho.
Qed.

(** X3: [indexChild] answers -1 exactly for a pointer that is not in the child
    sequence, and otherwise the first position that holds it, which lies
    within the sequence. *)
Theorem indexChild_first_position o child :
  (indexChild o child = -1 <-> child ∉ children_ o) /\
  (forall i : nat,
     indexChild o child = Z.of_nat i <->
     children_ o !! i = Some child /\
     forall j, (j < i)%nat -> children_ o !! j <> Some child) /\
  -1 <= indexChild o child < Z.of_nat (length (children_ o)).
Proof.
  unfold indexChild, indexOf.
  destruct (list_find (fun y => y = child) (children_ o)) as [[i y]|] eqn:Hf.
  - pose proof Hf as Hf'. apply list_find_Some in Hf' as (Hi & -> & Hfirst).
    split_and!.
    + split; [lia|]. intros Hnot. by apply list_elem_of_lookup_2 in Hi.
    + intros k. split.
      * intros Hk. assert (i = k) as <- by lia. split; [done|].
        intros j Hj Hc. by apply (Hfirst j child).
      * intros [Hk Hmin]. f_equal.
        destruct (Nat.lt_trichotomy i k) as [Hlt|[->|Hgt]]; [|done|].
        -- by destruct (Hmin i Hlt).
        -- by destruct (Hfirst k child Hk Hgt).
    + lia.
    + apply lookup_lt_Some in Hi. lia.
  - apply list_find_None in Hf. rewrite Forall_forall in Hf. split_and!.
    + split; [|done]. intros _ Hin. by apply (Hf child).
    + intros k. split; [lia|]. intros [Hk _].
      apply list_elem_of_lookup_2 in Hk. by destruct (Hf child Hk).
    + lia.
    + lia.
Qed.

(** * Lookup and update among direct children *)

Lemma QtProperty_findChild_loop_find st name children :
  (forall c, c ∈ children -> is_Some (heap st !! c)) ->
  QtProperty_findChild_loop st name children =
  Done (snd <$> list_find (fun c => name_of st c = name) children).
Proof.
  induction children as [|c rest IH]; intros Hlive; [done|].
  destruct (Hlive c) as [oc Hoc]; [left|].
  assert (Hn : name_of st c = name_ oc) by (unfold name_of; by rewrite Hoc).
  simpl. rewrite (deref_live _ _ _ Hoc). simpl.
  destruct (decide (name_ oc = name)) as [He|He].
  - by rewrite decide_True by congruence.
  - rewrite decide_False by congruence.
    rewrite IH by (intros; apply Hlive; by right).
    by destruct (list_find _ rest) as [[i d]|].
Qed.

(** X4: [QtProperty::findChild] looks at direct children only and answers the
    first one, in sequence order, that bears the name; it answers null exactly
    when no direct child does. Every class but the group inherits it. *)
Theorem QtProperty_findChild_first_direct_child st this o name :
  linked st -> heap st !! this = Some o ->
  exists res,
    QtProperty_findChild this name st = Done res /\
    (forall c, res = Some c <->
       exists i : nat, children_ o !! i = Some c /\ name_of st c = name /\
         forall j d, (j < i)%nat -> children_ o !! j = Some d ->
           name_of st d <> name) /\
    (res = None <->
       forall c, c ∈ children_ o -> name_of st c <> name) /\
    (cls o <> CQtGroupProperty -> forall TYPE_GROUP fuel,
       findChild TYPE_GROUP (S fuel) this name st = Done res).
Proof.
  intros Hl Ho.
  assert (Hlive : forall c, c ∈ children_ o -> is_Some (heap st !! c)).
  { intros c Hc. destruct (linked_down _ Hl _ _ _ Ho Hc) as (oc & Hoc & _).
    by exists oc. }
  assert (Hrun : QtProperty_findChild this name st =
    Done (snd <$> list_find (fun c => name_of st c = name) (children_ o))).
  { unfold QtProperty_findChild. rewrite (deref_live _ _ _ Ho). simpl.
    by apply QtProperty_findChild_loop_find. }
  eexists. split; [exact Hrun|]. split_and!.
  - intros c. split.
    + intros Hres.
      destruct (list_find _ (children_ o)) as [[i d]|] eqn:Hf; [|done].
      simpl in Hres. injection Hres as ->.
      apply list_find_Some in Hf as (Hi & Hn & Hfirst).
      exists i. split_and!; [done..|]. intros j d Hj Hd. by apply (Hfirst j d).
    + intros (i & Hi & Hn & Hfirst).
      assert (Hf : list_find (fun c => name_of st c = name) (children_ o)
                   = Some (i, c)).
      { apply list_find_Some. split_and!; [done..|].
        intros j d Hd Hj. by apply (Hfirst j d). }
      by rewrite Hf.
  - split.
    + intros Hres c Hc.
      destruct (list_find _ (children_ o)) as [[i d]|] eqn:Hf; [done|].
      apply list_find_None in Hf. rewrite Forall_forall in Hf. by apply Hf.
    + intros Hnone.
      assert (Hf : list_find (fun c => name_of st c = name) (children_ o)
                   = None).
      { apply list_find_None, Forall_forall. exact Hnone. }
      by rewrite Hf.
  - intros Hk TYPE_GROUP fuel. simpl. rewrite (deref_live _ _ _ Ho). simpl.
    rewrite <- Hrun. by destruct (cls o).
Qed.

(** X5: [QtProperty::setChildValue] on a node that is no group: without a
    direct child of that name nothing happens, whatever lies deeper; otherwise
    [setValue] runs on the first such child and on no other, so every other
    child keeps its whole subtree as it was, even one bearing the same name.
    *)
Theorem QtProperty_setChildValue_first_match_only
  TYPE_GROUP lvl N st this o name v fuel :
  forest lvl N st -> heap st !! this = Some o ->
  cls o <> CQtGroupProperty -> (N - lvl this + N + 3 <= fuel)%nat ->
  exists st',
    setChildValue TYPE_GROUP fuel this name v st = Done st' /\
    ((forall c, c ∈ children_ o -> name_of st c <> name) -> st' = st) /\
    forall (i : nat) c,
      children_ o !! i = Some c -> name_of st c = name ->
      (forall (j : nat) d, (j < i)%nat -> children_ o !! j = Some d ->
         name_of st d <> name) ->
      setValue (fuel - 1) c v st = Done st' /\
      (forall oc, heap st !! c = Some oc -> cls oc <> CQtGroupProperty ->
         heap st' !! c = Some (set_value v oc)) /\
      (forall d q, d ∈ children_ o -> d <> c -> below st d q ->
         heap st' !! q = heap st !! q).
Proof.
  intros Hf Ho Hk Hfuel.
  pose proof (forest_ranked _ _ _ Hf) as Hr.
  pose proof (forest_linked _ _ _ Hf) as Hl.
  destruct fuel as [|f]; [lia|]. replace (S f - 1)%nat with f by lia.
  assert (Hlive : forall c, c ∈ children_ o -> is_Some (heap st !! c)).
  { intros c Hc. destruct (linked_down _ Hl _ _ _ Ho Hc) as (oc & Hoc & _).
    by exists oc. }
  assert (Hfind : findChild TYPE_GROUP f this name st =
    Done (snd <$> list_find (fun c => name_of st c = name) (children_ o))).
  { destruct f as [|f']; [lia|]. simpl. rewrite (deref_live _ _ _ Ho). simpl.
    assert (Hbase : QtProperty_findChild this name st =
      Done (snd <$> list_find (fun c => name_of st c = name) (children_ o))).
    { unfold QtProperty_findChild. rewrite (deref_live _ _ _ Ho). simpl.
      by apply QtProperty_findChild_loop_find. }
    by destruct (cls o). }
  assert (Hrun : setChildValue TYPE_GROUP (S f) this name v st =
    match list_find (fun c => name_of st c = name) (children_ o) with
    | Some (_, c) => setValue f c v st
    | None => Done st
    end).
  { simpl. rewrite (deref_live _ _ _ Ho). simpl.
    assert (Hbase : QtProperty_setChildValue (findChild TYPE_GROUP f)
      (setValue f) this name v st =
      match list_find (fun c => name_of st c = name) (children_ o) with
      | Some (_, c) => setValue f c v st
      | None => Done st
      end).
    { unfold QtProperty_setChildValue. rewrite Hfind. simpl.
      by destruct (list_find _ _) as [[? ?]|]. }
    by destruct (cls o). }
  rewrite Hrun.
  destruct (list_find _ (children_ o)) as [[i0 c0]|] eqn:Hlf.
  - apply list_find_Some in Hlf as (Hi0 & Hn0 & Hfirst).
    assert (Hin0 : c0 ∈ children_ o) by (by eapply list_elem_of_lookup_2).
    pose proof (linked_down _ Hl _ _ _ Ho Hin0) as Hchild0.
    destruct Hchild0 as (oc0 & Hoc0 & Hpar0).
    destruct (Hr c0 oc0 Hoc0) as [HcN Hlt]. specialize (Hlt _ Hpar0).
    destruct (setValue_total lvl N f c0 v st oc0 Hf Hoc0) as [st' Hset];
      [lia|].
    pose proof (setValue_pushed_down lvl N _ _ _ _ _ Hf Hset) as Hp.
    exists st'. split; [done|]. split.
    { intros Hnone. by destruct (Hnone c0 Hin0). }
    intros i c Hi Hn Hbefore.
    assert (i = i0) as ->.
    { destruct (Nat.lt_trichotomy i i0) as [Hlt'|[?|Hgt]]; [|done|].
      - by destruct (Hfirst i c Hi Hlt').
      - by destruct (Hbefore i0 c0 Hgt Hi0). }
    assert (c = c0) as -> by congruence.
    split_and!; [done|by apply (pushed_value _ _ _ _ Hp)|].
    intros d q Hd Hne Hb.
    destruct (pushed_touches _ _ _ _ Hp) as (_ & Hfr & _). apply Hfr.
    pose proof (linked_down _ Hl _ _ _ Ho Hd) as Hchildd.
    assert (Hchild0 : child_of st c0 this) by (by exists oc0).
    intros [Hb0|Ha0].
    + by apply (siblings_disjoint lvl N st d c0 this q).
    + pose proof (below_rank _ _ _ _ _ Hr Hb).
      pose proof (child_of_rank _ _ _ _ _ Hr Hchildd).
      destruct (above_child _ _ _ _ Hchild0 Ha0) as [->|Hup]; [lia|].
      pose proof (above_rank _ _ _ _ _ Hr Hup). lia.
  - exists st. split; [done|]. split; [done|].
    intros i c Hi Hn _. apply list_find_None in Hlf.
    rewrite Forall_forall in Hlf.
    destruct (Hlf c); [by eapply list_elem_of_lookup_2|done].
Qed.

(** * The child sequence under [addChild] and [removeChild] *)

Lemma indexOf_absent (l : list nat) x : x ∉ l -> indexOf l x = -1.
Proof.
  intros Hx. unfold indexOf.
  destruct (list_find _ l) as [[i y]|] eqn:Hf; [|done].
  apply list_find_Some in Hf as (Hi & -> & _).
  by apply list_elem_of_lookup_2 in Hi.
Qed.

(** X6: [addChild] appends: the new child takes the position after the last
    one, every child listed before keeps its position, exactly one insertion
    notification is emitted, and no object but the two involved changes. *)
Theorem addChild_appends st this child st' :
  linked st -> addChild this child st = Done st' ->
  exists o o',
    heap st !! this = Some o /\ heap st' !! this = Some o' /\
    children_ o' = children_ o ++ [child] /\
    indexChild o' child = Z.of_nat (length (children_ o)) /\
    (forall c, c ∈ children_ o -> indexChild o' c = indexChild o c) /\
    value_ o' = value_ o /\
    emitted st' = emitted st ++ [(this, signalPropertyInserted child this)] /\
    (forall q, q <> this -> q <> child -> heap st' !! q = heap st !! q).
Proof.
  intros Hl Hrun.
  apply addChild_inv in Hrun as (o & oc & Ho & Hoc & Hpar & ->).
  pose proof (inserted_linked (cls o) _ _ _ _ _ Hl Ho Hoc Hpar) as Hl'.
  set (o' := (if decide (child = this) then set_parent (Some this) else id)
               (set_children (children_ o ++ [child]) o)).
  assert (Ho' : heap (inserted (cls o) this child st) !! this = Some o').
  { rewrite heap_inserted, Ho. simpl.
    by rewrite (decide_True (P := this = this)) by done. }
  assert (Hch : children_ o' = children_ o ++ [child]).
  { unfold o'. by destruct (decide (child = this)). }
  pose proof (linked_nodup _ Hl' _ _ Ho') as Hnd'. rewrite Hch in Hnd'.
  pose proof (linked_nodup _ Hl _ _ Ho) as Hnd.
  exists o, o'. split_and!; try done.
  - unfold indexChild. rewrite Hch. apply indexOf_lookup; [done|].
    rewrite lookup_app_r by lia. by rewrite Nat.sub_diag.
  - intros c Hc. unfold indexChild. rewrite Hch.
    apply list_elem_of_lookup in Hc as [j Hj].
    rewrite (indexOf_lookup _ j c Hnd Hj).
    apply indexOf_lookup; [done|]. by apply lookup_app_l_Some.
  - unfold o'. by destruct (decide (child = this)).
  - unfold inserted. simpl. by rewrite emitted_onChildAdd.
  - intros q Hq1 Hq2. rewrite heap_inserted.
    destruct (heap st !! q); [|done]. simpl.
    rewrite (decide_False (P := child = q)) by congruence.
    by rewrite (decide_False (P := this = q)) by congruence.
Qed.

(** X7: [removeChild] takes the child out of the sequence and clears its
    parent: the children before it keep their positions, those after it move
    down by one, the child itself is no longer found, exactly one removal
    notification is emitted, and no other object changes. *)
Theorem removeChild_shifts_later_siblings st this child st' :
  linked st -> removeChild this child st = Done st' ->
  exists o o' (i : nat),
    heap st !! this = Some o /\ heap st' !! this = Some o' /\
    indexChild o child = Z.of_nat i /\
    children_ o' = delete i (children_ o) /\
    indexChild o' child = -1 /\
    (forall (j : nat) c, children_ o !! j = Some c -> j <> i ->
       indexChild o' c =
         if decide (j < i)%nat then Z.of_nat j else Z.of_nat j - 1) /\
    (exists oc', heap st' !! child = Some oc' /\ parent_ oc' = None) /\
    emitted st' =
      emitted st ++ [(this, signalPropertyRemoved child (Some this))] /\
    (forall q, q <> this -> q <> child -> heap st' !! q = heap st !! q).
Proof.
  intros Hl Hrun.
  apply removeChild_inv in Hrun as (o & oc & i & Ho & Hoc & Hpar & Hi & ->);
    [|done].
  pose proof (linked_nodup _ Hl _ _ Ho) as Hnd.
  set (o' := set_children (delete i (children_ o))
               ((if decide (child = this) then set_parent None else id) o)).
  assert (Ho' : heap (unlinked (cls o) this child i st) !! this = Some o').
  { rewrite heap_unlinked, Ho. simpl.
    rewrite (decide_True (P := this = this)) by done.
    unfold o'. by destruct (decide (child = this)). }
  assert (Hch : children_ o' = delete i (children_ o)).
  { unfold o'. by destruct (decide (child = this)). }
  pose proof (NoDup_delete _ i Hnd) as Hnd'.
  exists o, o', i. split_and!; try done.
  - by apply indexOf_lookup.
  - unfold indexChild. rewrite Hch. apply indexOf_absent.
    by apply NoDup_delete_notin.
  - intros j c Hj Hne. unfold indexChild. rewrite Hch.
    destruct (decide (j < i)%nat) as [Hlt|Hge].
    + apply indexOf_lookup; [done|]. by rewrite list_lookup_delete_lt.
    + destruct j as [|j]; [lia|].
      replace (Z.of_nat (S j) - 1) with (Z.of_nat j) by lia.
      apply indexOf_lookup; [done|]. rewrite list_lookup_delete_ge by lia.
      done.
  - rewrite heap_unlinked, Hoc. simpl. eexists. split; [done|].
    rewrite (decide_True (P := child = child)) by done.
    by destruct (decide (this = child)).
  - apply emitted_unlinked.
  - intros q Hq1 Hq2. rewrite heap_unlinked.
    destruct (heap st !! q); [|done]. simpl.
    rewrite (decide_False (P := child = q)) by congruence.
    by rewrite (decide_False (P := this = q)) by congruence.
Qed.

(** * Adding a child and taking it out again *)

(** X8: [addChild] followed by [removeChild] of the same child restores every
    object and every subscription; all that remains of the two calls is the
    pair of notifications, insertion first. *)
Theorem addChild_then_removeChild st this child st1 :
  linked st -> connected_up st -> addChild this child st = Done st1 ->
  exists st2,
    removeChild this child st1 = Done st2 /\
    heap st2 = heap st /\
    connections st2 = connections st /\
    emitted st2 =
      emitted st ++ [(this, signalPropertyInserted child this);
                     (this, signalPropertyRemoved child (Some this))].
Proof.
  intros Hl Hc Hrun.
  apply addChild_inv in Hrun as (o & oc & Ho & Hoc & Hpar & ->).
  pose proof (inserted_linked (cls o) _ _ _ _ _ Hl Ho Hoc Hpar) as Hl1.
  pose proof (linked_nodup _ Hl _ _ Ho) as Hnd.
  assert (Hfresh : child ∉ children_ o).
  { intros Hin. destruct (linked_down _ Hl _ _ _ Ho Hin) as (? & ? & ?).
    congruence. }
  pose proof (heap_inserted (cls o) this child st) as Hh1.
  assert (He1 : emitted (inserted (cls o) this child st) =
                emitted st ++ [(this, signalPropertyInserted child this)]).
  { unfold inserted. simpl. by rewrite emitted_onChildAdd. }
  assert (Hc1 : connections (inserted (cls o) this child st) =
                if isContainer (cls o)
                then connections st ++ [(child, this)] else connections st).
  { unfold inserted, onChildAdd. simpl. by destruct (isContainer (cls o)). }
  revert Hl1 Hh1 He1 Hc1. generalize (inserted (cls o) this child st).
  intros st1 Hl1 Hh1 He1 Hc1.
  destruct (heap st1 !! this) as [o1|] eqn:Ho1;
    [|by rewrite Hh1, Ho in Ho1].
  destruct (heap st1 !! child) as [oc1|] eqn:Hoc1;
    [|by rewrite Hh1, Hoc in Hoc1].
  assert (Hk : cls o1 = cls o).
  { rewrite Hh1, Ho in Ho1. simpl in Ho1. injection Ho1 as <-.
    by repeat case_decide. }
  assert (Hch1 : children_ o1 = children_ o ++ [child]).
  { rewrite Hh1, Ho in Ho1. simpl in Ho1. injection Ho1 as <-.
    rewrite (decide_True (P := this = this)) by done. by case_decide. }
  assert (Hp1 : parent_ oc1 = Some this).
  { rewrite Hh1, Hoc in Hoc1. simpl in Hoc1. injection Hoc1 as <-.
    by rewrite (decide_True (P := child = child)) by done. }
  destruct (removeChild_as_found (cls o1) _ _ _ _ _ Hl1 Ho1 Hoc1 Hp1)
    as (i & Hi & Hrun).
  assert (i = length (children_ o)) as ->.
  { rewrite Hch1 in Hi. apply lookup_app_Some in Hi as [Hi|[Hge Hi]].
    - by apply list_elem_of_lookup_2 in Hi.
    - apply list_lookup_singleton_Some in Hi as [Hi _]. lia. }
  exists (unlinked (cls o1) this child (length (children_ o)) st1).
  split_and!.
  - unfold removeChild. by rewrite (deref_live _ _ _ Ho1).
  - apply map_eq. intros q. rewrite heap_unlinked, Hh1.
    destruct (heap st !! q) as [oq|] eqn:Hq; [|done]. simpl. f_equal.
    destruct (decide (this = q)) as [E1|Hn1];
      destruct (decide (child = q)) as [E2|Hn2]; simpl; subst.
    + assert (oq = o) as -> by congruence. assert (oc = o) as -> by congruence.
      rewrite delete_middle, app_nil_r.
      destruct o; simpl in *; by subst.
    + assert (oq = o) as -> by congruence.
      rewrite delete_middle, app_nil_r.
      by destruct o.
    + assert (oq = oc) as -> by congruence.
      destruct oc; simpl in *; by subst.
    + done.
  - unfold unlinked, onChildRemove. simpl. rewrite Hk, Hc1.
    assert (Hout : (child, this) ∉ connections st).
    { intros Hin. destruct (Hc _ _ Hin) as (oc' & Hoc' & Hpar').
      congruence. }
    assert (Hfil : filter (fun c => c <> (child, this)) (connections st)
                   = connections st).
    { clear -Hout. induction (connections st) as [|e l IH]; [done|].
      apply not_elem_of_cons in Hout as [Hne Hout].
      rewrite filter_cons, decide_True by done. by rewrite IH. }
    destruct (isContainer (cls o)); simpl; [|done].
    rewrite filter_app, Hfil, filter_cons, decide_False by (by intros H).
    by rewrite filter_nil, app_nil_r.
  - rewrite emitted_unlinked, He1. by rewrite <- app_assoc.
Qed.

(** * Detaching and attaching again *)

(** X9: [removeFromParent] leaves a node without a parent, on a node that has
    none already it changes nothing, and so a second call never does; the node
    can then be given to any live parent without tripping the assertion of
    [addChild]. *)
Theorem removeFromParent_makes_orphan st this st1 :
  linked st -> removeFromParent this st = Done st1 ->
  (exists o1, heap st1 !! this = Some o1 /\ parent_ o1 = None) /\
  (forall o, heap st !! this = Some o -> parent_ o = None -> st1 = st) /\
  removeFromParent this st1 = Done st1 /\
  (forall p, is_Some (heap st1 !! p) ->
     exists st2, addChild p this st1 = Done st2).
Proof.
  intros Hl Hrun. pose proof Hrun as Hrun0. unfold removeFromParent in Hrun.
  apply bind_Done in Hrun as (o & Ho%deref_Done & _).
  pose proof (removeFromParent_spec this st o Hl Ho) as Hs.
  assert (Horph : exists o1, heap st1 !! this = Some o1 /\ parent_ o1 = None).
  { destruct (parent_ o) as [p|] eqn:Hpar.
    - destruct Hs as (op & i & Hop & Hi & Hrun'). rewrite Hrun' in Hrun0.
      injection Hrun0 as <-. rewrite heap_unlinked, Ho. simpl.
      eexists. split; [done|].
      rewrite (decide_True (P := this = this)) by done.
      by destruct (decide (p = this)).
    - rewrite Hs in Hrun0. injection Hrun0 as <-. by exists o. }
  destruct Horph as (o1 & Ho1 & Hp1). split_and!.
  - by exists o1.
  - intros o' Ho' Hp'. assert (o' = o) as -> by congruence.
    rewrite Hp' in Hs. congruence.
  - unfold removeFromParent. rewrite (deref_live _ _ _ Ho1). simpl.
    by rewrite Hp1.
  - intros p [op Hop]. unfold addChild. rewrite (deref_live _ _ _ Ho1). simpl.
    rewrite decide_True by done. rewrite (deref_live _ _ _ Hop). simpl.
    by eexists.
Qed.

(** X10: [removeChild] followed by [addChild] of the same child does not
    restore the sequence: the child comes back as the last one, the others
    keeping their order. Every object other than the parent is as it was
    before the two calls. *)
Theorem removeChild_then_addChild_moves_last st this child st1 :
  linked st -> this <> child -> removeChild this child st = Done st1 ->
  exists st2 o o2 (i : nat),
    addChild this child st1 = Done st2 /\
    heap st !! this = Some o /\ heap st2 !! this = Some o2 /\
    children_ o !! i = Some child /\
    children_ o2 = delete i (children_ o) ++ [child] /\
    indexChild o2 child = Z.of_nat (length (children_ o)) - 1 /\
    (forall q, q <> this -> heap st2 !! q = heap st !! q) /\
    emitted st2 =
      emitted st ++ [(this, signalPropertyRemoved child (Some this));
                     (this, signalPropertyInserted child this)].
Proof.
  intros Hl Hne Hrun.
  apply removeChild_inv in Hrun as (o & oc & i & Ho & Hoc & Hpar & Hi & ->);
    [|done].
  pose proof (linked_nodup _ Hl _ _ Ho) as Hnd.
  pose proof (heap_unlinked (cls o) this child i st) as Hh1.
  pose proof (emitted_unlinked (cls o) this child i st) as He1.
  revert Hh1 He1. generalize (unlinked (cls o) this child i st).
  intros st1 Hh1 He1.
  assert (Ho1 : heap st1 !! this =
    Some (set_children (delete i (children_ o)) o)).
  { rewrite Hh1, Ho. simpl.
    rewrite (decide_True (P := this = this)) by done.
    by rewrite (decide_False (P := child = this)) by congruence. }
  assert (Hoc1 : heap st1 !! child = Some (set_parent None oc)).
  { rewrite Hh1, Hoc. simpl.
    rewrite (decide_True (P := child = child)) by done.
    by rewrite (decide_False (P := this = child)) by done. }
  eexists _, o, _, i. split_and!.
  - unfold addChild. rewrite (deref_live _ _ _ Hoc1). simpl.
    rewrite (deref_live _ _ _ Ho1). simpl. reflexivity.
  - done.
  - simpl. rewrite heap_onChildAdd. simpl.
    rewrite lookup_alter_ne by congruence. rewrite lookup_alter_eq, Ho1.
    reflexivity.
  - done.
  - done.
  - unfold indexChild. simpl.
    assert (Hlen : length (delete i (children_ o))
                   = (length (children_ o) - 1)%nat).
    { rewrite length_delete; [done|]. by eexists. }
    pose proof (lookup_lt_Some _ _ _ Hi) as Hlt.
    replace (Z.of_nat (length (children_ o)) - 1)
      with (Z.of_nat (length (delete i (children_ o)))) by lia.
    apply indexOf_lookup.
    + apply NoDup_app. split_and!; [by apply NoDup_delete| |apply NoDup_singleton].
      intros y Hy ->%list_elem_of_singleton.
      by apply (NoDup_delete_notin _ _ _ Hnd Hi).
    + rewrite lookup_app_r by lia. by rewrite Nat.sub_diag.
  - intros q Hq. simpl. rewrite heap_onChildAdd. simpl.
    destruct (decide (q = child)) as [->|Hqc].
    + rewrite lookup_alter_eq, lookup_alter_ne, Hoc1, Hoc by done. simpl.
      f_equal. destruct oc; simpl in *; by subst.
    + rewrite !lookup_alter_ne by congruence. rewrite Hh1.
      destruct (heap st !! q); [|done]. simpl.
      rewrite (decide_False (P := child = q)) by congruence.
      by rewrite (decide_False (P := this = q)) by congruence.
  - simpl. rewrite emitted_onChildAdd. simpl. rewrite He1.
    by rewrite <- app_assoc.
Qed.

(** * Setting the same value again *)

(** X11: Once a [setValue] has returned, whatever the class of the receiver,
    the same call made again finds nothing to do: it changes nothing and emits
    nothing. *)
Theorem setValue_again_is_silent lvl N st c x fuel st' :
  forest lvl N st -> setValue fuel c x st = Done st' ->
  setValue fuel c x st' = Done st'.
Proof.
  intros Hf Hrun. destruct fuel as [|f]; [done|].
  pose proof (setValue_pushed_down lvl N _ _ _ _ _ Hf Hrun) as Hp.
  pose proof Hrun as Hrun0. simpl in Hrun.
  apply bind_Done in Hrun as (o & Ho%deref_Done & _).
  destruct (decide (cls o = CQtGroupProperty)) as [Hk|Hk].
  - destruct (same_shape_lookup _ _ _ _ (pushed_down_shape _ _ _ _ Hp) Ho)
      as (o' & Ho' & Hsk).
    apply skeleton_fields in Hsk as (Hk' & _).
    apply (setValue_noop f c x st' o' Ho'). left. congruence.
  - pose proof (pushed_value _ _ _ _ Hp o Ho Hk) as Ho'.
    apply (setValue_noop f c x st' _ Ho'). by right.
Qed.

(** * Subscriptions follow the links *)

Lemma wiredb_sound st : wiredb st = true -> wired st.
Proof.
  unfold wiredb. intros H.
  apply andb_prop in H as [H H3]. apply andb_prop in H as [H1 H2].
  apply bool_decide_eq_true in H1.
  rewrite forallb_forall in H2. rewrite forallb_forall in H3.
  split; [done|]. intros s r. split.
  - intros Hin. apply list_elem_of_In, H2 in Hin.
    destruct (heap st !! s) as [os|] eqn:Hs; [|done].
    destruct (heap st !! r) as [or|] eqn:Hr; [|done].
    apply andb_prop in Hin as [Hp Hk]. apply bool_decide_eq_true in Hp.
    by exists os, or.
  - intros (os & or & Hs & Hp & Hr & Hk).
    assert (Hin : In (s, os) (map_to_list (heap st)))
      by (by apply list_elem_of_In, elem_of_map_to_list).
    apply H3 in Hin. rewrite Hp, Hr, Hk in Hin. simpl in Hin.
    by apply bool_decide_eq_true in Hin.
Qed.

Lemma wired_connected_up st : wired st -> connected_up st.
Proof.
  intros Hw s r Hin. apply (wired_iff _ Hw) in Hin as (os & or & ? & ? & _).
  by exists os.
Qed.

Lemma same_shape_subscribed st st' s r :
  same_shape st st' -> subscribed st s r -> subscribed st' s r.
Proof.
  intros Hs (os & or & Hos & Hp & Hor & Hk).
  destruct (same_shape_lookup _ _ _ _ Hs Hos) as (os' & Hos' & Hsk).
  destruct (same_shape_lookup _ _ _ _ Hs Hor) as (or' & Hor' & Hsk').
  apply skeleton_fields in Hsk as (_ & _ & _ & _ & Hp' & _).
  apply skeleton_fields in Hsk' as (Hk' & _).
  exists os', or'. split_and!; try done; congruence.
Qed.

Lemma same_shape_wired st st' : same_shape st st' -> wired st -> wired st'.
Proof.
  intros Hs [Hnd Hiff]. pose proof Hs as [E _]. split; rewrite E; [done|].
  intros s r. rewrite Hiff. split; apply same_shape_subscribed; [done|].
  by apply same_shape_sym.
Qed.

(** In a wired store the slots a node reaches are its parent's, if that is a
    container, and no other. *)
Lemma wired_receivers st c oc :
  wired st -> heap st !! c = Some oc ->
  receivers c st =
    match parent_ oc with
    | Some p =>
        match heap st !! p with
        | Some op => if isContainer (cls op) then [p] else []
        | None => []
        end
    | None => []
    end.
Proof.
  intros [Hnd Hiff] Hoc. unfold receivers.
  assert (Hall : forall e, e ∈ filter (fun c' => c'.1 = c) (connections st) ->
    subscribed st c e.2 /\ e = (c, e.2)).
  { intros [s r] Hin. apply list_elem_of_filter in Hin as [Hs Hin].
    simpl in Hs. subst s. split; [by apply Hiff|done]. }
  pose proof (NoDup_filter (fun c' => c'.1 = c) _ Hnd) as Hnd'.
  revert Hall Hnd'.
  assert (Hsub : forall r, subscribed st c r ->
    (c, r) ∈ filter (fun c' => c'.1 = c) (connections st)).
  { intros r Hr. apply list_elem_of_filter. split; [done|]. by apply Hiff. }
  revert Hsub. generalize (filter (fun c' => c'.1 = c) (connections st)).
  intros l Hsub Hall Hnd'.
  assert (Hone : forall r, subscribed st c r -> l = [(c, r)]).
  { intros r Hr. pose proof (Hsub r Hr) as Hin.
    destruct l as [|e1 l]; [by apply elem_of_nil in Hin|].
    assert (forall e, e ∈ e1 :: l -> e = (c, r)) as Heq.
    { intros e He. destruct (Hall e He) as [(os & or & Hos & Hp & _) ->].
      destruct Hr as (os' & or' & Hos' & Hp' & _). f_equal. congruence. }
    destruct l as [|e2 l].
    - f_equal. apply Heq. left.
    - apply NoDup_cons in Hnd' as [Hnotin _]. destruct Hnotin.
      rewrite (Heq e1) by left. rewrite (Heq e2) by (right; left). left. }
  assert (Hnone : (forall r, ~ subscribed st c r) -> l = []).
  { intros Hno. destruct l as [|e l]; [done|].
    destruct (Hall e) as [Hsubs _]; [left|]. by destruct (Hno _ Hsubs). }
  destruct (parent_ oc) as [p|] eqn:Hp.
  - destruct (heap st !! p) as [op|] eqn:Hop.
    + destruct (isContainer (cls op)) eqn:Hk.
      * rewrite (Hone p); [done|]. by exists oc, op.
      * rewrite Hnone; [done|]. intros r (os & or & Hos & Hpr & Hor & Hkr).
        congruence.
    + rewrite Hnone; [done|]. intros r (os & or & Hos & Hpr & Hor & Hkr).
      congruence.
  - rewrite Hnone; [done|]. intros r (os & or & Hos & Hpr & _). congruence.
Qed.

Lemma filter_ne_notin {A : Type} `{EqDecision A} (x : A) (l : list A) :
  x ∉ l -> filter (fun y => y <> x) l = l.
Proof.
  induction l as [|e l IH]; [done|]. intros [Hne Hout]%not_elem_of_cons.
  rewrite filter_cons, decide_True by done. by rewrite IH.
Qed.

Lemma connections_inserted k this child st :
  connections (inserted k this child st) =
  if isContainer k then connections st ++ [(child, this)] else connections st.
Proof. unfold inserted, onChildAdd. simpl. by destruct (isContainer k). Qed.

Lemma connections_unlinked k this child i st :
  connections (unlinked k this child i st) =
  if isContainer k then filter (fun c => c <> (child, this)) (connections st)
  else connections st.
Proof. unfold unlinked, onChildRemove. simpl. by destruct (isContainer k). Qed.

(** A store whose objects differ from those of [st] in children only, and in
    the parent of [child] alone. *)
Lemma subscribed_relinked st st' child (F : ptr -> QtProperty -> QtProperty) :
  (forall q, heap st' !! q = F q <$> heap st !! q) ->
  (forall q o, cls (F q o) = cls o) ->
  (forall q o, q <> child -> parent_ (F q o) = parent_ o) ->
  forall s r, s <> child -> subscribed st' s r <-> subscribed st s r.
Proof.
  intros Hh Hk Hp s r Hne. unfold subscribed. rewrite !Hh. split.
  - intros (os' & or' & Hos & Hpar & Hor & Hc).
    destruct (heap st !! s) as [os|]; [|done].
    destruct (heap st !! r) as [or|]; [|done].
    simpl in Hos, Hor. injection Hos as <-. injection Hor as <-.
    exists os, or. rewrite Hk in Hc. rewrite Hp in Hpar by done. done.
  - intros (os & or & Hos & Hpar & Hor & Hc). rewrite Hos, Hor. simpl.
    eexists _, _. split_and!; [done| |done|]; [by rewrite Hp|by rewrite Hk].
Qed.

Lemma inserted_wired this child st o oc :
  linked st -> wired st -> heap st !! this = Some o ->
  heap st !! child = Some oc -> parent_ oc = None ->
  wired (inserted (cls o) this child st).
Proof.
  intros Hl [Hnd Hiff] Ho Hoc Hpar.
  pose proof (heap_inserted (cls o) this child st) as Hh.
  pose proof (connections_inserted (cls o) this child st) as Hc.
  revert Hh Hc. generalize (inserted (cls o) this child st). intros st' Hh Hc.
  assert (Hout : forall r, ~ subscribed st child r).
  { intros r (os & ? & Hos & Hp & _). congruence. }
  assert (Hrest : forall s r, s <> child ->
    subscribed st' s r <-> subscribed st s r).
  { eapply (subscribed_relinked st st' child); [exact Hh|..].
    - intros q q'. simpl. by repeat case_decide.
    - intros q q' Hq. simpl. rewrite decide_False by congruence.
      by case_decide. }
  assert (Hnew : forall r, subscribed st' child r <->
    r = this /\ isContainer (cls o) = true).
  { intros r. unfold subscribed. rewrite !Hh, Hoc. simpl.
    rewrite (decide_True (P := child = child)) by done. simpl. split.
    - intros (os & or & [= <-] & [= <-] & Hor & Hk). split; [done|].
      rewrite Ho in Hor. simpl in Hor. injection Hor as <-.
      rewrite <- Hk. by repeat case_decide.
    - intros [-> Hk]. rewrite Ho. simpl. eexists _, _.
      split_and!; [done..|]. rewrite <- Hk. by repeat case_decide. }
  split.
  - rewrite Hc. destruct (isContainer (cls o)); [|done].
    apply NoDup_app. split_and!; [done| |apply NoDup_singleton].
    intros e He ->%list_elem_of_singleton. by apply Hiff, Hout in He.
  - intros s r. destruct (decide (s = child)) as [->|Hne].
    + rewrite Hnew, Hc. destruct (isContainer (cls o)).
      * rewrite elem_of_app, list_elem_of_singleton. split.
        -- intros [Hin|[= ->]]; [by apply Hiff, Hout in Hin|done].
        -- intros [-> _]. by right.
      * split; [intros Hin; by apply Hiff, Hout in Hin|by intros [_ ?]].
    + rewrite (Hrest s r Hne), <- Hiff, Hc.
      destruct (isContainer (cls o)); [|done].
      rewrite elem_of_app, list_elem_of_singleton. split; [|by left].
      intros [?|[= -> _]]; done.
Qed.

Lemma unlinked_wired this child i st o oc :
  linked st -> wired st -> heap st !! this = Some o ->
  heap st !! child = Some oc -> parent_ oc = Some this ->
  wired (unlinked (cls o) this child i st).
Proof.
  intros Hl [Hnd Hiff] Ho Hoc Hpar.
  pose proof (heap_unlinked (cls o) this child i st) as Hh.
  pose proof (connections_unlinked (cls o) this child i st) as Hc.
  revert Hh Hc. generalize (unlinked (cls o) this child i st).
  intros st' Hh Hc.
  assert (Hold : forall r, subscribed st child r <->
    r = this /\ isContainer (cls o) = true).
  { intros r. split.
    - intros (os & or & Hos & Hp & Hor & Hk).
      assert (r = this) as -> by congruence. split; [done|]. congruence.
    - intros [-> Hk]. by exists oc, o. }
  assert (Hrest : forall s r, s <> child ->
    subscribed st' s r <-> subscribed st s r).
  { eapply (subscribed_relinked st st' child); [exact Hh|..].
    - intros q q'. simpl. by repeat case_decide.
    - intros q q' Hq. simpl.
      rewrite (decide_False (P := child = q)) by congruence. by case_decide. }
  assert (Hnew : forall r, ~ subscribed st' child r).
  { intros r. unfold subscribed. rewrite !Hh, Hoc. simpl.
    rewrite (decide_True (P := child = child)) by done. simpl.
    intros (os & or & [= <-] & Hp & _). by case_decide. }
  split.
  - rewrite Hc. destruct (isContainer (cls o)); [|done]. by apply NoDup_filter.
  - intros s r. destruct (decide (s = child)) as [->|Hne].
    + split; [|intros H; by apply Hnew in H].
      rewrite Hc. destruct (isContainer (cls o)) eqn:Hk.
      * intros [Hne Hin]%list_elem_of_filter.
        apply Hiff, Hold in Hin as [-> _]. done.
      * intros Hin. apply Hiff, Hold in Hin as [_ ?]. done.
    + rewrite (Hrest s r Hne), <- Hiff, Hc.
      destruct (isContainer (cls o)); [|done].
      rewrite list_elem_of_filter. split; [by intros [_ ?]|].
      intros Hin. split; [|done]. intros [= -> _]. done.
Qed.

Lemma removeAllChildren_wired this st o st' :
  linked st -> wired st -> heap st !! this = Some o ->
  removeAllChildren this st = Done st' -> linked st' /\ wired st'.
Proof.
  intros Hl Hw Ho Hrun. unfold removeAllChildren, removeAllChildren_as in Hrun.
  rewrite (deref_live _ _ _ Ho) in Hrun. simpl in Hrun.
  assert (Hinv : linked st' /\ wired st' /\
    exists o', heap st' !! this = Some o' /\ cls o' = cls o);
    [|by destruct Hinv as (? & ? & _)].
  eapply (foreach_inv (fun s => linked s /\ wired s /\
    exists o', heap s !! this = Some o' /\ cls o' = cls o));
    [by eauto| |exact Hrun].
  intros c s s' _ (Hls & Hws & o1 & Ho1 & Hk) Hstep. simpl in Hstep.
  apply removeChild_as_inv in Hstep
    as (o2 & oc & i & Ho2 & Hoc & Hpar & Hi & ->); [|done].
  assert (o2 = o1) as -> by congruence. split_and!.
  - by eapply unlinked_linked.
  - rewrite <- Hk. by eapply unlinked_wired.
  - rewrite heap_unlinked, Ho1. simpl. eexists. split; [done|].
    by repeat case_decide.
Qed.

Lemma NoDup_delete_filter (l : list nat) i x :
  NoDup l -> l !! i = Some x -> delete i l = filter (fun y => y <> x) l.
Proof.
  intros Hnd. revert i. induction Hnd as [|y l Hy Hnd IH]; intros i Hi; [done|].
  destruct i as [|i]; simpl in Hi.
  - injection Hi as ->. simpl. rewrite filter_cons, decide_False by (by intros ?).
    by rewrite filter_ne_notin.
  - assert (y <> x).
    { intros ->. by apply list_elem_of_lookup_2 in Hi. }
    simpl. rewrite filter_cons, decide_True by done. f_equal. by apply IH.
Qed.

Lemma removeChild_as_base_connections this child st st' :
  removeChild_as CQtProperty this child st = Done st' ->
  connections st' = connections st.
Proof.
  unfold removeChild_as. intros Hrun.
  apply bind_Done in Hrun as (oc & _ & Hrun).
  destruct (decide _); [|done].
  apply bind_Done in Hrun as (o & _ & Hrun).
  destruct (list_find _ _) as [[i ?]|]; by injection Hrun as <-.
Qed.

Lemma connections_deallocate this st :
  connections (deallocate this st) =
  filter (fun c => c.1 <> this /\ c.2 <> this) (connections st).
Proof. done. Qed.

Lemma heap_deallocate this st q :
  heap (deallocate this st) !! q =
  if decide (this = q) then None else heap st !! q.
Proof. simpl. apply lookup_delete. Qed.

(** What [~QtProperty] leaves of the store: the object is gone with every
    connection from or to it, its children have lost their parent, and its
    parent no longer lists it. *)
Lemma QtProperty_destroy_effect st this o :
  linked st -> heap st !! this = Some o ->
  exists st',
    QtProperty_destroy this st = Done st' /\
    connections st' =
      filter (fun c => c.1 <> this /\ c.2 <> this) (connections st) /\
    forall q, heap st' !! q =
      if decide (this = q) then None else
      (fun oq =>
         (if decide (parent_ o = Some q)
          then fun x => set_children (filter (fun y => y <> this) (children_ x)) x
          else id)
           ((if decide (parent_ oq = Some this) then set_parent None else id)
              oq)) <$> heap st !! q.
Proof.
  intros Hl Ho. unfold QtProperty_destroy. rewrite (deref_live _ _ _ Ho).
  simpl.
  set (st1 := record this (signalPropertyRemoved this (parent_ o)) st).
  assert (Hl1 : linked st1) by (by apply (linked_heap st)).
  assert (Ho1 : heap st1 !! this = Some o) by done.
  destruct (removeAllChildren_loop CQtProperty this _ st1 o Hl1 Ho1 eq_refl)
    as (st2 & Hrun2 & Hl2 & Hthis2 & _ & Hcs & Hfr).
  assert (Hc2 : connections st2 = connections st).
  { eapply (foreach_inv (fun s => connections s = connections st));
      [|  |exact Hrun2]; [done|].
    intros c s s' _ Hs Hstep. apply removeChild_as_base_connections in Hstep.
    congruence. }
  assert (Hh2 : forall q, this <> q -> heap st2 !! q =
    (fun oq => (if decide (parent_ oq = Some this) then set_parent None else id)
                 oq) <$> heap st !! q).
  { intros q Hq. destruct (decide (q ∈ children_ o)) as [Hin|Hout].
    - destruct (Hcs q Hin) as (oc & Hoc & Hoc'); [done|].
      destruct (linked_down _ Hl _ _ _ Ho Hin) as (oc0 & Hoc0 & Hp).
      assert (oc0 = oc) as -> by (unfold st1 in Hoc; simpl in Hoc; congruence).
      rewrite Hoc', Hoc0. simpl. by rewrite decide_True by done.
    - rewrite Hfr by done. unfold st1. simpl.
      destruct (heap st !! q) as [oq|] eqn:Hoq; [|done]. simpl.
      rewrite decide_False; [done|]. intros Hp.
      destruct (linked_up _ Hl _ _ _ Hoq Hp) as (o' & Ho' & Hin).
      assert (o' = o) as -> by congruence. done. }
  unfold removeAllChildren_as. rewrite (deref_live _ _ _ Ho1). simpl.
  rewrite Hrun2. simpl.
  pose proof (removeFromParent_spec this st2 _ Hl2 Hthis2) as Hrfp.
  simpl in Hrfp.
  assert (Hsame : forall st3, heap st3 = heap st2 ->
    connections st3 = connections st2 ->
    (forall q, parent_ o = Some q -> this = q) ->
    connections (deallocate this st3) =
      filter (fun c => c.1 <> this /\ c.2 <> this) (connections st) /\
    forall q, heap (deallocate this st3) !! q =
      if decide (this = q) then None else
      (fun oq =>
         (if decide (parent_ o = Some q)
          then fun x => set_children (filter (fun y => y <> this) (children_ x)) x
          else id)
           ((if decide (parent_ oq = Some this) then set_parent None else id)
              oq)) <$> heap st !! q).
  { intros st3 E1 E2 Hnop.
    split; [by rewrite connections_deallocate, E2, Hc2|].
    intros q. rewrite heap_deallocate.
    destruct (decide (this = q)) as [|Hq]; [done|].
    rewrite E1, Hh2 by done. destruct (heap st !! q) as [oq|]; [|done].
    simpl. rewrite (decide_False (P := parent_ o = Some q)); [done|].
    intros Hp. by apply Hq, Hnop. }
  destruct (decide (this ∈ children_ o)) as [Hself|Hself].
  - simpl in Hrfp. rewrite Hrfp. simpl.
    destruct (linked_down _ Hl _ _ _ Ho Hself) as (o' & Ho' & Hpar).
    assert (o' = o) as -> by congruence.
    eexists. split; [done|]. apply Hsame; [done..|].
    intros q Hp. congruence.
  - destruct (parent_ o) as [p|] eqn:Hpar; simpl in Hrfp.
    + destruct Hrfp as (op & i & Hop & Hi & Hrun3). rewrite Hrun3. simpl.
      assert (Hp : p <> this).
      { intros ->. destruct (linked_up _ Hl _ _ _ Ho Hpar) as (o' & Ho' & Hin).
        assert (o' = o) as -> by congruence. done. }
      eexists. split; [done|]. split.
      * rewrite connections_deallocate, connections_unlinked, Hc2.
        destruct (isContainer (cls op)); [|done].
        rewrite list_filter_filter. apply list_filter_iff.
        intros [s r]. simpl. split; [tauto|]. intros [? ?].
        split; [done|]. intros [= -> ->]. done.
      * intros q. rewrite heap_deallocate.
        destruct (decide (this = q)) as [|Hq]; [done|].
        rewrite heap_unlinked, Hh2 by done.
        destruct (heap st !! q) as [oq|] eqn:Hoq; [|done]. simpl. f_equal.
        rewrite (decide_False (P := this = q)) by done.
        destruct (decide (p = q)) as [->|Hpq].
        -- rewrite (decide_True (P := Some q = Some q)) by done.
           rewrite Hh2, Hoq in Hop by congruence. simpl in Hop.
           injection Hop as <-.
           pose proof (linked_nodup _ Hl _ _ Hoq) as Hnd.
           assert (Hch : forall x, children_
             ((if decide (parent_ oq = Some this) then set_parent None else id)
                x) = children_ x) by (intros x; by case_decide).
           rewrite Hch in Hi. simpl. rewrite !Hch.
           by rewrite (NoDup_delete_filter _ _ _ Hnd Hi).
        -- by rewrite (decide_False (P := Some p = Some q)) by congruence.
    + rewrite Hrfp. simpl. eexists. split; [done|]. by apply Hsame.
Qed.

(** * What the destructor leaves behind *)

(** X12: [~QtProperty] takes the object out of the store and erases every
    reference to it, and that is all: an object that named it as parent has no
    parent afterwards, the sequence that listed it lists the others in the
    same order, every connection from or to it is gone, and nothing else
    changes. Its children in particular stay alive, as roots. (Objects
    constructed with this one as their [QObject] parent are deleted by
    [~QObject]; that ownership is no part of [qtproperty.cpp] and is not
    modelled.) *)
Theorem QtProperty_destroy_erases_references st this o :
  linked st -> heap st !! this = Some o ->
  exists st',
    QtProperty_destroy this st = Done st' /\
    heap st' !! this = None /\
    (forall q oq, q <> this -> heap st !! q = Some oq ->
       heap st' !! q =
         Some (set_children (filter (fun y => y <> this) (children_ oq))
                 (set_parent
                    (if decide (parent_ oq = Some this) then None
                     else parent_ oq) oq))) /\
    (forall q, heap st !! q = None -> heap st' !! q = None) /\
    (forall c, c ∈ children_ o -> c <> this ->
       exists oc', heap st' !! c = Some oc' /\ parent_ oc' = None) /\
    connections st' =
      filter (fun c => c.1 <> this /\ c.2 <> this) (connections st).
Proof.
  intros Hl Ho.
  destruct (QtProperty_destroy_effect st this o Hl Ho) as (st' & Hrun & Hc & Hh).
  assert (Hrest : forall q oq, q <> this -> heap st !! q = Some oq ->
    heap st' !! q =
      Some (set_children (filter (fun y => y <> this) (children_ oq))
              (set_parent
                 (if decide (parent_ oq = Some this) then None
                  else parent_ oq) oq))).
  { intros q oq Hq Hoq. rewrite Hh, decide_False by congruence.
    rewrite Hoq. simpl. f_equal.
    destruct (decide (parent_ o = Some q)) as [Hp|Hp].
    - destruct (decide (parent_ oq = Some this)); [done|]. by destruct oq.
    - rewrite filter_ne_notin.
      + destruct (decide (parent_ oq = Some this)); by destruct oq.
      + intros Hin. destruct (linked_down _ Hl _ _ _ Hoq Hin) as (o' & Ho' & ?).
        congruence. }
  exists st'. split_and!; try done.
  - by rewrite Hh, decide_True.
  - intros q Hq. rewrite Hh, Hq. by case_decide.
  - intros c Hin Hne.
    destruct (linked_down _ Hl _ _ _ Ho Hin) as (oc & Hoc & Hp).
    rewrite (Hrest c oc Hne Hoc). eexists. split; [done|]. simpl.
    by rewrite decide_True.
Qed.

(** * What the value operations never do *)

Lemma value_only_refl st : value_only st st.
Proof.
  split; [apply same_shape_refl|]. split; [done|].
  exists []. by rewrite app_nil_r.
Qed.

Lemma value_only_trans st1 st2 st3 :
  value_only st1 st2 -> value_only st2 st3 -> value_only st1 st3.
Proof.
  intros (Hs1 & Hg1 & n1 & He1 & Ha1) (Hs2 & Hg2 & n2 & He2 & Ha2).
  split; [by eapply same_shape_trans|]. split.
  - intros q o Hq Hk. apply Hg2; [|done]. by apply Hg1.
  - exists (n1 ++ n2). split; [by rewrite He2, He1, app_assoc|].
    by apply Forall_app.
Qed.

Lemma value_only_modify st p v o :
  heap st !! p = Some o -> cls o <> CQtGroupProperty ->
  value_only st (modify p (set_value v) st).
Proof.
  intros Hp Hk. split; [apply same_shape_modify_value|]. split.
  - intros q oq Hq Hkq. rewrite heap_modify.
    rewrite decide_False; [done|]. intros ->. congruence.
  - exists []. by rewrite app_nil_r.
Qed.

Lemma value_only_record st s a :
  value_only st (record s (signalValueChange a) st).
Proof.
  split; [apply same_shape_record|]. split; [done|].
  exists [(s, signalValueChange a)]. split; [done|].
  constructor; [by exists a|done].
Qed.

Lemma foreach_value_only {A : Type} (l : list A) body st st' :
  (forall x s s', x ∈ l -> body x s = Done s' -> value_only s s') ->
  foreach l body st = Done st' -> value_only st st'.
Proof.
  intros Hstep Hrun.
  eapply (foreach_inv (fun s => value_only st s));
    [apply value_only_refl| |exact Hrun].
  intros x s s' Hx Hinv Hb. eapply value_only_trans; [exact Hinv|].
  by eapply Hstep.
Qed.

Section ValueOnly.

Variable emit : ptr -> ptr -> State -> Result State.
Hypothesis emit_only : forall s a st st',
  emit s a st = Done st' -> value_only st st'.

Lemma store_then_emit_only p v st o st' :
  heap st !! p = Some o -> cls o <> CQtGroupProperty ->
  emit p p (modify p (set_value v) st) = Done st' -> value_only st st'.
Proof.
  intros Hp Hk Hrun. eapply value_only_trans; [by eapply value_only_modify|].
  by eapply emit_only.
Qed.

Lemma slotChildValueChange_only r a st st' :
  slotChildValueChange emit r a st = Done st' -> value_only st st'.
Proof.
  unfold slotChildValueChange. intros Hrun.
  apply bind_Done in Hrun as (o & Ho%deref_Done & Hrun).
  destruct (cls o) eqn:Hk.
  - injection Hrun as <-. apply value_only_refl.
  - unfold QtListProperty_slotChildValueChange in Hrun.
    rewrite (deref_live _ _ _ Ho) in Hrun. simpl in Hrun.
    destruct (decide (0 <= indexChild o a));
      [|injection Hrun as <-; apply value_only_refl].
    apply bind_Done in Hrun as (oc & Hoc%deref_Done & Hrun).
    destruct (ensureSize _ _ !! _) as [old|]; [|done].
    destruct (decide (old <> value_ oc));
      [|injection Hrun as <-; apply value_only_refl].
    eapply store_then_emit_only; [exact Ho|congruence|exact Hrun].
  - unfold QtDictProperty_slotChildValueChange in Hrun.
    rewrite (deref_live _ _ _ Ho) in Hrun. simpl in Hrun.
    apply bind_Done in Hrun as (oc & Hoc%deref_Done & Hrun).
    destruct (decide (value_ oc <> _));
      [|injection Hrun as <-; apply value_only_refl].
    eapply store_then_emit_only; [exact Ho|congruence|exact Hrun].
  - by eapply emit_only.
Qed.

End ValueOnly.

Lemma emitValueChange_only fuel :
  forall s a st st', emitValueChange fuel s a st = Done st' ->
    value_only st st'.
Proof.
  induction fuel as [|f IH]; intros s a st st' Hrun; [done|].
  simpl in Hrun. eapply value_only_trans; [apply value_only_record|].
  eapply foreach_value_only; [|exact Hrun].
  intros r s1 s2 _ Hstep.
  exact (slotChildValueChange_only _ IH _ _ _ _ Hstep).
Qed.

Lemma value_only_lookup st st' q o :
  value_only st st' -> heap st !! q = Some o ->
  exists o', heap st' !! q = Some o' /\ cls o' = cls o.
Proof.
  intros [Hs _] Hq. destruct (same_shape_lookup _ _ _ _ Hs Hq) as (o' & ? & Hsk).
  apply skeleton_fields in Hsk as (? & _). by exists o'.
Qed.

Lemma setValue_only fuel :
  forall c x st st', setValue fuel c x st = Done st' -> value_only st st'.
Proof.
  induction fuel as [|f IH]; intros c x st st' Hrun; [done|].
  simpl in Hrun. apply bind_Done in Hrun as (o & Ho%deref_Done & Hrun).
  destruct (cls o) eqn:Hk.
  - unfold QtProperty_setValue in Hrun.
    rewrite (deref_live _ _ _ Ho) in Hrun. simpl in Hrun.
    destruct (decide (value_ o <> x));
      [|injection Hrun as <-; apply value_only_refl].
    eapply (store_then_emit_only _ (emitValueChange_only f));
      [exact Ho|congruence|exact Hrun].
  - unfold QtListProperty_setValue in Hrun.
    rewrite (deref_live _ _ _ Ho) in Hrun. simpl in Hrun.
    destruct (decide (value_ o = x));
      [injection Hrun as <-; apply value_only_refl|].
    apply bind_Done in Hrun as (st2 & Hloop & Hrun).
    eapply value_only_trans; [eapply value_only_modify; [exact Ho|congruence]|].
    eapply value_only_trans; [|by eapply emitValueChange_only].
    eapply foreach_value_only; [|exact Hloop].
    intros i s s' _ Hstep. simpl in Hstep.
    apply bind_Done in Hstep as (o' & _ & Hstep).
    destruct (children_ o' !! i); [|done].
    destruct (ensureSize _ _ !! i); [|done]. by eapply IH.
  - unfold QtDictProperty_setValue in Hrun.
    rewrite (deref_live _ _ _ Ho) in Hrun. simpl in Hrun.
    destruct (decide (value_ o = x));
      [injection Hrun as <-; apply value_only_refl|].
    apply bind_Done in Hrun as (st2 & Hloop & Hrun).
    eapply value_only_trans; [eapply value_only_modify; [exact Ho|congruence]|].
    eapply value_only_trans; [|by eapply emitValueChange_only].
    eapply foreach_value_only; [|exact Hloop].
    intros child s s' _ Hstep. simpl in Hstep.
    apply bind_Done in Hstep as (oc & _ & Hstep). by eapply IH.
  - injection Hrun as <-. apply value_only_refl.
Qed.

Lemma setChildValue_only TYPE_GROUP fuel :
  forall g name x st st',
    setChildValue TYPE_GROUP fuel g name x st = Done st' -> value_only st st'.
Proof.
  induction fuel as [|f IH]; intros g name x st st' Hrun; [done|].
  simpl in Hrun. apply bind_Done in Hrun as (o & Ho%deref_Done & Hrun).
  assert (Hbase :
    QtProperty_setChildValue (findChild TYPE_GROUP f) (setValue f) g name x st
      = Done st' -> value_only st st').
  { unfold QtProperty_setChildValue. intros Hb.
    apply bind_Done in Hb as ([c|] & _ & Hb).
    - by eapply setValue_only.
    - injection Hb as <-. apply value_only_refl. }
  destruct (cls o); try by apply Hbase.
  unfold QtGroupProperty_setChildValue in Hrun.
  rewrite (deref_live _ _ _ Ho) in Hrun. simpl in Hrun.
  eapply foreach_value_only; [|exact Hrun].
  intros child s s' _ Hstep. simpl in Hstep.
  apply bind_Done in Hstep as (oc & _ & Hstep).
  destruct (decide (type_ oc = TYPE_GROUP)); [by eapply IH|].
  destruct (decide (name = name_ oc)); [by eapply setValue_only|].
  injection Hstep as <-. apply value_only_refl.
Qed.

(** X13: Whatever [setValue], [setChildValue] or an emission of
    [signalValueChange] does, on any store at all: no object is created,
    destroyed, moved or renamed and no connection changes; no group object
    changes in any field; and every notification made is a
    [signalValueChange]. *)
Theorem value_operations_change_values_only TYPE_GROUP fuel st st' :
  (exists c x, setValue fuel c x st = Done st') \/
  (exists g name x, setChildValue TYPE_GROUP fuel g name x st = Done st') \/
  (exists s a, emitValueChange fuel s a st = Done st') ->
  connections st' = connections st /\
  (forall q, skeleton <$> heap st' !! q = skeleton <$> heap st !! q) /\
  (forall q o, heap st !! q = Some o -> cls o = CQtGroupProperty ->
     heap st' !! q = Some o) /\
  exists new, emitted st' = emitted st ++ new /\
    forall e, e ∈ new -> exists a, e.2 = signalValueChange a.
Proof.
  intros Hrun.
  assert (Hv : value_only st st').
  { destruct Hrun as [(c & x & H)|[(g & name & x & H)|(s & a & H)]].
    - by eapply setValue_only.
    - by eapply setChildValue_only.
    - by eapply emitValueChange_only. }
  destruct Hv as ([Hc Hsk] & Hg & new & Hem & Hall).
  split_and!; [done..|]. exists new. split; [done|].
  by apply Forall_forall.
Qed.

(** A store whose objects differ from those of [st] in fields other than
    class, parent and children. *)
Lemma relabel_linked_wired st st' (F : ptr -> QtProperty -> QtProperty) :
  (forall q, heap st' !! q = F q <$> heap st !! q) ->
  connections st' = connections st ->
  (forall q o, cls (F q o) = cls o /\ parent_ (F q o) = parent_ o /\
     children_ (F q o) = children_ o) ->
  linked st -> wired st -> linked st' /\ wired st'.
Proof.
  intros Hh Hc HF Hl [Hnd Hiff].
  assert (Hback : forall q o', heap st' !! q = Some o' ->
    exists o, heap st !! q = Some o /\ cls o' = cls o /\
      parent_ o' = parent_ o /\ children_ o' = children_ o).
  { intros q o'. rewrite Hh. destruct (heap st !! q) as [o|]; [|done].
    simpl. intros [= <-]. exists o. split; [done|]. apply HF. }
  assert (Hfwd : forall q o, heap st !! q = Some o ->
    exists o', heap st' !! q = Some o' /\ cls o' = cls o /\
      parent_ o' = parent_ o /\ children_ o' = children_ o).
  { intros q o Hq. rewrite Hh, Hq. simpl. eexists. split; [done|]. apply HF. }
  assert (Hchild : forall c p, child_of st c p -> child_of st' c p).
  { intros c p (oc & Hoc & Hp).
    destruct (Hfwd _ _ Hoc) as (oc' & Hoc' & _ & Hp' & _).
    exists oc'. split; [done|congruence]. }
  split; [split|split].
  - intros p o' c Hp Hin. destruct (Hback _ _ Hp) as (o & Ho & _ & _ & Hch).
    apply Hchild. eapply linked_down; [done..|]. congruence.
  - intros c oc' p Hoc' Hp. destruct (Hback _ _ Hoc') as (oc & Hoc & _ & Hp' & _).
    destruct (linked_up _ Hl c oc p Hoc) as (o & Ho & Hin); [congruence|].
    destruct (Hfwd _ _ Ho) as (o' & Ho' & _ & _ & Hch).
    exists o'. split; [done|congruence].
  - intros p o' Hp. destruct (Hback _ _ Hp) as (o & Ho & _ & _ & Hch).
    rewrite Hch. by eapply linked_nodup.
  - by rewrite Hc.
  - intros s r. rewrite Hc, Hiff. split.
    + intros (os & or & Hos & Hp & Hor & Hk).
      destruct (Hfwd _ _ Hos) as (os' & Hos' & _ & Hp' & _).
      destruct (Hfwd _ _ Hor) as (or' & Hor' & Hk' & _).
      exists os', or'. split_and!; try done; congruence.
    + intros (os' & or' & Hos' & Hp' & Hor' & Hk').
      destruct (Hback _ _ Hos') as (os & Hos & _ & Hp & _).
      destruct (Hback _ _ Hor') as (or & Hor & Hk & _).
      exists os, or. split_and!; try done; congruence.
Qed.

Lemma modify_linked_wired st p f :
  (forall o, cls (f o) = cls o /\ parent_ (f o) = parent_ o /\
     children_ (f o) = children_ o) ->
  linked st -> wired st -> linked (modify p f st) /\ wired (modify p f st).
Proof.
  intros Hf. apply (relabel_linked_wired st _
    (fun q => if decide (p = q) then f else id)); [|done|].
  - intros q. rewrite heap_modify. case_decide; [by subst|].
    by destruct (heap st !! q).
  - intros q o. simpl. by case_decide.
Qed.

Lemma QtProperty_new_linked_wired k type this st st' :
  linked st -> wired st -> QtProperty_new k type this st = Done st' ->
  linked st' /\ wired st'.
Proof.
  intros Hl [Hnd Hiff]. unfold QtProperty_new.
  destruct (heap st !! this) eqn:Hfresh; [done|]. intros [= <-].
  set (fresh := mkQtProperty k type "" "" Invalid ∅ [] None true true).
  assert (Hh : forall q, q <> this ->
    heap (mkState (<[this:=fresh]> (heap st)) (connections st) (emitted st))
      !! q = heap st !! q).
  { intros q Hq. simpl. by rewrite lookup_insert_ne. }
  assert (Hn : heap (mkState (<[this:=fresh]> (heap st)) (connections st)
                       (emitted st)) !! this = Some fresh).
  { simpl. by rewrite lookup_insert_eq. }
  revert Hh Hn.
  assert (Hc : connections
    (mkState (<[this:=fresh]> (heap st)) (connections st) (emitted st)) =
    connections st) by done.
  revert Hc.
  generalize (mkState (<[this:=fresh]> (heap st)) (connections st)
                (emitted st)).
  intros st' Hc Hh Hn.
  assert (Hold : forall q o, heap st !! q = Some o -> q <> this).
  { intros q o Hq ->. congruence. }
  assert (Hchild : forall c p, child_of st c p -> child_of st' c p).
  { intros c p (oc & Hoc & Hp). exists oc. split; [|done].
    rewrite Hh; [done|]. by eapply Hold. }
  split; [split|split].
  - intros p o c Hp Hin. destruct (decide (p = this)) as [->|Hne].
    + rewrite Hn in Hp. injection Hp as <-. by apply elem_of_nil in Hin.
    + rewrite Hh in Hp by done. apply Hchild. by eapply linked_down.
  - intros c oc p Hoc Hp. destruct (decide (c = this)) as [->|Hne].
    + rewrite Hn in Hoc. by injection Hoc as <-.
    + rewrite Hh in Hoc by done.
      destruct (linked_up _ Hl _ _ _ Hoc Hp) as (o & Ho & Hin).
      exists o. split; [|done]. rewrite Hh; [done|]. by eapply Hold.
  - intros p o Hp. destruct (decide (p = this)) as [->|Hne].
    + rewrite Hn in Hp. injection Hp as <-. apply NoDup_nil_2.
    + rewrite Hh in Hp by done. by eapply linked_nodup.
  - by rewrite Hc.
  - intros s r. rewrite Hc, Hiff. split.
    + intros (os & or & Hos & Hp & Hor & Hk). exists os, or.
      rewrite !Hh by (by eapply Hold). done.
    + intros (os & or & Hos & Hp & Hor & Hk).
      destruct (decide (s = this)) as [->|Hs].
      { rewrite Hn in Hos. by injection Hos as <-. }
      rewrite Hh in Hos by done.
      destruct (linked_up _ Hl _ _ _ Hos Hp) as (o & Ho & _).
      rewrite Hh in Hor by (by eapply Hold).
      by exists os, or.
Qed.

Lemma QtProperty_destroy_wired st this o st' :
  linked st -> wired st -> heap st !! this = Some o ->
  QtProperty_destroy this st = Done st' -> wired st'.
Proof.
  intros Hl [Hnd Hiff] Ho Hrun.
  destruct (QtProperty_destroy_effect st this o Hl Ho) as (st'' & Hrun' & Hc & Hh).
  assert (st'' = st') as -> by congruence. clear Hrun Hrun'.
  assert (Hsub : forall s r, subscribed st' s r <->
    s <> this /\ r <> this /\ subscribed st s r).
  { intros s r. unfold subscribed. rewrite !Hh. split.
    - intros (os' & or' & Hos & Hp & Hor & Hk).
      destruct (decide (this = s)) as [|Hs]; [done|].
      destruct (decide (this = r)) as [|Hr]; [done|].
      destruct (heap st !! s) as [os|]; [|done].
      destruct (heap st !! r) as [or|]; [|done].
      simpl in Hos, Hor. injection Hos as <-. injection Hor as <-.
      split_and!; [done..|]. exists os, or. split_and!; [done| |done|].
      + revert Hp. by repeat case_decide.
      + revert Hk. by repeat case_decide.
    - intros (Hs & Hr & os & or & Hos & Hp & Hor & Hk).
      rewrite (decide_False (P := this = s)) by done.
      rewrite (decide_False (P := this = r)) by done.
      rewrite Hos, Hor. simpl.
      eexists _, _. split_and!; [done| |done|].
      + rewrite (decide_False (P := parent_ os = Some this)) by congruence.
        by case_decide.
      + by repeat case_decide. }
  split.
  - rewrite Hc. by apply NoDup_filter.
  - intros s r. rewrite Hsub, Hc, list_elem_of_filter, Hiff. simpl. tauto.
Qed.

Lemma runStructOp_linked_wired op st st' :
  linked st -> wired st -> runStructOp op st = Done st' ->
  linked st' /\ wired st'.
Proof.
  intros Hl Hw Hrun.
  destruct op as [this child|this child|this|this|this]; simpl in Hrun.
  - apply addChild_inv in Hrun as (o & oc & Ho & Hoc & Hpar & ->).
    split; [by eapply inserted_linked|by eapply inserted_wired].
  - apply removeChild_inv in Hrun as (o & oc & i & Ho & Hoc & Hpar & Hi & ->);
      [|done].
    split; [by eapply unlinked_linked|by eapply unlinked_wired].
  - pose proof Hrun as Hrun0. unfold removeFromParent in Hrun.
    apply bind_Done in Hrun as (o & Ho%deref_Done & _).
    pose proof (removeFromParent_spec this st o Hl Ho) as Hs.
    destruct (parent_ o) as [p|] eqn:Hpar.
    + destruct Hs as (op & i & Hop & Hi & Hrun'). rewrite Hrun' in Hrun0.
      injection Hrun0 as <-.
      split; [by eapply unlinked_linked|by eapply unlinked_wired].
    + rewrite Hs in Hrun0. by injection Hrun0 as <-.
  - pose proof Hrun as Hrun0. unfold removeAllChildren in Hrun.
    apply bind_Done in Hrun as (o & Ho%deref_Done & _).
    by eapply removeAllChildren_wired.
  - pose proof Hrun as Hrun0. unfold QtProperty_destroy in Hrun.
    apply bind_Done in Hrun as (o & Ho%deref_Done & _).
    destruct (QtProperty_destroy_spec st this o Hl Ho) as (st'' & Hrun' & Hl' & _).
    assert (st'' = st') as -> by congruence.
    split; [done|].
    exact (QtProperty_destroy_wired st this o st' Hl Hw Ho Hrun').
Qed.

Lemma runCall_linked_wired TYPE_GROUP c st st' :
  linked st -> wired st -> runCall TYPE_GROUP c st = Done st' ->
  linked st' /\ wired st'.
Proof.
  intros Hl Hw Hrun.
  destruct c as [k type this|this name|this title|this name value
                |fuel this value|fuel this name value|op]; simpl in Hrun.
  - by eapply QtProperty_new_linked_wired.
  - unfold setName in Hrun. apply bind_Done in Hrun as (o & _ & [= <-]).
    by apply modify_linked_wired.
  - unfold setTitle in Hrun. apply bind_Done in Hrun as (o & _ & [= <-]).
    by apply modify_linked_wired.
  - unfold setAttribute in Hrun. apply bind_Done in Hrun as (o & _ & [= <-]).
    by apply modify_linked_wired.
  - apply setValue_only in Hrun as [Hs _].
    split; [by eapply same_shape_linked|by eapply same_shape_wired].
  - apply setChildValue_only in Hrun as [Hs _].
    split; [by eapply same_shape_linked|by eapply same_shape_wired].
  - by eapply runStructOp_linked_wired.
Qed.

(** X14: Whatever sequence of calls a client makes, constructors, setters,
    value updates, structural changes and destructors alike, the parent and
    child links stay in agreement and every container stays subscribed to each
    of its children exactly once: the slots a node reaches are its parent's,
    if it has one that is a container, and no other. *)
Theorem calls_keep_links_and_subscriptions TYPE_GROUP calls st st' :
  linked st -> wired st ->
  foreach calls (runCall TYPE_GROUP) st = Done st' ->
  linked st' /\ wired st' /\
  forall c oc, heap st' !! c = Some oc ->
    receivers c st' =
      match parent_ oc with
      | Some p =>
          match heap st' !! p with
          | Some op => if isContainer (cls op) then [p] else []
          | None => []
          end
      | None => []
      end.
Proof.
  intros Hl Hw Hrun.
  assert (Hinv : linked st' /\ wired st').
  { eapply (foreach_inv (fun s => linked s /\ wired s)); [|  |exact Hrun].
    - done.
    - intros c s s' _ [Hls Hws] Hstep. by eapply runCall_linked_wired. }
  destruct Hinv as [Hl' Hw']. split_and!; [done..|].
  intros c oc Hoc. by apply wired_receivers.
Qed.

(** * A change of a plain property reaches its parent *)

Lemma toMap_fromMap (m : QVariantMap) : toMap (fromMap m) = m.
Proof. apply list_to_map_to_list. Qed.

(** Padding does not change what a position reads. *)
Lemma ensureSize_read (l : list QVariant) size (j : nat) :
  default Invalid (ensureSize l size !! j) = default Invalid (l !! j).
Proof.
  rewrite ensureSize_app. destruct (decide (j < length l)%nat).
  - by rewrite lookup_app_l.
  - rewrite lookup_app_r by lia. rewrite (lookup_ge_None_2 l j) by lia.
    destruct (replicate _ _ !! _) eqn:E; [|done].
    by apply lookup_replicate in E as [-> _].
Qed.

(** X15: What the parent of a plain property holds once [setValue] has changed
    the property. A list reads the new value at the position of the property
    and reads every other position as before; a dict reads it under the name
    of the property and reads every other key as before; either emits once if
    that changed what it stores, and not at all otherwise. A group stores
    nothing and passes the notification on under the identity of the property.
    A plain parent is not told. *)
Theorem child_setValue_reaches_parent lvl N st p o c oc x fuel :
  forest lvl N st -> wired st ->
  heap st !! c = Some oc -> cls oc = CQtProperty -> parent_ oc = Some p ->
  heap st !! p = Some o -> value_ oc <> x -> (lvl c + 1 < fuel)%nat ->
  exists st' o' new,
    setValue fuel c x st = Done st' /\
    heap st' !! c = Some (set_value x oc) /\
    heap st' !! p = Some o' /\
    emitted st' = emitted st ++ new /\
    match cls o with
    | CQtProperty => o' = o /\ sent_by p new = []
    | CQtListProperty =>
        (forall i : nat, children_ o !! i = Some c -> forall j : nat,
           default Invalid (toList (value_ o') !! j) =
             if decide (j = i) then x
             else default Invalid (toList (value_ o) !! j)) /\
        sent_by p new =
          if decide (value_ o' = value_ o) then []
          else [(p, signalValueChange p)]
    | CQtDictProperty =>
        (forall n, QMap_value (toMap (value_ o')) n =
           if decide (n = name_ oc) then x
           else QMap_value (toMap (value_ o)) n) /\
        sent_by p new =
          if decide (value_ o' = value_ o) then []
          else [(p, signalValueChange p)]
    | CQtGroupProperty =>
        o' = o /\ sent_by p new = [(p, signalValueChange c)]
    end.
Proof.
  intros Hf Hw Hoc Hkc Hpar Ho Hne Hfuel.
  pose proof (forest_ranked _ _ _ Hf) as Hr.
  pose proof (forest_linked _ _ _ Hf) as Hl.
  assert (Hchild : child_of st c p) by (by exists oc).
  pose proof (child_of_rank _ _ _ _ _ Hr Hchild) as Hlt.
  assert (Hpc : p <> c) by (intros ->; lia).
  destruct fuel as [|[|f]]; [lia..|].
  set (st1 := modify c (set_value x) st).
  set (st2 := record c (signalValueChange c) st1).
  assert (Hs2 : same_shape st st2).
  { eapply same_shape_trans; [apply same_shape_modify_value|].
    apply same_shape_record. }
  assert (Hf2 : forest lvl N st2) by (by eapply same_shape_forest).
  assert (Hc2 : heap st2 !! c = Some (set_value x oc)).
  { unfold st2, st1. simpl. rewrite lookup_alter_eq. by rewrite Hoc. }
  assert (Hp2 : heap st2 !! p = Some o).
  { unfold st2, st1. simpl. by rewrite lookup_alter_ne by done. }
  assert (He2 : emitted st2 = emitted st ++ [(c, signalValueChange c)]) by done.
  assert (Hrun : setValue (S (S f)) c x st =
    foreach (if isContainer (cls o) then [p] else [])
      (fun r => slotChildValueChange (emitValueChange f) r c) st2).
  { simpl. rewrite (deref_live _ _ _ Hoc). simpl. rewrite Hkc.
    unfold QtProperty_setValue. rewrite (deref_live _ _ _ Hoc). simpl.
    rewrite decide_True by done. fold st1. fold st2.
    rewrite (same_shape_receivers st st2 c Hs2).
    rewrite (wired_receivers st c oc Hw Hoc), Hpar, Ho. done. }
  rewrite Hrun.
  assert (Hnotab : forall s, same_shape st s -> ~ above s p c).
  { intros s Hs Hab. apply (same_shape_above _ _ _ _ (same_shape_sym _ _ Hs)) in Hab.
    pose proof (above_rank _ _ _ _ _ Hr Hab). lia. }
  (* what a store by [p] followed by its emission leaves *)
  assert (Hstore : forall v, exists st' new',
    emitValueChange f p p (modify p (set_value v) st2) = Done st' /\
    heap st' !! c = Some (set_value x oc) /\
    heap st' !! p = Some (set_value v o) /\
    emitted st' = emitted st ++ (c, signalValueChange c) :: new' /\
    sent_by p new' = [(p, signalValueChange p)]).
  { intros v. set (st3 := modify p (set_value v) st2).
    assert (Hs3 : same_shape st st3).
    { eapply same_shape_trans; [exact Hs2|apply same_shape_modify_value]. }
    assert (Hf3 : forest lvl N st3) by (by eapply same_shape_forest).
    assert (Hp3 : heap st3 !! p = Some (set_value v o)).
    { unfold st3. rewrite heap_modify, decide_True by done. by rewrite Hp2. }
    assert (Hc3 : heap st3 !! c = Some (set_value x oc)).
    { unfold st3. rewrite heap_modify, decide_False by done. done. }
    destruct (emitValueChange_own lvl N f p p st3 _ Hf3 Hp3)
      as (st' & new' & Hrun' & Hs' & Hown & Hem & Hsent); [lia|].
    pose proof (emitValueChange_up _ _ _ _ _ (forest_connected _ _ _ Hf3) Hrun')
      as (_ & Hfr & _).
    exists st', new'. split_and!; try done.
    - rewrite Hfr; [done|]. by apply Hnotab.
    - by rewrite Hown.
    - rewrite Hem. change (emitted st3) with (emitted st2). rewrite He2.
      by rewrite <- app_assoc. }
  assert (Hquiet : exists new,
    emitted st2 = emitted st ++ new /\ sent_by p new = []).
  { exists [(c, signalValueChange c)]. split; [done|].
    unfold sent_by. rewrite filter_cons. simpl.
    by rewrite decide_False by congruence. }
  destruct (cls o) eqn:Hk; simpl.
  - (* a plain parent *)
    destruct Hquiet as (new & Hem & Hsent). by exists st2, o, new.
  - (* a list *)
    destruct (linked_up _ Hl _ _ _ Hoc Hpar) as (o0 & Ho0 & Hin).
    assert (o0 = o) as -> by congruence.
    apply list_elem_of_lookup in Hin as [i Hi].
    pose proof (linked_nodup _ Hl _ _ Ho) as Hnd.
    unfold slotChildValueChange. rewrite (deref_live _ _ _ Hp2). simpl.
    rewrite Hk. unfold QtListProperty_slotChildValueChange.
    rewrite (deref_live _ _ _ Hp2). simpl. unfold indexChild.
    rewrite (indexOf_lookup _ _ _ Hnd Hi).
    rewrite decide_True by lia. rewrite (deref_live _ _ _ Hc2). simpl.
    rewrite Nat2Z.id. rewrite ensureSize_lookup by lia. simpl.
    set (l := toList (value_ o)).
    assert (Hpos : forall i', children_ o !! i' = Some c -> i' = i).
    { intros i' Hi'. by eapply NoDup_lookup. }
    destruct (decide (default Invalid (l !! i) <> x)) as [Hd|Hd].
    + destruct (Hstore (VList (<[i:=x]> (ensureSize l (Z.of_nat i + 1)))))
        as (st' & new' & Hrun' & Hc' & Hp' & Hem & Hsent).
      rewrite Hrun'. simpl.
      eexists st', _, ((c, signalValueChange c) :: new').
      do 2 (split; [done|]). split; [exact Hp'|]. split; [done|]. simpl.
      assert (Hread : forall j : nat,
        default Invalid (<[i:=x]> (ensureSize l (Z.of_nat i + 1)) !! j) =
        if decide (j = i) then x else default Invalid (l !! j)).
      { intros j. destruct (decide (j = i)) as [->|Hji].
        - rewrite list_lookup_insert_eq; [done|].
          rewrite ensureSize_length. lia.
        - rewrite list_lookup_insert_ne by done. apply ensureSize_read. }
      split.
      * intros i' Hi' j. rewrite (Hpos i' Hi'). apply Hread.
      * rewrite decide_False.
        -- unfold sent_by. rewrite filter_cons. simpl.
           rewrite decide_False by congruence. exact Hsent.
        -- intros Heq. apply Hd. fold l.
           specialize (Hread i). rewrite decide_True in Hread by done.
           rewrite <- Hread. do 2 f_equal. unfold l at 1. by rewrite <- Heq.
    + destruct Hquiet as (new & Hem & Hsent).
      exists st2, o, new. do 4 (split; [done|]). split.
      * intros i' Hi' j. rewrite (Hpos i' Hi'). fold l.
        destruct (decide (j = i)) as [->|]; [|done].
        by destruct (decide (default Invalid (l !! i) = x)); [|destruct Hd].
      * by rewrite decide_True.
  - (* a dict *)
    unfold slotChildValueChange. rewrite (deref_live _ _ _ Hp2). simpl.
    rewrite Hk. unfold QtDictProperty_slotChildValueChange.
    rewrite (deref_live _ _ _ Hp2). simpl.
    rewrite (deref_live _ _ _ Hc2). simpl.
    set (m := toMap (value_ o)).
    destruct (decide (x <> QMap_value m (name_ oc))) as [Hd|Hd].
    + destruct (Hstore (fromMap (<[name_ oc:=x]> m)))
        as (st' & new' & Hrun' & Hc' & Hp' & Hem & Hsent).
      rewrite Hrun'. simpl.
      eexists st', _, ((c, signalValueChange c) :: new').
      do 2 (split; [done|]). split; [exact Hp'|]. split; [done|].
      cbn [value_ set_value]. rewrite toMap_fromMap.
      assert (Hread : forall n, QMap_value (<[name_ oc:=x]> m) n =
        if decide (n = name_ oc) then x else QMap_value m n).
      { intros n. unfold QMap_value. destruct (decide (n = name_ oc)) as [->|].
        - by rewrite lookup_insert_eq.
        - by rewrite lookup_insert_ne. }
      split; [exact Hread|].
      rewrite decide_False.
      * unfold sent_by. rewrite filter_cons. simpl.
        rewrite decide_False by congruence. exact Hsent.
      * intros Heq. apply Hd. cbn [value_ set_value] in Heq.
        assert (Hm : m = <[name_ oc:=x]> m).
        { unfold m at 1. rewrite <- Heq. by rewrite toMap_fromMap. }
        rewrite Hm. symmetry. specialize (Hread (name_ oc)).
        by rewrite decide_True in Hread.
    + destruct Hquiet as (new & Hem & Hsent).
      exists st2, o, new. do 4 (split; [done|]). split.
      * intros n. fold m. destruct (decide (n = name_ oc)) as [->|]; [|done].
        by destruct (decide (x = QMap_value m (name_ oc))); [|destruct Hd].
      * by rewrite decide_True.
  - (* a group *)
    unfold slotChildValueChange. rewrite (deref_live _ _ _ Hp2). simpl.
    rewrite Hk. unfold QtGroupProperty_slotChildValueChange.
    destruct (emitValueChange_own lvl N f p c st2 _ Hf2 Hc2)
      as (st' & new' & Hrun' & Hs' & Hown & Hem & Hsent); [lia|].
    pose proof (emitValueChange_up _ _ _ _ _ (forest_connected _ _ _ Hf2) Hrun')
      as (_ & Hfr & _).
    rewrite Hrun'. simpl.
    exists st', o, ((c, signalValueChange c) :: new'). split_and!.
    + done.
    + rewrite Hfr; [done|]. by apply Hnotab.
    + by rewrite Hown.
    + rewrite Hem, He2. by rewrite <- app_assoc.
    + done.
    + unfold sent_by. rewrite filter_cons. simpl.
      rewrite decide_False by congruence. exact Hsent.
Qed.

(** * Groups pass a change on; a removed child is no longer heard *)

Lemma group_line_above st c g : group_line st c g -> above st c g.
Proof.
  induction 1 as [c g og Hc _ _|c p op g Hc _ _ _ IH].
  - by apply above_parent.
  - by eapply above_step.
Qed.

Lemma group_line_shape st s c g :
  same_shape st s -> group_line st c g -> group_line s c g.
Proof.
  intros Hs. induction 1 as [c g og Hc Hg Hk|c p op g Hc Hp Hk _ IH].
  - destruct (same_shape_lookup _ _ _ _ Hs Hg) as (og' & Hg' & Hsk).
    apply skeleton_fields in Hsk as (Hk' & _).
    eapply group_parent; [by eapply same_shape_child_of|exact Hg'|congruence].
  - destruct (same_shape_lookup _ _ _ _ Hs Hp) as (op' & Hp' & Hsk).
    apply skeleton_fields in Hsk as (Hk' & _).
    eapply group_step;
      [by eapply same_shape_child_of|exact Hp'|congruence|exact IH].
Qed.

Lemma sent_by_cons_ne p s e (new : list (ptr * Signal)) :
  s <> p -> sent_by p ((s, e) :: new) = sent_by p new.
Proof. intros Hne. unfold sent_by. rewrite filter_cons. by rewrite decide_False. Qed.

(** One emission travelling up a line of groups. *)
Lemma group_line_relay lvl N st c g :
  group_line st c g ->
  forall fuel s a oa, same_shape st s -> forest lvl N s -> wired s ->
    heap s !! a = Some oa -> (lvl c < fuel)%nat ->
    exists s' new,
      emitValueChange fuel c a s = Done s' /\
      emitted s' = emitted s ++ new /\
      sent_by g new = [(g, signalValueChange a)] /\
      heap s' !! g = heap s !! g.
Proof.
  induction 1 as [c g og Hc Hg Hk|c p op g Hc Hp Hk Hline IH];
    intros fuel s a oa Hs Hf Hw Ha Hfuel.
  all: destruct fuel as [|f]; [lia|].
  all: pose proof (forest_ranked _ _ _ Hf) as Hr.
  all: pose proof (same_shape_child_of _ _ _ _ Hs Hc) as Hc'.
  all: pose proof (child_of_rank _ _ _ _ _ Hr Hc') as Hlt.
  all: set (s1 := record c (signalValueChange a) s).
  all: assert (Hf1 : forest lvl N s1)
         by (eapply same_shape_forest; [apply same_shape_record|done]).
  all: assert (Ha1 : heap s1 !! a = Some oa) by done.
  - destruct (same_shape_lookup _ _ _ _ Hs Hg) as (og' & Hg' & Hsk).
    apply skeleton_fields in Hsk as (Hk' & _).
    destruct Hc' as (oc & Hoc & Hpar).
    assert (Hrun : emitValueChange (S f) c a s = emitValueChange f g a s1).
    { simpl. fold s1.
      rewrite (same_shape_receivers s s1 c (same_shape_record _ _ _)).
      rewrite (wired_receivers s c oc Hw Hoc), Hpar, Hg', Hk', Hk. simpl.
      unfold slotChildValueChange.
      rewrite (deref_live g s1 og') by done. simpl. rewrite Hk', Hk.
      unfold QtGroupProperty_slotChildValueChange.
      by destruct (emitValueChange f g a s1). }
    destruct (emitValueChange_own lvl N f g a s1 oa Hf1 Ha1)
      as (s' & new & Hrun' & _ & Hown & Hem & Hsent); [lia|].
    exists s', ((c, signalValueChange a) :: new). split_and!.
    + by rewrite Hrun.
    + rewrite Hem. unfold s1. simpl. by rewrite <- app_assoc.
    + rewrite sent_by_cons_ne; [done|]. intros ->. lia.
    + by rewrite Hown.
  - destruct (same_shape_lookup _ _ _ _ Hs Hp) as (op' & Hp' & Hsk).
    apply skeleton_fields in Hsk as (Hk' & _).
    destruct Hc' as (oc & Hoc & Hpar).
    assert (Hrun : emitValueChange (S f) c a s = emitValueChange f p a s1).
    { simpl. fold s1.
      rewrite (same_shape_receivers s s1 c (same_shape_record _ _ _)).
      rewrite (wired_receivers s c oc Hw Hoc), Hpar, Hp', Hk', Hk. simpl.
      unfold slotChildValueChange.
      rewrite (deref_live p s1 op') by done. simpl. rewrite Hk', Hk.
      unfold QtGroupProperty_slotChildValueChange.
      by destruct (emitValueChange f p a s1). }
    assert (Hs1 : same_shape st s1).
    { eapply same_shape_trans; [exact Hs|apply same_shape_record]. }
    assert (Hw1 : wired s1)
      by (eapply same_shape_wired; [apply same_shape_record|done]).
    destruct (IH f s1 a oa Hs1 Hf1 Hw1 Ha1) as (s' & new & Hrun' & Hem & Hsent & Hown);
      [lia|].
    exists s', ((c, signalValueChange a) :: new). split_and!.
    + by rewrite Hrun.
    + rewrite Hem. unfold s1. simpl. by rewrite <- app_assoc.
    + rewrite sent_by_cons_ne; [done|]. intros ->.
      pose proof (group_line_above _ _ _ Hline) as Hab.
      apply (same_shape_above _ _ _ _ Hs) in Hab.
      pose proof (above_rank _ _ _ _ _ Hr Hab). lia.
    + by rewrite Hown.
Qed.

(** X16: A notification passes through groups unchanged: when a node below a
    line of groups emits [signalValueChange] for a property, each group on the
    line emits it once more for the same property and keeps its own record. So
    a change of a plain property under nested groups is announced by the
    outermost group under the identity of that property. *)
Theorem groups_relay_value_change lvl N st c g :
  forest lvl N st -> wired st -> group_line st c g ->
  (forall fuel a oa, heap st !! a = Some oa -> (lvl c < fuel)%nat ->
     exists st' new,
       emitValueChange fuel c a st = Done st' /\
       emitted st' = emitted st ++ new /\
       sent_by g new = [(g, signalValueChange a)] /\
       heap st' !! g = heap st !! g) /\
  (forall fuel oc x, heap st !! c = Some oc -> cls oc = CQtProperty ->
     value_ oc <> x -> (lvl c + 1 < fuel)%nat ->
     exists st' new,
       setValue fuel c x st = Done st' /\
       heap st' !! c = Some (set_value x oc) /\
       emitted st' = emitted st ++ new /\
       sent_by g new = [(g, signalValueChange c)] /\
       heap st' !! g = heap st !! g).
Proof.
  intros Hf Hw Hline. split.
  - intros fuel a oa Ha Hfuel.
    by apply (group_line_relay lvl N st c g Hline fuel st a oa
                (same_shape_refl st)).
  - intros fuel oc x Hoc Hk Hne Hfuel.
    pose proof (forest_ranked _ _ _ Hf) as Hr.
    pose proof (group_line_above _ _ _ Hline) as Hab.
    pose proof (above_rank _ _ _ _ _ Hr Hab) as Hlt.
    destruct fuel as [|f]; [lia|].
    set (st1 := modify c (set_value x) st).
    assert (Hs1 : same_shape st st1) by apply same_shape_modify_value.
    assert (Hc1 : heap st1 !! c = Some (set_value x oc)).
    { unfold st1. rewrite heap_modify, decide_True by done. by rewrite Hoc. }
    destruct (group_line_relay lvl N st c g Hline f st1 c
                (set_value x oc) Hs1)
      as (st' & new & Hrun & Hem & Hsent & Hown); [..|exact Hc1|lia|].
    { by eapply same_shape_forest. }
    { by eapply same_shape_wired. }
    pose proof (emitValueChange_up _ _ _ _ _
      (same_shape_connected_up _ _ Hs1 (forest_connected _ _ _ Hf)) Hrun)
      as (_ & Hfr & _).
    exists st', new. split_and!; try done.
    + simpl. rewrite (deref_live _ _ _ Hoc). simpl. rewrite Hk.
      unfold QtProperty_setValue. rewrite (deref_live _ _ _ Hoc). simpl.
      by rewrite decide_True by done.
    + rewrite Hfr; [done|]. intros Hcc.
      apply (same_shape_above _ _ _ _ (same_shape_sym _ _ Hs1)) in Hcc.
      pose proof (above_rank _ _ _ _ _ Hr Hcc). lia.
    + rewrite Hown. unfold st1. rewrite heap_modify, decide_False; [done|].
      intros ->. lia.
Qed.

Lemma unlinked_ranked lvl N k this child i st :
  ranked lvl N st -> ranked lvl N (unlinked k this child i st).
Proof.
  intros Hr q o'. rewrite heap_unlinked.
  destruct (heap st !! q) as [o|] eqn:Hq; [|done]. simpl. intros [= <-].
  destruct (Hr q o Hq) as [HN Hlt]. split; [done|].
  intros p. repeat case_decide; simpl; try done; apply Hlt.
Qed.

(** X17: Once [removeChild] has taken a child out, the former parent no longer
    hears of it: a later [setValue] on the child, whatever it does below the
    child, leaves the former parent as it is and makes it emit nothing. *)
Theorem removed_child_is_not_heard lvl N st this child st1 fuel x st2 :
  forest lvl N st -> wired st ->
  removeChild this child st = Done st1 ->
  setValue fuel child x st1 = Done st2 ->
  heap st2 !! this = heap st1 !! this /\
  receivers child st1 = [] /\
  exists new, emitted st2 = emitted st1 ++ new /\ sent_by this new = [] /\
    Forall (fun e => below st1 child e.1) new.
Proof.
  intros Hf Hw Hrm Hset.
  pose proof (forest_ranked _ _ _ Hf) as Hr.
  pose proof (forest_linked _ _ _ Hf) as Hl.
  apply removeChild_inv in Hrm as (o & oc & i & Ho & Hoc & Hpar & Hi & ->);
    [|done].
  pose proof (unlinked_linked (cls o) _ _ _ _ _ _ Hl Ho Hoc Hpar Hi) as Hl1.
  pose proof (unlinked_wired _ _ i _ _ _ Hl Hw Ho Hoc Hpar) as Hw1.
  pose proof (unlinked_ranked lvl N (cls o) this child i st Hr) as Hr1.
  assert (Hc1 : exists oc1, heap (unlinked (cls o) this child i st) !! child
                            = Some oc1 /\ parent_ oc1 = None).
  { rewrite heap_unlinked, Hoc. simpl. eexists. split; [done|].
    rewrite (decide_True (P := child = child)) by done.
    by destruct (decide (this = child)). }
  revert Hl1 Hw1 Hr1 Hc1 Hset. generalize (unlinked (cls o) this child i st).
  intros st1 Hl1 Hw1 Hr1 (oc1 & Hoc1 & Hpar1) Hset.
  assert (Hf1 : forest lvl N st1).
  { split; [done|by apply wired_connected_up|done]. }
  assert (Hrec : receivers child st1 = []).
  { by rewrite (wired_receivers st1 child oc1 Hw1 Hoc1), Hpar1. }
  pose proof (setValue_pushed_down lvl N _ _ _ _ _ Hf1 Hset) as Hp.
  destruct (pushed_quiet _ _ _ _ Hp) as (_ & Hfr & new & Hem & Hall).
  { intros r Hin. rewrite Hrec in Hin. by apply elem_of_nil in Hin. }
  assert (Hchild : child_of st child this) by (by exists oc).
  pose proof (child_of_rank _ _ _ _ _ Hr Hchild) as Hlt.
  assert (Hout : ~ below st1 child this).
  { intros Hb. pose proof (below_rank _ _ _ _ _ Hr1 Hb). lia. }
  split_and!; [by apply Hfr|done|].
  exists new. split_and!; [done| |done].
  by apply (sent_by_outside (below st1 child)).
Qed.

(** * Who a slot listens to *)

(** X18: The slot of a list looks the reporting property up among its children
    and ignores one that is not there. The slot of a dict makes no such check:
    it files the value of whatever property is reported under that property's
    name, child or not. *)
Theorem slots_differ_on_strangers lvl N st this o a oa :
  forest lvl N st -> heap st !! this = Some o -> heap st !! a = Some oa ->
  a ∉ children_ o ->
  (cls o = CQtListProperty -> forall fuel,
     slotChildValueChange (emitValueChange fuel) this a st = Done st) /\
  (cls o = CQtDictProperty ->
   value_ oa <> QMap_value (toMap (value_ o)) (name_ oa) ->
   forall fuel, (lvl this < fuel)%nat ->
     exists st' o',
       slotChildValueChange (emitValueChange fuel) this a st = Done st' /\
       heap st' !! this = Some o' /\
       QMap_value (toMap (value_ o')) (name_ oa) = value_ oa).
Proof.
  intros Hf Ho Ha Hout. split.
  - intros Hk fuel. unfold slotChildValueChange.
    rewrite (deref_live _ _ _ Ho). simpl. rewrite Hk.
    unfold QtListProperty_slotChildValueChange.
    rewrite (deref_live _ _ _ Ho). simpl. unfold indexChild.
    rewrite indexOf_absent by done. by rewrite decide_False by lia.
  - intros Hk Hne fuel Hfuel. unfold slotChildValueChange.
    rewrite (deref_live _ _ _ Ho). simpl. rewrite Hk.
    unfold QtDictProperty_slotChildValueChange.
    rewrite (deref_live _ _ _ Ho). simpl.
    rewrite (deref_live _ _ _ Ha). simpl. rewrite decide_True by done.
    set (v := fromMap (<[name_ oa:=value_ oa]> (toMap (value_ o)))).
    set (st1 := modify this (set_value v) st).
    assert (Hf1 : forest lvl N st1).
    { eapply same_shape_forest; [apply same_shape_modify_value|done]. }
    assert (Ho1 : heap st1 !! this = Some (set_value v o)).
    { unfold st1. rewrite heap_modify, decide_True by done. by rewrite Ho. }
    destruct (emitValueChange_own lvl N fuel this this st1 _ Hf1 Ho1 Hfuel)
      as (st' & new & Hrun & _ & Hown & _).
    exists st', (set_value v o). split_and!; [done|by rewrite Hown|].
    cbn [value_ set_value]. unfold v. rewrite toMap_fromMap.
    unfold QMap_value. by rewrite lookup_insert_eq.
Qed.

(** * Locality and termination of the value calls *)

(** X19: [setValue] and [setChildValue] work along one line of the tree: below
    the receiver and, through the notifications, above it. A node that is
    neither in the subtree of the receiver nor one of its ancestors, a sibling
    or a cousin say, keeps every field and emits nothing. *)
Theorem value_calls_stay_on_the_line TYPE_GROUP lvl N st this fuel st' :
  forest lvl N st ->
  (exists x, setValue fuel this x st = Done st') \/
  (exists name x, setChildValue TYPE_GROUP fuel this name x st = Done st') ->
  exists new,
    emitted st' = emitted st ++ new /\
    forall q, ~ below st this q -> ~ above st this q ->
      heap st' !! q = heap st !! q /\ sent_by q new = [].
Proof.
  intros Hf Hrun.
  assert (T : touches (fun q => below st this q \/ above st this q) st st').
  { destruct Hrun as [(x & Hrun)|(name & x & Hrun)].
    - exact (pushed_touches _ _ _ _
               (setValue_pushed_down lvl N _ _ _ _ _ Hf Hrun)).
    - by destruct (setChildValue_spec TYPE_GROUP lvl N name x _ _ _ _ Hf Hrun). }
  destruct T as (_ & Hfr & new & Hem & Hall).
  exists new. split; [done|]. intros q Hb Ha. split.
  - apply Hfr. tauto.
  - apply (sent_by_outside (fun q => below st this q \/ above st this q));
      [done|tauto].
Qed.

Lemma foreach_Done_ext {A : Type} (l : list A) body1 body2 st st' :
  (forall x s s', x ∈ l -> body1 x s = Done s' -> body2 x s = Done s') ->
  foreach l body1 st = Done st' -> foreach l body2 st = Done st'.
Proof.
  revert st. induction l as [|x l IH]; intros st Hext Hrun; [done|].
  simpl in *. apply bind_Done in Hrun as (s1 & Hx & Hrun).
  rewrite (Hext x st s1) by (done || left). simpl.
  apply IH; [|done]. intros; apply Hext; [by right|done].
Qed.

Lemma slotChildValueChange_Done_ext emit1 emit2 r a st st' :
  (forall s b s0 s1, emit1 s b s0 = Done s1 -> emit2 s b s0 = Done s1) ->
  slotChildValueChange emit1 r a st = Done st' ->
  slotChildValueChange emit2 r a st = Done st'.
Proof.
  intros Hext. unfold slotChildValueChange. intros Hrun.
  apply bind_Done in Hrun as (o & Ho%deref_Done & Hrun).
  rewrite (deref_live _ _ _ Ho). simpl. destruct (cls o); [done| | |].
  - unfold QtListProperty_slotChildValueChange in *.
    rewrite (deref_live _ _ _ Ho) in *. simpl in *.
    destruct (decide (0 <= indexChild o a)); [|done].
    destruct (deref a st); simpl in *; try done.
    destruct (ensureSize _ _ !! _); [|done].
    destruct (decide _); [by apply Hext|done].
  - unfold QtDictProperty_slotChildValueChange in *.
    rewrite (deref_live _ _ _ Ho) in *. simpl in *.
    destruct (deref a st); simpl in *; try done.
    destruct (decide _); [by apply Hext|done].
  - by apply Hext.
Qed.

Lemma emitValueChange_more fuel :
  forall s a st st', emitValueChange fuel s a st = Done st' ->
    emitValueChange (S fuel) s a st = Done st'.
Proof.
  induction fuel as [|f IH]; intros s a st st' Hrun; [done|].
  change (foreach (receivers s (record s (signalValueChange a) st))
            (fun r => slotChildValueChange (emitValueChange (S f)) r a)
            (record s (signalValueChange a) st) = Done st').
  simpl in Hrun. eapply foreach_Done_ext; [|exact Hrun].
  intros r s0 s1 _. by apply slotChildValueChange_Done_ext.
Qed.

Lemma QtProperty_setValue_Done_ext emit1 emit2 c x st st' :
  (forall s b s0 s1, emit1 s b s0 = Done s1 -> emit2 s b s0 = Done s1) ->
  QtProperty_setValue emit1 c x st = Done st' ->
  QtProperty_setValue emit2 c x st = Done st'.
Proof.
  intros Hext. unfold QtProperty_setValue. intros Hrun.
  destruct (deref c st) as [o| | |]; simpl in *; try done.
  destruct (decide _); [by apply Hext|done].
Qed.

Lemma QtListProperty_setValue_Done_ext set1 set2 emit1 emit2 c x st st' :
  (forall q v s0 s1, set1 q v s0 = Done s1 -> set2 q v s0 = Done s1) ->
  (forall s b s0 s1, emit1 s b s0 = Done s1 -> emit2 s b s0 = Done s1) ->
  QtListProperty_setValue set1 emit1 c x st = Done st' ->
  QtListProperty_setValue set2 emit2 c x st = Done st'.
Proof.
  intros Hset Hext. unfold QtListProperty_setValue. intros Hrun.
  destruct (deref c st) as [o| | |]; simpl in *; try done.
  destruct (decide _); [done|].
  apply bind_Done in Hrun as (st2 & Hloop & Hrun).
  erewrite foreach_Done_ext; [|  |exact Hloop].
  - simpl. by apply Hext.
  - intros i s s' _ Hstep. simpl in *.
    destruct (deref c s) as [o'| | |]; simpl in *; try done.
    destruct (children_ o' !! i); [|done].
    destruct (ensureSize _ _ !! i); [|done]. by apply Hset.
Qed.

Lemma QtDictProperty_setValue_Done_ext set1 set2 emit1 emit2 c x st st' :
  (forall q v s0 s1, set1 q v s0 = Done s1 -> set2 q v s0 = Done s1) ->
  (forall s b s0 s1, emit1 s b s0 = Done s1 -> emit2 s b s0 = Done s1) ->
  QtDictProperty_setValue set1 emit1 c x st = Done st' ->
  QtDictProperty_setValue set2 emit2 c x st = Done st'.
Proof.
  intros Hset Hext. unfold QtDictProperty_setValue. intros Hrun.
  destruct (deref c st) as [o| | |]; simpl in *; try done.
  destruct (decide _); [done|].
  apply bind_Done in Hrun as (st2 & Hloop & Hrun).
  erewrite foreach_Done_ext; [|  |exact Hloop].
  - simpl. by apply Hext.
  - intros child s s' _ Hstep. simpl in *.
    destruct (deref child s) as [oc| | |]; simpl in *; try done.
    by apply Hset.
Qed.

Lemma setValue_more fuel :
  forall c x st st', setValue fuel c x st = Done st' ->
    setValue (S fuel) c x st = Done st'.
Proof.
  induction fuel as [|f IH]; intros c x st st' Hrun; [done|].
  change (bind (deref c st) (fun o =>
    match cls o with
    | CQtProperty => QtProperty_setValue (emitValueChange (S f)) c x st
    | CQtListProperty =>
        QtListProperty_setValue (setValue (S f)) (emitValueChange (S f)) c x st
    | CQtDictProperty =>
        QtDictProperty_setValue (setValue (S f)) (emitValueChange (S f)) c x st
    | CQtGroupProperty => QtGroupProperty_setValue c x st
    end) = Done st').
  simpl in Hrun. apply bind_Done in Hrun as (o & Ho%deref_Done & Hrun).
  rewrite (deref_live _ _ _ Ho). cbn [bind]. destruct (cls o); [| | |done].
  - eapply QtProperty_setValue_Done_ext; [|exact Hrun].
    apply emitValueChange_more.
  - eapply QtListProperty_setValue_Done_ext; [| |exact Hrun].
    + exact IH.
    + apply emitValueChange_more.
  - eapply QtDictProperty_setValue_Done_ext; [| |exact Hrun].
    + exact IH.
    + apply emitValueChange_more.
Qed.

Lemma QtGroupProperty_findChild_loop_ext TYPE_GROUP virt1 virt2 st name l r :
  (forall c res, virt1 c name st = Done res -> virt2 c name st = Done res) ->
  QtGroupProperty_findChild_loop TYPE_GROUP virt1 st name l = Done r ->
  QtGroupProperty_findChild_loop TYPE_GROUP virt2 st name l = Done r.
Proof.
  intros Hext. induction l as [|c l IH]; [done|]. simpl. intros Hrun.
  destruct (deref c st) as [oc| | |]; simpl in *; try done.
  destruct (decide (name = name_ oc)); [done|].
  destruct (decide (type_ oc = TYPE_GROUP)); [|by apply IH].
  apply bind_Done in Hrun as (res & Hres & Hrun).
  rewrite (Hext _ _ Hres). simpl. destruct res; [done|by apply IH].
Qed.

Lemma findChild_more TYPE_GROUP fuel :
  forall g name st r, findChild TYPE_GROUP fuel g name st = Done r ->
    findChild TYPE_GROUP (S fuel) g name st = Done r.
Proof.
  induction fuel as [|f IH]; intros g name st r Hrun; [done|].
  change (bind (deref g st) (fun o =>
    match cls o with
    | CQtGroupProperty =>
        QtGroupProperty_findChild TYPE_GROUP (findChild TYPE_GROUP (S f))
          g name st
    | _ => QtProperty_findChild g name st
    end) = Done r).
  simpl in Hrun. apply bind_Done in Hrun as (o & Ho%deref_Done & Hrun).
  rewrite (deref_live _ _ _ Ho). cbn [bind]. destruct (cls o); try done.
  unfold QtGroupProperty_findChild in *. rewrite (deref_live _ _ _ Ho) in *.
  cbn [bind] in *. eapply QtGroupProperty_findChild_loop_ext; [|exact Hrun].
  intros c res. apply IH.
Qed.

Lemma QtProperty_setChildValue_Done_ext find1 find2 set1 set2 g name x st st' :
  (forall q r, find1 q name st = Done r -> find2 q name st = Done r) ->
  (forall q v s0 s1, set1 q v s0 = Done s1 -> set2 q v s0 = Done s1) ->
  QtProperty_setChildValue find1 set1 g name x st = Done st' ->
  QtProperty_setChildValue find2 set2 g name x st = Done st'.
Proof.
  intros Hfind Hset. unfold QtProperty_setChildValue. intros Hrun.
  apply bind_Done in Hrun as (res & Hres & Hrun).
  rewrite (Hfind _ _ Hres). simpl. destruct res; [by apply Hset|done].
Qed.

Lemma QtGroupProperty_setChildValue_Done_ext TYPE_GROUP rec1 rec2 set1 set2
  g name x st st' :
  (forall q s0 s1, rec1 q name x s0 = Done s1 -> rec2 q name x s0 = Done s1) ->
  (forall q v s0 s1, set1 q v s0 = Done s1 -> set2 q v s0 = Done s1) ->
  QtGroupProperty_setChildValue TYPE_GROUP rec1 set1 g name x st = Done st' ->
  QtGroupProperty_setChildValue TYPE_GROUP rec2 set2 g name x st = Done st'.
Proof.
  intros Hrec Hset. unfold QtGroupProperty_setChildValue. intros Hrun.
  destruct (deref g st) as [o| | |]; simpl in *; try done.
  eapply foreach_Done_ext; [|exact Hrun].
  intros child s s' _ Hstep. simpl in *.
  destruct (deref child s) as [oc| | |]; simpl in *; try done.
  destruct (decide (type_ oc = TYPE_GROUP)); [by apply Hrec|].
  destruct (decide (name = name_ oc)); [by apply Hset|done].
Qed.

Lemma setChildValue_more TYPE_GROUP fuel :
  forall g name x st st',
    setChildValue TYPE_GROUP fuel g name x st = Done st' ->
    setChildValue TYPE_GROUP (S fuel) g name x st = Done st'.
Proof.
  induction fuel as [|f IH]; intros g name x st st' Hrun; [done|].
  change (bind (deref g st) (fun o =>
    match cls o with
    | CQtGroupProperty =>
        QtGroupProperty_setChildValue TYPE_GROUP
          (setChildValue TYPE_GROUP (S f)) (setValue (S f)) g name x st
    | _ =>
        QtProperty_setChildValue (findChild TYPE_GROUP (S f)) (setValue (S f))
          g name x st
    end) = Done st').
  simpl in Hrun. apply bind_Done in Hrun as (o & Ho%deref_Done & Hrun).
  rewrite (deref_live _ _ _ Ho). cbn [bind].
  assert (Hbase :
    QtProperty_setChildValue (findChild TYPE_GROUP f) (setValue f) g name x st
      = Done st' ->
    QtProperty_setChildValue (findChild TYPE_GROUP (S f)) (setValue (S f))
      g name x st = Done st').
  { apply QtProperty_setChildValue_Done_ext.
    - intros q r. apply findChild_more.
    - intros q v s0 s1. apply setValue_more. }
  destruct (cls o); try by apply Hbase.
  eapply QtGroupProperty_setChildValue_Done_ext; [| |exact Hrun].
  - intros q s0 s1. apply IH.
  - intros q v s0 s1. apply setValue_more.
Qed.

(** X20: On a tree of height [N] the recursion of [setValue], [setChildValue],
    [findChild] and of the notifications they trigger comes to an end: a
    budget of [2 N + 3] nested calls is enough for each to return, and
    whatever a call returns within a budget it returns within every larger
    one. *)
Theorem value_calls_return TYPE_GROUP lvl N st this o name x :
  forest lvl N st -> heap st !! this = Some o ->
  (exists st', setValue (2 * N + 3) this x st = Done st') /\
  (exists st', setChildValue TYPE_GROUP (2 * N + 3) this name x st = Done st') /\
  (exists r, findChild TYPE_GROUP (2 * N + 3) this name st = Done r) /\
  (exists st', emitValueChange (2 * N + 3) this this st = Done st') /\
  (forall fuel more st',
     setValue fuel this x st = Done st' ->
     setValue (fuel + more) this x st = Done st') /\
  (forall fuel more st',
     setChildValue TYPE_GROUP fuel this name x st = Done st' ->
     setChildValue TYPE_GROUP (fuel + more) this name x st = Done st') /\
  (forall fuel more r,
     findChild TYPE_GROUP fuel this name st = Done r ->
     findChild TYPE_GROUP (fuel + more) this name st = Done r) /\
  (forall fuel more st',
     emitValueChange fuel this this st = Done st' ->
     emitValueChange (fuel + more) this this st = Done st').
Proof.
  intros Hf Ho.
  pose proof (forest_ranked _ _ _ Hf) as Hr.
  pose proof (forest_linked _ _ _ Hf) as Hl.
  destruct (Hr this o Ho) as [HN _].
  split_and!.
  - apply (setValue_total lvl N _ _ _ _ o Hf Ho). lia.
  - apply (setChildValue_total TYPE_GROUP lvl N name x _ _ _ o Hf Ho). lia.
  - apply (findChild_total TYPE_GROUP lvl N st name Hl Hr _ _ o Ho). lia.
  - apply (emitValueChange_total lvl N _ _ _ _ o Hf Ho). lia.
  - intros fuel more st' Hrun. induction more as [|m IH].
    + by rewrite Nat.add_0_r.
    + rewrite Nat.add_succ_r. by apply setValue_more.
  - intros fuel more st' Hrun. induction more as [|m IH].
    + by rewrite Nat.add_0_r.
    + rewrite Nat.add_succ_r. by apply setChildValue_more.
  - intros fuel more r Hrun. induction more as [|m IH].
    + by rewrite Nat.add_0_r.
    + rewrite Nat.add_succ_r. by apply findChild_more.
  - intros fuel more st' Hrun. induction more as [|m IH].
    + by rewrite Nat.add_0_r.
    + rewrite Nat.add_succ_r. by apply emitValueChange_more.
Qed.

(** * A list shows what it was given *)

(** What [setValue] on a list leaves in its children. *)
Lemma QtListProperty_setValue_children lvl N st this o v fuel :
  forest lvl N st -> heap st !! this = Some o -> cls o = CQtListProperty ->
  v <> value_ o -> (N - lvl this + N + 1 <= fuel)%nat ->
  exists st',
    setValue (S fuel) this v st = Done st' /\
    forall (i : nat) child oc,
      children_ o !! i = Some child -> heap st !! child = Some oc ->
      cls oc <> CQtGroupProperty ->
      heap st' !! child = Some (set_value (default Invalid (toList v !! i)) oc).
Proof.
  intros Hf Ho Hk Hne Hfuel.
  pose proof (forest_linked _ _ _ Hf) as Hl.
  pose proof (linked_nodup _ Hl _ _ Ho) as Hnd.
  set (n := length (children_ o)).
  destruct (setValue_total lvl N (S fuel) this v st o Hf Ho) as [st' Hrun];
    [lia|].
  exists st'. split; [done|].
  pose proof Hrun as Hrun'. simpl in Hrun'.
  rewrite (deref_live _ _ _ Ho) in Hrun'. simpl in Hrun'. rewrite Hk in Hrun'.
  unfold QtListProperty_setValue in Hrun'.
  rewrite (deref_live _ _ _ Ho) in Hrun'. simpl in Hrun'.
  rewrite decide_False in Hrun' by congruence.
  apply bind_Done in Hrun' as (st2 & Hloop & Hemit).
  pose proof (fun H1 H2 H3 H4 =>
    container_serves lvl N
      (fun i => default 0%nat (children_ o !! i))
      (fun i => default Invalid (toList v !! i))
      _ (seq 0 n) fuel st this o v st2 st' Hf Ho H1 H2 H3 H4 Hloop Hemit)
    as Hcs.
  destruct Hcs as (new' & Hem' & Hserved).
  - unfold n. by rewrite fmap_lookup_seq.
  - intros i Hi%elem_of_seq.
    destruct (lookup_lt_is_Some_2 (children_ o) i) as [c Hc]; [lia|].
    rewrite Hc. by eapply list_elem_of_lookup_2.
  - intros i s Hi%elem_of_seq Hos _. unfold settled. rewrite Hos. simpl.
    rewrite Hk. intros j Hj.
    destruct (lookup_lt_is_Some_2 (children_ o) i) as [c Hc]; [lia|].
    rewrite Hc in Hj. simpl in Hj.
    by rewrite (NoDup_lookup _ _ _ _ Hnd Hj Hc).
  - intros i s s' Hi%elem_of_seq Hos _ Hstep. simpl in Hstep.
    rewrite (deref_live _ _ _ Hos) in Hstep. simpl in Hstep.
    rewrite ensureSize_lookup in Hstep by (unfold n in Hi; lia).
    destruct (children_ o !! i) as [c|]; [|done]. done.
  - intros i child oc Hchild Hoc Hkc.
    pose proof (lookup_lt_Some _ _ _ Hchild) as Hi.
    destruct (Hserved i oc) as [H1 _].
    + apply elem_of_seq. unfold n. lia.
    + by rewrite Hchild.
    + rewrite Hchild in H1. simpl in H1. by apply H1.
Qed.

(** X21: After [setValue] has changed a list of plain properties, the list
    renders as the values it was given, one per child, each converted by
    [toString] and followed by a comma and a space; a child the value had no
    element for renders as a null value. *)
Theorem list_renders_what_it_was_given lvl N st this o v fuel :
  forest lvl N st -> heap st !! this = Some o -> cls o = CQtListProperty ->
  (forall c, c ∈ children_ o ->
     exists oc, heap st !! c = Some oc /\ cls oc = CQtProperty) ->
  v <> value_ o -> (N - lvl this + N + 1 <= fuel)%nat ->
  exists st',
    setValue (S fuel) this v st = Done st' /\
    getValueString 2 this st' =
      Done ("(" +:+
            joined ((fun i => toString (default Invalid (toList v !! i)))
                      <$> seq 0 (length (children_ o))) +:+ ")").
Proof.
  intros Hf Ho Hk Hplain Hne Hfuel.
  destruct (QtListProperty_setValue_children lvl N st this o v fuel Hf Ho Hk
              Hne Hfuel) as (st' & Hrun & Hkids).
  exists st'. split; [done|].
  pose proof (pushed_down_shape _ _ _ _
    (setValue_pushed_down lvl N _ _ _ _ _ Hf Hrun)) as Hs.
  destruct (same_shape_lookup _ _ _ _ Hs Ho) as (o' & Ho' & Hsk).
  apply skeleton_fields in Hsk as (Hk' & _ & _ & Hch & _).
  simpl. rewrite (deref_live _ _ _ Ho'). simpl. rewrite Hk', Hk.
  unfold QtListProperty_getValueString. rewrite (deref_live _ _ _ Ho'). simpl.
  rewrite Hch.
  rewrite (QtListProperty_getValueString_loop_spec _ _ _
    ((fun i => toString (default Invalid (toList v !! i)))
       <$> seq 0 (length (children_ o)))).
  - simpl. by rewrite !string_app_assoc.
  - apply Forall2_same_length_lookup_2.
    + by rewrite length_fmap, length_seq.
    + intros i c s Hc Hsi.
      pose proof (lookup_lt_Some _ _ _ Hc) as Hi.
      rewrite list_lookup_fmap, lookup_seq_lt in Hsi by done.
      simpl in Hsi. injection Hsi as <-.
      destruct (Hplain c) as (oc & Hoc & Hkc);
        [by eapply list_elem_of_lookup_2|].
      rewrite (deref_live _ _ _ (Hkids i c oc Hc Hoc ltac:(congruence))).
      simpl. by rewrite Hkc.
Qed.

(** * The theorems applied to the sample tree *)

Lemma forestb_sound lvl N st : forestb lvl N st = true -> forest lvl N st.
Proof.
  unfold forestb. intros H. apply andb_prop in H as [H H3].
  apply andb_prop in H as [H1 H2].
  split; [by apply linkedb_sound|by apply connected_upb_sound|
          by apply rankedb_sound].
Qed.

Lemma C1_witness :
  forest sampleLevel 2 sample /\
  exists st' new,
    setValue 4 3 (VInt 7) sample = Done st' /\
    heap st' !! 3%nat = Some (set_value (VInt 7) (sampleAt 3)) /\
    emitted st' = emitted sample ++ new /\
    sent_by 3%nat new = [(3%nat, signalValueChange 3)].
Proof.
  split; [apply forestb_sound; vm_compute; reflexivity|].
  destruct (QtProperty_setValue_notifies_on_change
              sampleLevel 2 sample 3 (sampleAt 3) (VInt 7)) as (_ & H & Hv).
  - apply forestb_sound; vm_compute; reflexivity.
  - vm_compute; reflexivity.
  - destruct (H ltac:(vm_compute; discriminate) 3%nat ltac:(vm_compute; lia))
      as (st' & new & H1 & H2 & H3 & H4 & _).
    exists st', new. split_and!; [|exact H2|exact H3|exact H4].
    rewrite (Hv ltac:(vm_compute; reflexivity) 3%nat). exact H1.
Defined.

Lemma C2_witness :
  linked sample /\ addChild 9 3 sample = AssertFailed /\
  (exists st' o' oc',
     removeChild 2 3 sample = Done st' /\ linked st' /\
     heap st' !! 2%nat = Some o' /\ heap st' !! 3%nat = Some oc' /\
     (3%nat ∉ children_ o') /\ parent_ oc' = None) /\
  (exists st', QtProperty_destroy 2 sample = Done st' /\ linked st') /\
  runStructOp_with (emit_if linkedb) (OpDestroy 2) sample
    = QtProperty_destroy 2 sample.
Proof.
  assert (Hl : linked sample)
    by (apply linkedb_sound; vm_compute; reflexivity).
  split; [exact Hl|].
  destruct (links_stay_in_sync sample Hl)
    as (_ & _ & _ & Hno & _ & _ & _ & _ & Hrem & Hret & _ & _ & Hseen).
  split_and!.
  - apply (Hno 9%nat 3%nat (sampleAt 3)).
    + vm_compute; reflexivity.
    + vm_compute; discriminate.
  - apply (Hrem 2%nat 3%nat (sampleAt 2) (sampleAt 3));
      vm_compute; reflexivity.
  - destruct (Hret 2%nat (sampleAt 2)) as (_ & _ & st' & H1 & H2 & _);
      [vm_compute; reflexivity|].
    by exists st'.
  - exact (Hseen (OpDestroy 2)).
Defined.

Lemma C3_witness :
  forest sampleLevel 2 sample /\
  exists st' new,
    setValue 6 2 (VList [VInt 9; VInt 2]) sample = Done st' /\
    heap st' !! 3%nat = Some (set_value (VInt 9) (sampleAt 3)) /\
    heap st' !! 4%nat = Some (sampleAt 4) /\
    emitted st' = emitted sample ++ new /\
    sent_by 2%nat new = [(2%nat, signalValueChange 2)] /\
    sent_by 4%nat new = [].
Proof.
  split; [apply forestb_sound; vm_compute; reflexivity|].
  destruct (QtListProperty_setValue_serves_children
              sampleLevel 2 sample 2 (sampleAt 2) (VList [VInt 9; VInt 2]))
    as (_ & _ & _ & H).
  - apply forestb_sound; vm_compute; reflexivity.
  - vm_compute; reflexivity.
  - vm_compute; reflexivity.
  - destruct (H ltac:(vm_compute; discriminate) 5%nat ltac:(vm_compute; lia))
      as (_ & st' & new & H1 & _ & H3 & H4 & H5).
    exists st', new.
    destruct (H5 0%nat 3%nat (sampleAt 3) (VInt 9)) as [Ha _];
      [vm_compute; reflexivity..|].
    destruct (H5 1%nat 4%nat (sampleAt 4) (VInt 2)) as [_ Hb];
      [vm_compute; reflexivity..|].
    destruct Hb as [Hb1 Hb2]; [vm_compute; reflexivity|].
    split_and!; [exact H1| |exact Hb1|exact H3|exact H4|exact Hb2].
    apply Ha. vm_compute; discriminate.
Defined.

Lemma C4_witness :
  forest sampleLevel 2 sampleChanged /\
  exists st' new,
    slotChildValueChange (emitValueChange 2) 2 3 sampleChanged = Done st' /\
    heap st' !! 2%nat =
      Some (set_value (VList [VInt 8; VInt 2]) (sampleAt 2)) /\
    emitted st' = emitted sampleChanged ++ new /\
    sent_by 2%nat new = [(2%nat, signalValueChange 2)].
Proof.
  split; [apply forestb_sound; vm_compute; reflexivity|].
  destruct (QtListProperty_slotChildValueChange_updates_position
              sampleLevel 2 sampleChanged 2 (sampleAt 2) 3
              (set_value (VInt 8) (sampleAt 3)) 0)
    as (_ & _ & _ & H).
  - apply forestb_sound; vm_compute; reflexivity.
  - vm_compute; reflexivity.
  - vm_compute; reflexivity.
  - vm_compute; reflexivity.
  - vm_compute; reflexivity.
  - destruct (H ltac:(vm_compute; discriminate) 2%nat ltac:(vm_compute; lia))
      as (st' & new & H1 & H2 & _ & _ & _ & H6 & H7).
    by exists st', new.
Defined.

Lemma C5_witness :
  forest sampleLevel 2 sample /\
  exists st' new,
    setValue 6 5 (fromMap (<["a" := VInt 5]> ∅)) sample = Done st' /\
    heap st' !! 6%nat = Some (set_value (VInt 5) (sampleAt 6)) /\
    heap st' !! 7%nat = Some (set_value Invalid (sampleAt 7)) /\
    emitted st' = emitted sample ++ new /\
    sent_by 5%nat new = [(5%nat, signalValueChange 5)].
Proof.
  split; [apply forestb_sound; vm_compute; reflexivity|].
  destruct (QtDictProperty_setValue_serves_children
              sampleLevel 2 sample 5 (sampleAt 5)
              (fromMap (<["a" := VInt 5]> ∅)))
    as (_ & _ & H).
  - apply forestb_sound; vm_compute; reflexivity.
  - vm_compute; reflexivity.
  - vm_compute; reflexivity.
  - destruct (H ltac:(vm_compute; discriminate) 5%nat ltac:(vm_compute; lia))
      as (_ & st' & new & H1 & _ & H3 & H4 & H5).
    exists st', new.
    destruct (H5 6%nat (sampleAt 6)) as [Ha _].
    { apply list_elem_of_In. vm_compute. tauto. }
    { vm_compute; reflexivity. }
    destruct (H5 7%nat (sampleAt 7)) as [Hb _].
    { apply list_elem_of_In. vm_compute. tauto. }
    { vm_compute; reflexivity. }
    split_and!; [exact H1| | |exact H3|exact H4].
    + apply Ha. vm_compute; discriminate.
    + apply Hb. vm_compute; discriminate.
Defined.

Lemma C6_witness :
  linked sample /\ ranked sampleLevel 2 sample /\
  (exists r o', findChild 3 3 1 "x" sample = Done (Some r) /\
     heap sample !! r = Some o' /\ name_ o' = "x") /\
  findChild 3 3 2 "a" sample = Done None /\
  findChild 3 3 1 "pos" (modify 5 (set_name "pos") sample) = Done (Some 2%nat).
Proof.
  assert (Hl : linked sample)
    by (apply linkedb_sound; vm_compute; reflexivity).
  assert (Hr : ranked sampleLevel 2 sample)
    by (apply rankedb_sound; vm_compute; reflexivity).
  split_and!; [exact Hl|exact Hr| | |].
  - destruct (QtGroupProperty_findChild_searches_groups
                3 sampleLevel 2 sample 1 (sampleAt 1) "x" Hl Hr)
      as (_ & _ & H & _); [vm_compute; reflexivity..|].
    apply (H 9%nat (sampleAt 9) 3%nat);
      [|vm_compute; reflexivity|vm_compute; reflexivity|vm_compute; lia].
    eapply (path_step _ _ 1%nat (sampleAt 1) 8%nat (sampleAt 8)).
    + vm_compute; reflexivity.
    + apply list_elem_of_In. vm_compute. tauto.
    + vm_compute; reflexivity.
    + split; vm_compute; reflexivity.
    + eapply (path_child _ _ 8%nat (sampleAt 8)).
      * vm_compute; reflexivity.
      * apply list_elem_of_In. vm_compute. tauto.
  - vm_compute; reflexivity.
  - destruct (QtGroupProperty_findChild_searches_groups
                3 sampleLevel 2 (modify 5 (set_name "pos") sample) 1
                (sampleAt 1) "pos")
      as (_ & _ & _ & _ & _ & _ & H & _).
    + apply linkedb_sound; vm_compute; reflexivity.
    + apply rankedb_sound; vm_compute; reflexivity.
    + vm_compute; reflexivity.
    + vm_compute; reflexivity.
    + apply (H 2%nat 0%nat 2%nat 2%nat).
      * vm_compute; reflexivity.
      * intros j d Hj. lia.
      * exists (sampleAt 2). split; [vm_compute; reflexivity|].
        left. split; [vm_compute; reflexivity|reflexivity].
Defined.

Lemma C7_witness :
  forest sampleLevel 2 sample /\
  exists st',
    setChildValue 3 8 1 "x" (VInt 5) sample = Done st' /\
    heap st' !! 9%nat = Some (set_value (VInt 5) (sampleAt 9)).
Proof.
  assert (Hf : forest sampleLevel 2 sample)
    by (apply forestb_sound; vm_compute; reflexivity).
  split; [exact Hf|].
  destruct (QtGroupProperty_setChildValue_sets_every_match
              3 sampleLevel 2 sample 1 (sampleAt 1) "x" (VInt 5) Hf)
    with (fuel := 7%nat) as (_ & st' & H1 & H2);
    [vm_compute; reflexivity|vm_compute; reflexivity|vm_compute; lia|].
  exists st'. split; [exact H1|].
  apply H2; [|vm_compute; reflexivity|vm_compute; reflexivity
             |vm_compute; discriminate|vm_compute; discriminate].
  eapply (path_step _ _ 1%nat (sampleAt 1) 8%nat (sampleAt 8)).
  - vm_compute; reflexivity.
  - apply list_elem_of_In. vm_compute. tauto.
  - vm_compute; reflexivity.
  - split; vm_compute; reflexivity.
  - eapply (path_child _ _ 8%nat (sampleAt 8)).
    + vm_compute; reflexivity.
    + apply list_elem_of_In. vm_compute. tauto.
Defined.

Lemma C8_witness :
  linked sample /\
  exists st' o',
    removeAllChildren 1 sample = Done st' /\
    heap st' !! 1%nat = Some o' /\ children_ o' = [] /\
    emitted st' =
      emitted sample ++
      [(1%nat, signalPropertyRemoved 2 (Some 1%nat));
       (1%nat, signalPropertyRemoved 5 (Some 1%nat));
       (1%nat, signalPropertyRemoved 8 (Some 1%nat))].
Proof.
  assert (Hl : linked sample)
    by (apply linkedb_sound; vm_compute; reflexivity).
  split; [exact Hl|].
  destruct (removeAllChildren_removes_every_child
              sample 1 (sampleAt 1) Hl)
    as (_ & st' & o' & new & H1 & H2 & H3 & H4 & H5 & _);
    [vm_compute; reflexivity|].
  exists st', o'. split_and!; [exact H1|exact H2|exact H3|].
  rewrite H4, H5. reflexivity.
Defined.

Lemma C9_witness :
  linked sample /\ ranked sampleLevel 2 sample /\
  getValueString 2 2 sample = Done "(1, 2, )".
Proof.
  assert (Hl : linked sample)
    by (apply linkedb_sound; vm_compute; reflexivity).
  assert (Hr : ranked sampleLevel 2 sample)
    by (apply rankedb_sound; vm_compute; reflexivity).
  split_and!; [exact Hl|exact Hr|].
  destruct (QtListProperty_getValueString_format
              sampleLevel 2 sample 2 (sampleAt 2) Hl Hr)
    as (_ & _ & H & _); [vm_compute; reflexivity..|].
  apply (H 1%nat 3%nat 4%nat); vm_compute; reflexivity.
Defined.

Lemma C10_witness :
  linked sample /\
  exists st' new,
    QtProperty_destroy 3 sample = Done st' /\
    heap st' !! 3%nat = None /\
    emitted st' = emitted sample ++ new /\
    filter (removal_of 3) new =
      [(3%nat, signalPropertyRemoved 3 (Some 2%nat));
       (2%nat, signalPropertyRemoved 3 (Some 2%nat))].
Proof.
  assert (Hl : linked sample)
    by (apply linkedb_sound; vm_compute; reflexivity).
  split; [exact Hl|].
  destruct (destroy_notifies_removal sample 3 (sampleAt 3) Hl)
    as (st' & new & H1 & H2 & H3 & _ & H4); [vm_compute; reflexivity|].
  exists st', new. split_and!; [exact H1|exact H2|exact H3|exact H4].
Defined.

Lemma X1_witness :
  heap sample !! 3%nat = Some (sampleAt 3) /\
  exists st' o',
    setAttribute 3 "minimum" (VInt 0) sample = Done st' /\
    heap st' !! 3%nat = Some o' /\
    getAttribute o' "minimum" = VInt 0 /\ emitted st' = emitted sample.
Proof.
  split; [vm_compute; reflexivity|].
  destruct (setAttribute_then_getAttribute sample 3 (sampleAt 3) "minimum"
              (VInt 0))
    as (st' & o' & H1 & H2 & H3 & _ & _ & _ & _ & _ & _ & _ & H4 & _);
    [vm_compute; reflexivity|].
  exists st', o'. split_and!; [exact H1|exact H2|exact H3|exact H4].
Defined.

Lemma X2_witness :
  heap sample !! 3%nat = Some (sampleAt 3) /\
  exists st' o',
    setTitle 3 "" sample = Done st' /\ heap st' !! 3%nat = Some o' /\
    getTitle o' = "x".
Proof.
  split; [vm_compute; reflexivity|].
  destruct (getTitle_falls_back_to_name sample 3 (sampleAt 3) "")
    as [(st' & o' & H1 & H2 & H3 & _) _]; [vm_compute; reflexivity|].
  exists st', o'. split_and!; [exact H1|exact H2|].
  rewrite H3. vm_compute; reflexivity.
Defined.

Lemma X4_witness :
  linked sample /\ heap sample !! 1%nat = Some (sampleAt 1) /\
  QtProperty_findChild 1 "x" sample = Done None /\
  findChild 3 3 1 "x" sample = Done (Some 9%nat).
Proof.
  assert (Hl : linked sample)
    by (apply linkedb_sound; vm_compute; reflexivity).
  assert (Ho : heap sample !! 1%nat = Some (sampleAt 1))
    by (vm_compute; reflexivity).
  split_and!; [exact Hl|exact Ho| |vm_compute; reflexivity].
  destruct (QtProperty_findChild_first_direct_child sample 1 (sampleAt 1) "x"
              Hl Ho) as (res & Hrun & _ & Hnone & _).
  rewrite Hrun. f_equal. apply Hnone. intros c Hc.
  apply list_elem_of_In in Hc. vm_compute in Hc.
  destruct Hc as [<-|[<-|[<-|[]]]]; vm_compute; discriminate.
Defined.

Lemma X5_witness :
  forest sampleLevel 2 sample /\
  exists st',
    setChildValue 3 6 2 "y" (VInt 7) sample = Done st' /\
    heap st' !! 4%nat = Some (set_value (VInt 7) (sampleAt 4)) /\
    heap st' !! 3%nat = heap sample !! 3%nat.
Proof.
  assert (Hf : forest sampleLevel 2 sample)
    by (apply forestb_sound; vm_compute; reflexivity).
  split; [exact Hf|].
  destruct (QtProperty_setChildValue_first_match_only 3 sampleLevel 2 sample
              2 (sampleAt 2) "y" (VInt 7) 6 Hf)
    as (st' & Hrun & _ & Hfirst);
    [vm_compute; reflexivity|vm_compute; discriminate|vm_compute; lia|].
  destruct (Hfirst 1%nat 4%nat) as (_ & Hval & Hrest).
  { vm_compute; reflexivity. }
  { vm_compute; reflexivity. }
  { intros j d Hj Hd. assert (j = 0%nat) as -> by lia.
    vm_compute in Hd. injection Hd as <-. vm_compute; discriminate. }
  exists st'. split_and!; [exact Hrun| |].
  - apply Hval; [vm_compute; reflexivity|vm_compute; discriminate].
  - apply (Hrest 3%nat 3%nat); [|lia|by left].
    apply list_elem_of_In. vm_compute. tauto.
Defined.

Lemma X6_witness :
  let st := unlinked CQtGroupProperty 8 9 0 sample in
  linked st /\
  exists st' o',
    addChild 2 9 st = Done st' /\ heap st' !! 2%nat = Some o' /\
    indexChild o' 9 = 2.
Proof.
  set (st := unlinked CQtGroupProperty 8 9 0 sample).
  assert (Hl : linked st) by (apply linkedb_sound; vm_compute; reflexivity).
  split; [exact Hl|].
  assert (Hrun : addChild 2 9 st = Done (inserted CQtListProperty 2 9 st))
    by (vm_compute; reflexivity).
  destruct (addChild_appends st 2 9 _ Hl Hrun)
    as (o & o' & Ho & Ho' & _ & Hidx & _).
  exists (inserted CQtListProperty 2 9 st), o'.
  split_and!; [exact Hrun|exact Ho'|].
  rewrite Hidx.
  assert (Hs : heap st !! 2%nat = Some (sampleAt 2))
    by (vm_compute; reflexivity).
  rewrite Hs in Ho. injection Ho as <-. vm_compute; reflexivity.
Defined.

Lemma X7_witness :
  linked sample /\
  exists st' o',
    removeChild 1 5 sample = Done st' /\ heap st' !! 1%nat = Some o' /\
    indexChild o' 5 = -1.
Proof.
  assert (Hl : linked sample)
    by (apply linkedb_sound; vm_compute; reflexivity).
  split; [exact Hl|].
  assert (Hrun : removeChild 1 5 sample
                 = Done (unlinked CQtGroupProperty 1 5 1 sample))
    by (vm_compute; reflexivity).
  destruct (removeChild_shifts_later_siblings sample 1 5 _ Hl Hrun)
    as (o & o' & i & _ & Ho' & _ & _ & Hgone & _).
  exists (unlinked CQtGroupProperty 1 5 1 sample), o'.
  split_and!; [exact Hrun|exact Ho'|exact Hgone].
Defined.

Lemma X8_witness :
  let st := unlinked CQtGroupProperty 8 9 0 sample in
  linked st /\ connected_up st /\
  exists st2,
    removeChild 2 9 (inserted CQtListProperty 2 9 st) = Done st2 /\
    heap st2 = heap st /\ connections st2 = connections st.
Proof.
  set (st := unlinked CQtGroupProperty 8 9 0 sample).
  assert (Hl : linked st) by (apply linkedb_sound; vm_compute; reflexivity).
  assert (Hc : connected_up st)
    by (apply connected_upb_sound; vm_compute; reflexivity).
  split_and!; [exact Hl|exact Hc|].
  assert (Hrun : addChild 2 9 st = Done (inserted CQtListProperty 2 9 st))
    by (vm_compute; reflexivity).
  destruct (addChild_then_removeChild st 2 9 _ Hl Hc Hrun)
    as (st2 & H1 & H2 & H3 & _).
  exists st2. split_and!; [exact H1|exact H2|exact H3].
Defined.

Lemma X9_witness :
  linked sample /\
  exists st1 st2,
    removeFromParent 9 sample = Done st1 /\
    removeFromParent 9 st1 = Done st1 /\ addChild 2 9 st1 = Done st2.
Proof.
  assert (Hl : linked sample)
    by (apply linkedb_sound; vm_compute; reflexivity).
  split; [exact Hl|].
  assert (Hrun : removeFromParent 9 sample
                 = Done (unlinked CQtGroupProperty 8 9 0 sample))
    by (vm_compute; reflexivity).
  destruct (removeFromParent_makes_orphan sample 9 _ Hl Hrun)
    as (_ & _ & Hagain & Hadd).
  destruct (Hadd 2%nat) as [st2 H2].
  { exists (sampleAt 2). vm_compute; reflexivity. }
  exists (unlinked CQtGroupProperty 8 9 0 sample), st2.
  split_and!; [exact Hrun|exact Hagain|exact H2].
Defined.

Lemma X10_witness :
  linked sample /\ 1%nat <> 2%nat /\
  exists st2 o2,
    addChild 1 2 (unlinked CQtGroupProperty 1 2 0 sample) = Done st2 /\
    heap st2 !! 1%nat = Some o2 /\ indexChild o2 2 = 2.
Proof.
  assert (Hl : linked sample)
    by (apply linkedb_sound; vm_compute; reflexivity).
  split_and!; [exact Hl|lia|].
  assert (Hrun : removeChild 1 2 sample
                 = Done (unlinked CQtGroupProperty 1 2 0 sample))
    by (vm_compute; reflexivity).
  destruct (removeChild_then_addChild_moves_last sample 1 2 _ Hl
              ltac:(lia) Hrun)
    as (st2 & o & o2 & i & H1 & Ho & Ho2 & _ & _ & Hidx & _).
  exists st2, o2. split_and!; [exact H1|exact Ho2|].
  rewrite Hidx.
  assert (Hs : heap sample !! 1%nat = Some (sampleAt 1))
    by (vm_compute; reflexivity).
  rewrite Hs in Ho. injection Ho as <-. vm_compute; reflexivity.
Defined.

Lemma X11_witness :
  let st' := outcome sample (setValue 6 2 (VList [VInt 9; VInt 2]) sample) in
  forest sampleLevel 2 sample /\
  setValue 6 2 (VList [VInt 9; VInt 2]) sample = Done st' /\
  setValue 6 2 (VList [VInt 9; VInt 2]) st' = Done st'.
Proof.
  set (st' := outcome sample (setValue 6 2 (VList [VInt 9; VInt 2]) sample)).
  assert (Hf : forest sampleLevel 2 sample)
    by (apply forestb_sound; vm_compute; reflexivity).
  assert (Hrun : setValue 6 2 (VList [VInt 9; VInt 2]) sample = Done st')
    by (vm_compute; reflexivity).
  split_and!; [exact Hf|exact Hrun|].
  exact (setValue_again_is_silent sampleLevel 2 sample 2 _ 6 st' Hf Hrun).
Defined.

Lemma X12_witness :
  linked sample /\
  exists st' oc',
    QtProperty_destroy 2 sample = Done st' /\ heap st' !! 2%nat = None /\
    heap st' !! 3%nat = Some oc' /\ parent_ oc' = None.
Proof.
  assert (Hl : linked sample)
    by (apply linkedb_sound; vm_compute; reflexivity).
  split; [exact Hl|].
  destruct (QtProperty_destroy_erases_references sample 2 (sampleAt 2) Hl)
    as (st' & Hrun & Hgone & _ & _ & Hkids & _); [vm_compute; reflexivity|].
  destruct (Hkids 3%nat) as (oc' & Hoc' & Hp); [|lia|].
  { apply list_elem_of_In. vm_compute. tauto. }
  exists st', oc'. split_and!; [exact Hrun|exact Hgone|exact Hoc'|exact Hp].
Defined.

Lemma X13_witness :
  let st' := outcome sample (setValue 6 2 (VList [VInt 9; VInt 2]) sample) in
  setValue 6 2 (VList [VInt 9; VInt 2]) sample = Done st' /\
  connections st' = connections sample /\
  heap st' !! 1%nat = Some (sampleAt 1).
Proof.
  set (st' := outcome sample (setValue 6 2 (VList [VInt 9; VInt 2]) sample)).
  assert (Hrun : setValue 6 2 (VList [VInt 9; VInt 2]) sample = Done st')
    by (vm_compute; reflexivity).
  split; [exact Hrun|].
  destruct (value_operations_change_values_only 3 6 sample st')
    as (Hc & _ & Hg & _).
  { left. exists 2%nat, (VList [VInt 9; VInt 2]). exact Hrun. }
  split; [exact Hc|].
  apply Hg; vm_compute; reflexivity.
Defined.

Lemma X14_witness :
  linked emptyState /\ wired emptyState /\
  linked sample /\ wired sample /\ receivers 3 sample = [2%nat].
Proof.
  assert (Hl : linked emptyState)
    by (apply linkedb_sound; vm_compute; reflexivity).
  assert (Hw : wired emptyState)
    by (apply wiredb_sound; vm_compute; reflexivity).
  split_and!; [exact Hl|exact Hw|..].
  all: destruct (calls_keep_links_and_subscriptions 3
    [CallNew CQtGroupProperty 3 1; CallSetName 1 "root";
     CallNew CQtListProperty 1 2; CallSetName 2 "pos";
     CallNew CQtProperty 0 3; CallSetName 3 "x";
     CallNew CQtProperty 0 4; CallSetName 4 "y";
     CallNew CQtDictProperty 2 5; CallSetName 5 "size";
     CallNew CQtProperty 0 6; CallSetName 6 "a";
     CallNew CQtProperty 0 7; CallSetName 7 "b";
     CallNew CQtGroupProperty 3 8; CallSetName 8 "inner";
     CallNew CQtProperty 0 9; CallSetName 9 "x";
     CallStruct (OpAddChild 2 3); CallStruct (OpAddChild 2 4);
     CallStruct (OpAddChild 5 6); CallStruct (OpAddChild 5 7);
     CallStruct (OpAddChild 8 9); CallStruct (OpAddChild 1 2);
     CallStruct (OpAddChild 1 5); CallStruct (OpAddChild 1 8);
     CallSetValue 9 3 (VInt 1); CallSetValue 9 4 (VInt 2)]
    emptyState sample Hl Hw ltac:(vm_compute; reflexivity))
    as (Hl' & Hw' & Hrec).
  - exact Hl'.
  - exact Hw'.
  - rewrite (Hrec 3%nat (sampleAt 3) ltac:(vm_compute; reflexivity)).
    vm_compute; reflexivity.
Defined.

Lemma X15_witness :
  forest sampleLevel 2 sample /\ wired sample /\
  exists st' o',
    setValue 4 4 (VInt 8) sample = Done st' /\
    heap st' !! 2%nat = Some o' /\
    default Invalid (toList (value_ o') !! 1%nat) = VInt 8 /\
    default Invalid (toList (value_ o') !! 0%nat) = VInt 1.
Proof.
  assert (Hf : forest sampleLevel 2 sample)
    by (apply forestb_sound; vm_compute; reflexivity).
  assert (Hw : wired sample)
    by (apply wiredb_sound; vm_compute; reflexivity).
  split_and!; [exact Hf|exact Hw|].
  destruct (child_setValue_reaches_parent sampleLevel 2 sample 2 (sampleAt 2)
              4 (sampleAt 4) (VInt 8) 4 Hf Hw)
    as (st' & o' & new & H1 & _ & H3 & _ & H5);
    [vm_compute; reflexivity|vm_compute; reflexivity|vm_compute; reflexivity
    |vm_compute; reflexivity|vm_compute; discriminate|vm_compute; lia|].
  assert (Hk : cls (sampleAt 2) = CQtListProperty)
    by (vm_compute; reflexivity).
  rewrite Hk in H5. destruct H5 as [Hread _].
  assert (Hi : children_ (sampleAt 2) !! 1%nat = Some 4%nat)
    by (vm_compute; reflexivity).
  exists st', o'. split_and!; [exact H1|exact H3| |].
  - rewrite (Hread 1%nat Hi 1%nat). reflexivity.
  - rewrite (Hread 1%nat Hi 0%nat). vm_compute; reflexivity.
Defined.

Lemma X16_witness :
  forest sampleLevel 2 sample /\ wired sample /\ group_line sample 9 1 /\
  exists st' new,
    setValue 4 9 (VInt 5) sample = Done st' /\
    emitted st' = emitted sample ++ new /\
    sent_by 1%nat new = [(1%nat, signalValueChange 9)].
Proof.
  assert (Hf : forest sampleLevel 2 sample)
    by (apply forestb_sound; vm_compute; reflexivity).
  assert (Hw : wired sample)
    by (apply wiredb_sound; vm_compute; reflexivity).
  assert (Hline : group_line sample 9 1).
  { apply (group_step sample 9 8 (sampleAt 8) 1).
    - exists (sampleAt 9). split; vm_compute; reflexivity.
    - vm_compute; reflexivity.
    - vm_compute; reflexivity.
    - apply (group_parent sample 8 1 (sampleAt 1)).
      + exists (sampleAt 8). split; vm_compute; reflexivity.
      + vm_compute; reflexivity.
      + vm_compute; reflexivity. }
  split_and!; [exact Hf|exact Hw|exact Hline|].
  destruct (groups_relay_value_change sampleLevel 2 sample 9 1 Hf Hw Hline)
    as [_ H].
  destruct (H 4%nat (sampleAt 9) (VInt 5))
    as (st' & new & H1 & _ & H3 & H4 & _);
    [vm_compute; reflexivity|vm_compute; reflexivity|vm_compute; discriminate
    |vm_compute; lia|].
  exists st', new. split_and!; [exact H1|exact H3|exact H4].
Defined.

Lemma X17_witness :
  let st1 := unlinked CQtListProperty 2 4 1 sample in
  let st2 := outcome st1 (setValue 3 4 (VInt 8) st1) in
  forest sampleLevel 2 sample /\ wired sample /\
  removeChild 2 4 sample = Done st1 /\
  setValue 3 4 (VInt 8) st1 = Done st2 /\
  heap st2 !! 2%nat = heap st1 !! 2%nat /\ receivers 4 st1 = [].
Proof.
  set (st1 := unlinked CQtListProperty 2 4 1 sample).
  set (st2 := outcome st1 (setValue 3 4 (VInt 8) st1)).
  assert (Hf : forest sampleLevel 2 sample)
    by (apply forestb_sound; vm_compute; reflexivity).
  assert (Hw : wired sample)
    by (apply wiredb_sound; vm_compute; reflexivity).
  assert (Hrm : removeChild 2 4 sample = Done st1)
    by (vm_compute; reflexivity).
  assert (Hset : setValue 3 4 (VInt 8) st1 = Done st2)
    by (vm_compute; reflexivity).
  split_and!; [exact Hf|exact Hw|exact Hrm|exact Hset|..].
  all: destruct (removed_child_is_not_heard sampleLevel 2 sample 2 4 st1 3
                   (VInt 8) st2 Hf Hw Hrm Hset) as (H1 & H2 & _).
  - exact H1.
  - exact H2.
Defined.

Lemma X18_witness :
  forest sampleLevel 2 sample /\ (3%nat ∉ children_ (sampleAt 5)) /\
  exists st' o',
    slotChildValueChange (emitValueChange 2) 5 3 sample = Done st' /\
    heap st' !! 5%nat = Some o' /\
    QMap_value (toMap (value_ o')) (name_ (sampleAt 3)) = value_ (sampleAt 3).
Proof.
  assert (Hf : forest sampleLevel 2 sample)
    by (apply forestb_sound; vm_compute; reflexivity).
  assert (Hout : 3%nat ∉ children_ (sampleAt 5)).
  { intros Hin. apply list_elem_of_In in Hin. vm_compute in Hin.
    destruct Hin as [Hin|[Hin|[]]]; discriminate. }
  split_and!; [exact Hf|exact Hout|].
  destruct (slots_differ_on_strangers sampleLevel 2 sample 5 (sampleAt 5) 3
              (sampleAt 3) Hf) as [_ H];
    [vm_compute; reflexivity|vm_compute; reflexivity|exact Hout|].
  destruct (H ltac:(vm_compute; reflexivity) ltac:(vm_compute; discriminate)
              2%nat ltac:(vm_compute; lia)) as (st' & o' & H1 & H2 & H3).
  exists st', o'. split_and!; [exact H1|exact H2|exact H3].
Defined.

Lemma X19_witness :
  let st' := outcome sample (setValue 6 2 (VList [VInt 9; VInt 2]) sample) in
  forest sampleLevel 2 sample /\
  setValue 6 2 (VList [VInt 9; VInt 2]) sample = Done st' /\
  heap st' !! 5%nat = heap sample !! 5%nat.
Proof.
  set (st' := outcome sample (setValue 6 2 (VList [VInt 9; VInt 2]) sample)).
  assert (Hf : forest sampleLevel 2 sample)
    by (apply forestb_sound; vm_compute; reflexivity).
  assert (Hrun : setValue 6 2 (VList [VInt 9; VInt 2]) sample = Done st')
    by (vm_compute; reflexivity).
  split_and!; [exact Hf|exact Hrun|].
  destruct (value_calls_stay_on_the_line 3 sampleLevel 2 sample 2 6 st' Hf)
    as (new & _ & Hout).
  { left. exists (VList [VInt 9; VInt 2]). exact Hrun. }
  apply (Hout 5%nat).
  - intros [H|H]; [discriminate|].
    apply (above_rank sampleLevel 2 _ _ _ (forest_ranked _ _ _ Hf)) in H.
    vm_compute in H. lia.
  - intros H.
    apply (above_rank sampleLevel 2 _ _ _ (forest_ranked _ _ _ Hf)) in H.
    vm_compute in H. lia.
Defined.

Lemma X20_witness :
  forest sampleLevel 2 sample /\
  (exists st', setChildValue 3 7 1 "x" (VInt 5) sample = Done st') /\
  (exists r, findChild 3 7 1 "x" sample = Done r).
Proof.
  assert (Hf : forest sampleLevel 2 sample)
    by (apply forestb_sound; vm_compute; reflexivity).
  split; [exact Hf|].
  destruct (value_calls_return 3 sampleLevel 2 sample 1 (sampleAt 1) "x"
              (VInt 5) Hf) as (_ & H2 & H3 & _); [vm_compute; reflexivity|].
  split; [exact H2|exact H3].
Defined.

Lemma X21_witness :
  forest sampleLevel 2 sample /\
  exists st',
    setValue 6 2 (VList [VInt 9]) sample = Done st' /\
    getValueString 2 2 st' = Done "(9, , )".
Proof.
  assert (Hf : forest sampleLevel 2 sample)
    by (apply forestb_sound; vm_compute; reflexivity).
  split; [exact Hf|].
  destruct (list_renders_what_it_was_given sampleLevel 2 sample 2 (sampleAt 2)
              (VList [VInt 9]) 5 Hf) as (st' & H1 & H2).
  - vm_compute; reflexivity.
  - vm_compute; reflexivity.
  - intros c Hc. apply list_elem_of_In in Hc. vm_compute in Hc.
    destruct Hc as [<-|[<-|[]]].
    + exists (sampleAt 3). split; vm_compute; reflexivity.
    + exists (sampleAt 4). split; vm_compute; reflexivity.
  - vm_compute; discriminate.
  - vm_compute; lia.
  - exists st'. split; [exact H1|]. rewrite H2. vm_compute; reflexivity.
Defined.

(** * Runs on the sample tree *)

Example run_list_setValue :
  let r := setValue 6 2 (VList [VInt 9; VInt 2]) sample in
  emitted_during sample r =
    [(3%nat, signalValueChange 3); (2%nat, signalValueChange 2);
     (1%nat, signalValueChange 2)] /\
  value_after r 3 = Some (VInt 9) /\ value_after r 4 = Some (VInt 2).
Proof. vm_compute. auto. Qed.

Example run_list_child_change :
  let r := setValue 6 4 (VInt 8) sample in
  value_after r 2 = Some (VList [VInt 1; VInt 8]) /\
  emitted_during sample r =
    [(4%nat, signalValueChange 4); (2%nat, signalValueChange 2);
     (1%nat, signalValueChange 2)].
Proof. vm_compute. auto. Qed.

Example run_dict_setValue :
  let r := setValue 6 5 (fromMap (<["a" := VInt 5]> ∅)) sample in
  value_after r 6 = Some (VInt 5) /\ value_after r 7 = Some Invalid /\
  emitted_during sample r =
    [(6%nat, signalValueChange 6); (5%nat, signalValueChange 5);
     (1%nat, signalValueChange 5)].
Proof. vm_compute. auto. Qed.

Example run_group_findChild :
  findChild 3 3 1 "x" sample = Done (Some 9%nat) /\
  findChild 3 3 1 "pos" sample = Done (Some 2%nat) /\
  findChild 3 3 1 "a" sample = Done None.
Proof. vm_compute. auto. Qed.

Example run_group_setChildValue :
  let r := setChildValue 3 8 1 "x" (VInt 5) sample in
  value_after r 9 = Some (VInt 5) /\ value_after r 3 = Some (VInt 1) /\
  emitted_during sample r =
    [(9%nat, signalValueChange 9); (8%nat, signalValueChange 9);
     (1%nat, signalValueChange 9)].
Proof. vm_compute. auto. Qed.

Example run_destroy_list :
  emitted_during sample (QtProperty_destroy 2 sample) =
    [(2%nat, signalPropertyRemoved 2 (Some 1%nat));
     (2%nat, signalPropertyRemoved 3 (Some 2%nat));
     (2%nat, signalPropertyRemoved 4 (Some 2%nat));
     (1%nat, signalPropertyRemoved 2 (Some 1%nat))].
Proof. vm_compute. reflexivity. Qed.

Example run_getValueString :
  getValueString 2 2 sample = Done "(1, 2, )" /\
  getValueString 2 5 sample = Done "".
Proof. vm_compute. auto. Qed.
